(** * FinWise: the statement categorization pipeline

    A shallow embedding of the decision logic of the FinWise statement
    analyser: the keyword classifier and the batched remote classifier of
    the categorize route, the column mapper with its date normalizer, and
    the category statistics of the transaction table.
    Around them: the handler of the categorize route, the detection and
    confirmation of the columns, the page's handlers that edit and delete
    rows, the edit form, category list and colours of the table, and the
    chat interface with its prepared answers.

    Conventions.
    - A JavaScript string is a [string]; the keyword table, the separators
      and the digits the code looks at are ASCII, so searching and splitting
      bytes agrees with searching and splitting UTF-16 code units.
    - Built-ins whose result depends on Unicode tables or on the host
      ([toLowerCase], [trim], [toFixed], [Date.parse], the local time zone,
      the remote completion endpoint) are parameters of the sections that
      use them; ASCII instances are given for evaluation.
    - A JavaScript number is a [number]: NaN, the two infinities, or an exact
      rational.  Rounding and overflow of binary64 are not modelled;
      [Binary64] evaluates the percentage expression in IEEE arithmetic.
    - A call that can throw returns a [Completion]; an [undefined] value is
      [None].
    - The route's array holds transaction objects or [null]; a reply of the
      chat endpoint holds any content, a string or not. *)

From Stdlib Require Import QArith Qabs Lqa Ascii.
From Stdlib Require Import Floats.SpecFloat.
From stdpp Require Import base option list strings gmap pretty sorting.

(** ** JavaScript strings *)

Module JsString.

(** [s.includes(keyword)]: [keyword] occurs in [s] at some position. *)
Fixpoint includes (s keyword : string) : bool :=
  String.prefix keyword s
  || match s with
     | EmptyString => false
     | String _ s' => includes s' keyword
     end.

(** [s.split(sep)] for a separator that is one character out of a class:
    every separator occurrence ends a piece, so the result has one piece
    more than there are separators (and is never empty). *)
Fixpoint split (sep : ascii → bool) (s : string) : list string :=
  match s with
  | EmptyString => [EmptyString]
  | String c s' =>
      if sep c then EmptyString :: split sep s'
      else match split sep s' with
           | [] => [String c EmptyString]
           | piece :: pieces => String c piece :: pieces
           end
  end.

Definition newline : ascii := "010"%char.
Definition isNewline (c : ascii) : bool := bool_decide (c = newline).

(** [pieces.join(sep)] *)
Fixpoint join (sep : string) (pieces : list string) : string :=
  match pieces with
  | [] => EmptyString
  | [piece] => piece
  | piece :: rest => piece +:+ sep +:+ join sep rest
  end.

(** [s || dflt] on strings: the empty string is the only falsy one. *)
Definition orElse (s dflt : string) : string :=
  if bool_decide (s = EmptyString) then dflt else s.

(** ASCII instance of [toLowerCase]. *)
Definition lowerAscii (c : ascii) : ascii :=
  let n := Ascii.N_of_ascii c in
  if ((65 <=? n) && (n <=? 90))%N then Ascii.ascii_of_N (n + 32) else c.

Fixpoint toLowerCaseAscii (s : string) : string :=
  match s with
  | EmptyString => EmptyString
  | String c s' => String (lowerAscii c) (toLowerCaseAscii s')
  end.

(** ASCII instance of [trim]: strips the ASCII white space and line
    terminators from both ends. *)
Fixpoint trimStart (s : string) : string :=
  match s with
  | String c s' => if Ascii.is_space c then trimStart s' else s
  | EmptyString => EmptyString
  end.

Definition trimAscii (s : string) : string :=
  String.rev (trimStart (String.rev (trimStart s))).

End JsString.

(** ** The keyword classifier (categorize route) *)

Module Keywords.

(** The [categories] object literal of [categorizeWithKeywords], as its
    [Object.entries]: none of its keys is an array index, so the entries
    come in the order the literal lists them. *)
Definition categories : list (string * list string) :=
  [ ("Shopping",
      ["amazon"; "walmart"; "target"; "ebay"; "etsy"; "bestbuy"; "purchase"; "shop"]);
    ("Food & Dining",
      ["restaurant"; "cafe"; "coffee"; "starbucks"; "mcdonald"; "burger"; "pizza";
       "food"; "dining"; "chipotle"; "subway"; "taco"; "wendy"]);
    ("Groceries",
      ["grocery"; "supermarket"; "market"; "trader"; "whole foods"; "safeway";
       "kroger"; "aldi"; "publix"; "food"]);
    ("Transportation",
      ["uber"; "lyft"; "taxi"; "cab"; "transit"; "metro"; "subway"; "bus"; "train";
       "transport"]);
    ("Travel",
      ["hotel"; "airbnb"; "airline"; "flight"; "booking"; "expedia"; "travel";
       "vacation"; "trip"]);
    ("Entertainment",
      ["netflix"; "hulu"; "spotify"; "disney"; "movie"; "theater"; "concert";
       "ticket"; "entertainment"]);
    ("Health & Fitness",
      ["gym"; "fitness"; "workout"; "exercise"; "health"; "medical"; "doctor";
       "pharmacy"; "drug"; "cvs"; "walgreens"]);
    ("Bills & Utilities",
      ["bill"; "utility"; "electric"; "water"; "gas"; "internet"; "phone"; "cable";
       "service"]);
    ("Education",
      ["tuition"; "school"; "college"; "university"; "course"; "class"; "education";
       "book"; "textbook"]);
    ("Personal Care",
      ["salon"; "spa"; "haircut"; "beauty"; "cosmetic"; "personal care"]);
    ("Home",
      ["furniture"; "home depot"; "lowes"; "ikea"; "home"; "house"; "apartment";
       "rent"; "mortgage"]);
    ("Insurance", ["insurance"; "premium"; "coverage"; "policy"]);
    ("Investments",
      ["investment"; "stock"; "bond"; "mutual fund"; "etf"; "brokerage"; "dividend";
       "capital"]);
    ("Income",
      ["salary"; "paycheck"; "deposit"; "income"; "revenue"; "wage"; "earnings";
       "commission"]);
    ("Transfers",
      ["transfer"; "zelle"; "venmo"; "paypal"; "cash app"; "wire"; "ach";
       "direct deposit"]);
    ("Subscriptions",
      ["subscription"; "membership"; "recurring"; "monthly"; "annual"]) ].

(** The inner loop: does some keyword of the list occur in [desc]? *)
Fixpoint anyKeyword (desc : string) (keywords : list string) : bool :=
  match keywords with
  | [] => false
  | keyword :: rest =>
      if JsString.includes desc keyword then true else anyKeyword desc rest
  end.

(** The outer loop over the table entries, returning at the first hit. *)
Fixpoint firstMatch (desc : string) (table : list (string * list string))
  : option string :=
  match table with
  | [] => None
  | (category, keywords) :: rest =>
      if anyKeyword desc keywords then Some category else firstMatch desc rest
  end.

Section Classifier.
Variable toLowerCase : string → string.

Definition categorizeWithKeywords (description : string) : string :=
      let desc := toLowerCase description in
      match firstMatch desc categories with
      | Some category => category
      | None => "Uncategorized"
      end.
End Classifier.

End Keywords.

(** ** JavaScript numbers *)

Module JsNumber.

(** NaN, plus or minus Infinity, or a finite value.  Zero carries no sign:
    the only division of the program divides by a sum that [reduce] starts
    from [+0], and such a sum is never [-0]. *)
Inductive number : Type :=
  | NaN
  | Inf (negative : bool)
  | Fin (q : Q).

Definition zero : number := Fin 0.
Definition ofZ (z : Z) : number := Fin (inject_Z z).

Definition isNegative (q : Q) : bool := negb (Qle_bool 0 q).
Definition isZero (q : Q) : bool := Qeq_bool q 0.

(** [a + b] *)
Definition add (a b : number) : number :=
  match a, b with
  | NaN, _ | _, NaN => NaN
  | Inf s, Inf s' => if Bool.eqb s s' then Inf s else NaN
  | Inf s, Fin _ | Fin _, Inf s => Inf s
  | Fin p, Fin q => Fin (p + q)
  end.

(** [-a] *)
Definition neg (a : number) : number :=
  match a with
  | NaN => NaN
  | Inf s => Inf (negb s)
  | Fin q => Fin (- q)
  end.

(** [a - b] *)
Definition sub (a b : number) : number := add a (neg b).

(** [a * b] *)
Definition mul (a b : number) : number :=
  match a, b with
  | NaN, _ | _, NaN => NaN
  | Inf s, Inf s' => Inf (xorb s s')
  | Inf s, Fin q | Fin q, Inf s =>
      if isZero q then NaN else Inf (xorb s (isNegative q))
  | Fin p, Fin q => Fin (p * q)
  end.

(** [a / b] *)
Definition div (a b : number) : number :=
  match a, b with
  | NaN, _ | _, NaN => NaN
  | Inf _, Inf _ => NaN
  | Inf s, Fin q => Inf (xorb s (isNegative q))
  | Fin _, Inf _ => Fin 0
  | Fin p, Fin q =>
      if isZero q then (if isZero p then NaN else Inf (isNegative p))
      else Fin (p / q)
  end.

(** [Math.abs(a)] *)
Definition abs (a : number) : number :=
  match a with
  | NaN => NaN
  | Inf _ => Inf false
  | Fin q => Fin (Qabs q)
  end.

(** [a > 0] *)
Definition isPositive (a : number) : bool :=
  match a with
  | NaN => false
  | Inf s => negb s
  | Fin q => negb (Qle_bool q 0)
  end.

(** [a === b] *)
Definition strictEq (a b : number) : bool :=
  match a, b with
  | Inf s, Inf s' => Bool.eqb s s'
  | Fin p, Fin q => Qeq_bool p q
  | _, _ => false
  end.

(** [a <= b] *)
Definition leb (a b : number) : bool :=
  match a, b with
  | NaN, _ | _, NaN => false
  | Inf true, _ | _, Inf false => true
  | Inf false, _ | _, Inf true => false
  | Fin p, Fin q => Qle_bool p q
  end.

Definition isNaN (a : number) : bool :=
  match a with NaN => true | _ => false end.

(** [Number.isFinite(a)] *)
Definition isFinite (a : number) : bool :=
  match a with Fin _ => true | _ => false end.

(** [a || b] on numbers: zero and NaN are the falsy ones. *)
Definition orElse (a b : number) : number :=
  match a with
  | NaN => b
  | Inf _ => a
  | Fin q => if isZero q then b else a
  end.

End JsNumber.

Export JsNumber (number(..)).

(** ** The percentage expression in IEEE binary64

    The standard library's specification of IEEE 754 arithmetic at the
    precision and exponent range of a JavaScript number, with the expression
    [(total / amounts.reduce((sum, a) => sum + a, 0)) * 100] written over it.
    It evaluates the exact model's answer on the inputs of the examples. *)

Module Binary64.

Definition prec : Z := 53.
Definition emax : Z := 1024.

(** The double of an integer literal. *)
Definition ofZ (z : Z) : spec_float := binary_normalize prec emax z 0 false.

Definition percentage (total : Z) (amounts : list Z) : spec_float :=
  let sum := fold_left (λ sum a, SFadd prec emax sum (ofZ a)) amounts (S754_zero false) in
  SFmul prec emax (SFdiv prec emax (ofZ total) sum) (ofZ 100).

End Binary64.

(** ** Completions: a call returns a value or throws *)

Inductive Completion (A : Type) : Type :=
| Returned (a : A)
| Thrown.
Arguments Returned {A} a.
Arguments Thrown {A}.

#[global] Instance Completion_ret : MRet Completion := @Returned.
#[global] Instance Completion_bind : MBind Completion :=
  λ A B f m, match m with Returned a => f a | Thrown => Thrown end.
#[global] Instance Completion_fmap : FMap Completion :=
  λ A B f m, match m with Returned a => Returned (f a) | Thrown => Thrown end.

(** [try { body } catch { handler }]: the handler runs when the body
    throws, and may throw itself. *)
Definition tryCatch {A} (body handler : Completion A) : Completion A :=
  match body with Returned a => Returned a | Thrown => handler end.

(** [xs.map(f)] for a callback that can throw: the calls run in order and
    the first throw ends the [map]. *)
Fixpoint mapThrowing {A B} (f : A → Completion B) (xs : list A) : Completion (list B) :=
  match xs with
  | [] => Returned []
  | x :: rest =>
      y ← f x;
      ys ← mapThrowing f rest;
      Returned (y :: ys)
  end.

(** ** Transactions, as the transaction table types them *)

Module Tx.

Record Transaction : Type := mkTransaction {
  id : string;
  date : string;
  description : string;
  amount : number;
  category : string
}.

End Tx.

(** ** The remote classifier adapter (categorize route) *)

Module Adapter.

(** A transaction as the route receives it, decoded from JSON: the
    description is a string or, written [None], missing. *)
Record Transaction : Type := mkTransaction {
  id : string;
  date : string;
  description : option string;
  amount : number;
  category : string
}.

(** [{ ...transaction, category: c }] *)
Definition withCategory (t : Transaction) (c : string) : Transaction :=
  {| id := id t; date := date t; description := description t;
     amount := amount t; category := c |}.

(** An element of the [transactions] array, decoded from JSON: [null] or a
    transaction object. *)
Inductive Element : Type :=
  | Null
  | Object (transaction : Transaction).

(** Reading a member of an element, [t.description] or [t.amount]: on
    [null] the read throws a TypeError. *)
Definition members (element : Element) : Completion Transaction :=
  match element with
  | Null => Thrown
  | Object transaction => Returned transaction
  end.

(** What one [fetch("/api/chat")] round trip can produce at the code's
    reading points. *)
Inductive ChatBody : Type :=
  | BodyNotJson                    (* [response.json()] rejects *)
  | BodyNoContent                  (* [data.choices[0].message.content] is
                                      unreachable or not a string: the read or
                                      the [.split] throws a TypeError *)
  | BodyContent (content : string).

Inductive ChatReply : Type :=
  | FetchRejected                  (* [fetch] itself rejects *)
  | Response (ok : bool) (body : ChatBody).

Definition batchSize : nat := 10.

(** [xs.slice(from, to)] for [from <= to] *)
Definition slice {A} (from to : nat) (xs : list A) : list A :=
  take (to - from) (drop from xs).

(** The chunking loop of [categorizeWithLLM]; every round adds
    [batchSize] to [i], so [length transactions] rounds are enough. *)
Fixpoint batchLoop {A} (fuel i : nat) (transactions : list A)
    (batches : list (list A)) : list (list A) :=
  match fuel with
  | O => batches
  | S fuel' =>
      if bool_decide (i < length transactions)
      then batchLoop fuel' (i + batchSize) transactions
             (batches ++ [slice i (i + batchSize) transactions])
      else batches
  end.

Definition makeBatches {A} (transactions : list A) : list (list A) :=
  batchLoop (length transactions) 0 transactions [].

(** The fixed text of the prompt template, line by line, around the
    interpolated [transactionsText]. *)
Definition promptLines (transactionsText : string) : list string :=
  [ EmptyString;
    "You are a financial transaction categorizer. Please categorize each transaction into one of the following categories:";
    "- Shopping";
    "- Food & Dining";
    "- Groceries";
    "- Transportation";
    "- Travel";
    "- Entertainment";
    "- Health & Fitness";
    "- Bills & Utilities";
    "- Education";
    "- Personal Care";
    "- Home";
    "- Insurance";
    "- Investments";
    "- Income";
    "- Transfers";
    "- Subscriptions";
    "- Miscellaneous";
    EmptyString;
    "For each transaction, respond with ONLY the category name, one per line, in the same order as the transactions.";
    EmptyString;
    "Here are the transactions:";
    transactionsText;
    EmptyString ].

Definition newlineString : string := String JsString.newline EmptyString.

Definition prompt (transactionsText : string) : string :=
  JsString.join newlineString (promptLines transactionsText).

(** The categories the prompt enumerates: its bullet lines. *)
Definition bullet (line : string) : option string :=
  match line with
  | String "-" (String " " name) => Some name
  | _ => None
  end.

Definition promptVocabulary : list string :=
  omap bullet (JsString.split JsString.isNewline (prompt EmptyString)).

Section Remote.
Variable toLowerCase : string → string.
Variable trim : string → string.
(** [x.toFixed(2)] *)
Variable toFixed2 : number → string.
(** The completion endpoint: the reply to the request of batch number [k]
    carrying the given prompt. *)
Variable fetchChat : nat → string → ChatReply.

(** [`${t.description}`] *)
Definition interpolate (value : option string) : string :=
  match value with Some s => s | None => "undefined" end.

(** The text of a batch whose elements are objects. *)
Definition transactionsText (batch : list Transaction) : string :=
  JsString.join newlineString
    ((λ t, "Transaction: " +:+ interpolate (description t) +:+ ", Amount: "
             +:+ toFixed2 (JsNumber.abs (amount t))) <$> batch).

(** [categorizeWithKeywords(transaction.description)]: on a missing
    description [description.toLowerCase()] throws a TypeError. *)
Definition categorize (description : option string) : Completion string :=
  match description with
  | Some d => Returned (Keywords.categorizeWithKeywords toLowerCase d)
  | None => Thrown
  end.

(** The fallback both failure paths share. *)
Definition keywordFallback (batch : list Transaction) : Completion (list Transaction) :=
  mapThrowing
    (λ transaction,
       c ← categorize (description transaction);
       Returned (withCategory transaction c))
    batch.

(** From the [fetch] to [assistantMessage]. *)
Definition assistantMessage (reply : ChatReply) : Completion string :=
  match reply with
  | FetchRejected => Thrown
  | Response ok body =>
      if negb ok then Thrown
      else match body with
           | BodyNotJson | BodyNoContent => Thrown
           | BodyContent content => Returned content
           end
  end.

(** The lines of the message: split at the newlines, without the lines
    that are blank after [trim], each trimmed. *)
Definition responseCategories (message : string) : list string :=
  trim <$>
    filter (λ line, trim line ≠ EmptyString)
      (JsString.split JsString.isNewline message).

(** [categories[index] || "Miscellaneous"] *)
Definition categoryAt (categories : list string) (index : nat) : string :=
  match categories !! index with
  | Some line => JsString.orElse line "Miscellaneous"
  | None => "Miscellaneous"
  end.

(** The body of the [try] block. *)
Definition tryBatch (k : nat) (batch : list Transaction)
  : Completion (list Transaction) :=
  message ← assistantMessage (fetchChat k (prompt (transactionsText batch)));
  let categories := responseCategories message in
  if bool_decide (length categories ≠ length batch)
  then keywordFallback batch
  else Returned (imap (λ index transaction,
                         withCategory transaction (categoryAt categories index))
                      batch).

(** The [try] statement, with its [catch]. *)
Definition tryStatement (k : nat) (batch : list Transaction)
  : Completion (list Transaction) :=
  tryCatch (tryBatch k batch) (keywordFallback batch).

(** The [map] that builds [transactionsText] reads [t.description] and
    [t.amount] of every element of the batch, before the [try] statement:
    on a [null] element the read throws and nothing in the function catches
    it.  Past that [map] the elements are objects. *)
Definition processBatchWithLLM (k : nat) (batch : list Element)
  : Completion (list Transaction) :=
  transactions ← mapThrowing members batch;
  tryStatement k transactions.

(** [Promise.all] hands the batch results back in batch order whatever the
    order the requests complete in, and rejects when one of them does;
    [flat] concatenates the results. *)
Definition categorizeWithLLM (transactions : list Element)
  : Completion (list Transaction) :=
  let batches := makeBatches transactions in
  categorizedBatches ← mapThrowing (λ r, r) (imap processBatchWithLLM batches);
  Returned (concat categorizedBatches).

(** The three ways a batch loses its remote answer: the call throws (the
    [fetch], the JSON decoding or the read of the message content), the
    status is not a success, or the number of non-blank lines differs from
    the number of transactions. *)
Definition remoteFailed (k : nat) (batch : list Transaction) : Prop :=
  match fetchChat k (prompt (transactionsText batch)) with
  | FetchRejected => True
  | Response ok body =>
      ok = false
      ∨ match body with
        | BodyNotJson | BodyNoContent => True
        | BodyContent content =>
            length (responseCategories content) ≠ length batch
        end
  end.

End Remote.

End Adapter.

(** ** Dates: the part of [Date] that [formatDate] uses *)

Module JsDate.
Local Open Scope Z_scope.

Definition msPerDay : Z := 86400000.

(** ECMAScript's [DayFromYear] and leap years. *)
Definition dayFromYear (y : Z) : Z :=
  365 * (y - 1970) + (y - 1969) / 4 - (y - 1901) / 100 + (y - 1601) / 400.

Definition inLeapYear (y : Z) : bool :=
  ((y mod 4 =? 0) && negb (y mod 100 =? 0)) || (y mod 400 =? 0).

(** Days before month [mn] (0 = January) within its year. *)
Definition dayWithinYear (leap : bool) (mn : Z) : Z :=
  nth (Z.to_nat mn) [0; 31; 59; 90; 120; 151; 181; 212; 243; 273; 304; 334] 0
  + (if leap && (2 <=? mn) then 1 else 0).

(** [MakeDay(year, month, date)]: months outside 0..11 carry into the
    year, days outside the month carry into the neighbouring months. *)
Definition makeDay (year month date : Z) : Z :=
  let ym := year + month / 12 in
  let mn := month mod 12 in
  dayFromYear ym + dayWithinYear (inLeapYear ym) mn + date - 1.

(** [TimeClip]: a time value further than 8.64e15 ms from the epoch is
    NaN, written [None]. *)
Definition timeClip (t : Z) : option Z :=
  if Z.abs t <=? 8640000000000000 then Some t else None.

(** Year, month (1..12) and day of month of a day number. *)
Definition civilFromDays (day : Z) : Z * Z * Z :=
  let z := day + 719468 in
  let era := z / 146097 in
  let doe := z mod 146097 in
  let yoe := (doe - doe / 1460 + doe / 36524 - doe / 146096) / 365 in
  let doy := doe - (365 * yoe + yoe / 4 - yoe / 100) in
  let mp := (5 * doy + 2) / 153 in
  let d := doy - (153 * mp + 2) / 5 + 1 in
  let m := if mp <? 10 then mp + 3 else mp - 9 in
  ((if m <=? 2 then yoe + era * 400 + 1 else yoe + era * 400), m, d).

(** Decimal digits of a non-negative integer, zero padded on the left. *)
Definition padded (width : nat) (n : Z) : string :=
  let digits := pretty (Z.to_N n) in
  String.string_of_list_ascii
    (replicate (width - String.length digits)%nat "0"%char) +:+ digits.

Section Host.
(** [LocalTZA(t, false)]: the host's offset from UTC, in ms, at local
    time [t]. *)
Variable localTZA : Z → Z.

(** [new Date(year, monthIndex, day)]: local midnight of that day.
    A NaN argument, written [None], gives an invalid date. *)
Definition newDate (year monthIndex day : option Z) : option Z :=
  y ← year; m ← monthIndex; d ← day;
  let yr := if (0 <=? y) && (y <=? 99) then 1900 + y else y in
  let local := makeDay yr m d * msPerDay in
  timeClip (local - localTZA local).
End Host.

(** [date.toISOString()]: the UTC fields of the time value; a RangeError
    on an invalid date. *)
Definition toISOString (date : option Z) : Completion string :=
  match date with
  | None => Thrown
  | Some t =>
      let '(y, m, d) := civilFromDays (t / msPerDay) in
      let ms := t mod msPerDay in
      let year :=
        if (0 <=? y) && (y <=? 9999) then padded 4 y
        else (if y <? 0 then "-" else "+") +:+ padded 6 (Z.abs y) in
      Returned
        (year +:+ "-" +:+ padded 2 m +:+ "-" +:+ padded 2 d +:+ "T"
         +:+ padded 2 (ms / 3600000) +:+ ":" +:+ padded 2 (ms / 60000 mod 60)
         +:+ ":" +:+ padded 2 (ms / 1000 mod 60) +:+ "."
         +:+ padded 3 (ms mod 1000) +:+ "Z")
  end.

End JsDate.

(** ** Parsing numbers out of strings *)

Module JsParse.
Local Open Scope Z_scope.

Definition isDigit (c : ascii) : bool :=
  let n := Ascii.N_of_ascii c in ((48 <=? n) && (n <=? 57))%N.

(** Value of [c] as a digit below [radix]. *)
Definition digitValue (radix : Z) (c : ascii) : option Z :=
  let n := Z.of_N (Ascii.N_of_ascii c) in
  let v := if (48 <=? n) && (n <=? 57) then Some (n - 48)
           else if (97 <=? n) && (n <=? 122) then Some (n - 87)
           else if (65 <=? n) && (n <=? 90) then Some (n - 55)
           else None in
  v' ← v; if v' <? radix then Some v' else None.

(** The longest prefix of digits, read as a number in [radix]; the
    second component says whether any digit was read. *)
Fixpoint digitsPrefix (radix : Z) (acc : Z) (seen : bool) (s : string)
  : Z * bool * string :=
  match s with
  | EmptyString => (acc, seen, s)
  | String c s' =>
      match digitValue radix c with
      | Some v => digitsPrefix radix (acc * radix + v) true s'
      | None => (acc, seen, s)
      end
  end.

(** [Number.parseInt(s)] without a radix: leading ASCII white space, a
    sign, a [0x] prefix switching to base 16, then digits; NaN, written
    [None], when no digit follows.  The white space outside ASCII that
    [parseInt] skips as well (U+00A0, U+FEFF and the like) is not skipped
    here. *)
Definition parseInt (s : string) : option Z :=
  let s := JsString.trimStart s in
  let '(sign, s) := match s with
                    | String "-" r => (-1, r)
                    | String "+" r => (1, r)
                    | _ => (1, s)
                    end in
  let '(radix, s) := match s with
                     | String "0" (String "x" r) | String "0" (String "X" r) => (16, r)
                     | _ => (10, s)
                     end in
  let '(value, seen, _) := digitsPrefix radix 0 false s in
  if seen then Some (sign * value) else None.

(** [amountValue.replace(/[^\d.-]/g, empty)]: only digits, dots and minus
    signs stay. *)
Fixpoint keepAmountChars (s : string) : string :=
  match s with
  | EmptyString => EmptyString
  | String c s' =>
      if isDigit c || bool_decide (c = "."%char) || bool_decide (c = "-"%char)
      then String c (keepAmountChars s')
      else keepAmountChars s'
  end.

(** Number of leading decimal digits of [s]. *)
Fixpoint countDigits (s : string) : nat :=
  match s with
  | String c s' => if isDigit c then S (countDigits s') else O
  | EmptyString => O
  end.

(** [Number.parseFloat(s)] on what [keepAmountChars] leaves (digits, dots
    and minus signs): an optional minus, digits, and an optional dot with
    more digits; NaN when neither digit group has a digit. *)
Definition parseFloat (s : string) : number :=
  let '(negative, s) := match s with
                        | String "-" r => (true, r)
                        | _ => (false, s)
                        end in
  let '(whole, seenWhole, rest) := digitsPrefix 10 0 false s in
  let '(frac, seenFrac, places) :=
    match rest with
    | String "." r =>
        let '(f, seen, _) := digitsPrefix 10 0 false r in (f, seen, countDigits r)
    | _ => (0, false, O)
    end in
  if seenWhole || seenFrac then
    let scale := Z.pow 10 (Z.of_nat places) in
    let magnitude := Qmake (whole * scale + frac) (Z.to_pos scale) in
    Fin (if negative then Qopp magnitude else magnitude)
  else NaN.

End JsParse.

(** ** The column mapper and its date normalizer *)

Module Mapper.

(** A statement row: the cells of one CSV record under their header
    names.  [row !! column] is [row[column]], with [None] for
    [undefined]. *)
Abbreviation RawRow := (gmap string string).

(** The three column selectors held by the component. *)
Record ColumnMapping : Type := mkColumnMapping {
  dateColumn : string;
  descriptionColumn : string;
  amountColumn : string
}.

(** The object literal the [map] callback builds: [description] and
    [amount] are whatever the row held, so either can be [undefined]. *)
Record MappedTransaction : Type := mkMapped {
  id : string;
  date : string;
  description : option string;
  amount : option number;
  category : string
}.

(** [/^\d{4}-\d{2}-\d{2}/.test(s)] *)
Fixpoint matchesPrefix (pattern : list (ascii → bool)) (s : string) : bool :=
  match pattern, s with
  | [], _ => true
  | _ :: _, EmptyString => false
  | p :: pattern', String c s' => p c && matchesPrefix pattern' s'
  end.

Definition isDash (c : ascii) : bool := bool_decide (c = "-"%char).

Definition isoPrefix : list (ascii → bool) :=
  let d := JsParse.isDigit in [d; d; d; d; isDash; d; d; isDash; d; d].

(** The separator class of [dateStr.split(/[/.-]/)] *)
Definition isDateSeparator (c : ascii) : bool :=
  bool_decide (c = "/"%char) || bool_decide (c = "."%char)
  || bool_decide (c = "-"%char).

(** [s.substring(0, 10)] *)
Definition firstTen (s : string) : string := String.substring 0 10 s.

Section Component.
Variable localTZA : Z → Z.
(** [new Date(dateStr)] on a free-form string: the time value the host's
    parser finds, [None] for an invalid date. *)
Variable dateParse : string → option Z.
Variable mapping : ColumnMapping.

(** The two-digit year rule: [if (year < 100) year += year < 50 ? 2000 : 1900]. *)
Definition addCentury (year : Z) : Z :=
  if (year <? 100)%Z then (year + (if (year <? 50)%Z then 2000 else 1900))%Z
  else year.

Definition formatDate (dateStr : option string) : Completion string :=
  match dateStr with
  | None | Some EmptyString => Returned EmptyString
  | Some dateStr =>
      if matchesPrefix isoPrefix dateStr then Returned (firstTen dateStr)
      else
        match JsString.split isDateSeparator dateStr with
        | [p0; p1; p2] =>
            let month := JsParse.parseInt p0 in
            let day := JsParse.parseInt p1 in
            let year := addCentury <$> JsParse.parseInt p2 in
            let date := JsDate.newDate localTZA year ((λ m, m - 1)%Z <$> month) day in
            firstTen <$> JsDate.toISOString date
        | _ =>
            tryCatch
              (match dateParse dateStr with
               | Some t =>
                   iso ← JsDate.toISOString (JsDate.timeClip t);
                   Returned (firstTen iso)
               | None => Returned dateStr
               end)
              (Returned dateStr)
        end
  end.

(** The amount cell: cleaned and parsed when the row has one. *)
Definition amountOf (cell : option string) : option number :=
  (λ s, JsNumber.orElse (JsParse.parseFloat (JsParse.keepAmountChars s))
          JsNumber.zero) <$> cell.

(** The [map] callback. *)
Definition mapRow (index : nat) (row : RawRow) : Completion MappedTransaction :=
  let dateValue := row !! dateColumn mapping in
  let descValue := row !! descriptionColumn mapping in
  let amountValue := amountOf (row !! amountColumn mapping) in
  date ← formatDate dateValue;
  Returned {| id := "tx-" +:+ pretty index;
              date := date;
              description := descValue;
              amount := amountValue;
              category := EmptyString |}.

(** [tx.description && tx.amount !== 0] *)
Definition isTruthy (s : option string) : bool :=
  match s with
  | Some s => negb (bool_decide (s = EmptyString))
  | None => false
  end.

Definition amountNotZero (a : option number) : bool :=
  match a with
  | Some n => negb (JsNumber.strictEq n JsNumber.zero)
  | None => true
  end.

Definition keep (tx : MappedTransaction) : bool :=
  isTruthy (description tx) && amountNotZero (amount tx).

(** [rows.map(callback)]: the callback runs on the rows in order, and a
    throw in any call ends the whole [map]. *)
Fixpoint mapRows (index : nat) (rows : list RawRow)
  : Completion (list MappedTransaction) :=
  match rows with
  | [] => Returned []
  | row :: rows' =>
      tx ← mapRow index row;
      txs ← mapRows (S index) rows';
      Returned (tx :: txs)
  end.

Definition processDataWithMapping (rows : list RawRow)
  : Completion (list MappedTransaction) :=
  txs ← mapRows 0 rows;
  Returned (filter (λ tx, keep tx = true) txs).

End Component.

End Mapper.

(** ** The category statistics of the transaction table *)

Module Aggregator.

(** The value [stats[category]] holds. *)
Record Tally : Type := mkTally {
  tallyCount : nat;
  tallyTotal : number
}.

(** The [stats] object: its own properties in creation order.  Every
    key occurs once. *)
Abbreviation Stats := (list (string * Tally)).

Record CategoryStat : Type := mkStat {
  category : string;
  count : nat;
  total : number;
  percentage : number
}.

(** The names an object literal inherits from [Object.prototype].  Reading
    [stats[name]] for one of them finds a function (or, for [__proto__],
    the prototype object) when [stats] has no own property of that name. *)
Definition objectPrototypeKeys : list string :=
  [ "constructor"; "__defineGetter__"; "__defineSetter__"; "hasOwnProperty";
    "__lookupGetter__"; "__lookupSetter__"; "isPrototypeOf";
    "propertyIsEnumerable"; "toString"; "valueOf"; "__proto__";
    "toLocaleString" ].

Definition isInherited (key : string) : bool :=
  bool_decide (key ∈ objectPrototypeKeys).

(** Own property lookup. *)
Fixpoint getOwn (key : string) (stats : Stats) : option Tally :=
  match stats with
  | [] => None
  | (k, v) :: rest => if bool_decide (k = key) then Some v else getOwn key rest
  end.

(** [stats[key] = v] for a key that is not yet an own property. *)
Definition define (key : string) (v : Tally) (stats : Stats) : Stats :=
  stats ++ [(key, v)].

(** In-place update of the object held under [key]. *)
Fixpoint update (key : string) (f : Tally → Tally) (stats : Stats) : Stats :=
  match stats with
  | [] => []
  | (k, v) :: rest =>
      if bool_decide (k = key) then (k, f v) :: rest
      else (k, v) :: update key f rest
  end.

(** [transaction.category || "Uncategorized"] is [groupOf]; [tally] is the
    body of the [forEach] callback.  For an inherited name the test
    [!stats[category]] sees the inherited member, nothing is created, and
    the two [+=] write [count] and [total] onto that member: [stats] keeps
    its own properties as they were. *)
Definition groupOf (transaction : Tx.Transaction) : string :=
  JsString.orElse (Tx.category transaction) "Uncategorized".

Definition tally (stats : Stats) (transaction : Tx.Transaction) : Stats :=
  let category := groupOf transaction in
  if isInherited category then stats
  else
    let stats :=
      match getOwn category stats with
      | None => define category {| tallyCount := 0; tallyTotal := JsNumber.zero |} stats
      | Some _ => stats
      end in
    update category
      (λ data, {| tallyCount := tallyCount data + 1;
                  tallyTotal := JsNumber.add (tallyTotal data) (Tx.amount transaction) |})
      stats.

(** A key is an array index when it is the decimal spelling of an integer
    below 2^32 - 1. *)
Definition arrayIndex (key : string) : option N :=
  let '(value, seen, rest) := JsParse.digitsPrefix 10 0 false key in
  let n := Z.to_N value in
  if seen && bool_decide (rest = EmptyString) && bool_decide (pretty n = key)
     && (n <? 4294967295)%N
  then Some n else None.

Definition isArrayIndex (key : string) : bool :=
  match arrayIndex key with Some _ => true | None => false end.

(** Ascending insertion of an indexed entry. *)
Fixpoint insertIndexed {A} (n : N) (entry : A) (sorted : list (N * A)) : list (N * A) :=
  match sorted with
  | [] => [(n, entry)]
  | (m, e) :: rest =>
      if (n <? m)%N then (n, entry) :: sorted
      else (m, e) :: insertIndexed n entry rest
  end.

(** The entries whose key is an array index, by ascending index. *)
Fixpoint indexedEntries (stats : Stats) : list (N * (string * Tally)) :=
  match stats with
  | [] => []
  | (k, v) :: rest =>
      match arrayIndex k with
      | Some n => insertIndexed n (k, v) (indexedEntries rest)
      | None => indexedEntries rest
      end
  end.

(** [Object.entries(stats)]: array-index keys first, in ascending numeric
    order, then the other keys in creation order. *)
Definition entries (stats : Stats) : list (string * Tally) :=
  (snd <$> indexedEntries stats)
  ++ filter (λ kv, isArrayIndex (fst kv) = false) stats.

(** [array.sort(compare)]: the sort is stable, and an element moves behind
    another only when [compare] is positive on them (NaN counts as 0).
    Written as the stable insertion sort.  Where the comparison is not
    consistent (a NaN total among three or more rows) the language leaves
    the order to the implementation, and this is one such order. *)
Section Sort.
Context {A : Type}.
Variable compare : A → A → number.

Fixpoint insertSorted (x : A) (sorted : list A) : list A :=
  match sorted with
  | [] => [x]
  | y :: rest =>
      if JsNumber.isPositive (compare x y) then y :: insertSorted x rest
      else x :: sorted
  end.

Definition sort (xs : list A) : list A := foldr insertSorted [] xs.
End Sort.

(** [transactions.reduce((sum, t) => sum + t.amount, 0)] *)
Definition sumOfAmounts (transactions : list Tx.Transaction) : number :=
  fold_left (λ sum t, JsNumber.add sum (Tx.amount t)) transactions JsNumber.zero.

Definition byTotalDescending (a b : CategoryStat) : number :=
  JsNumber.sub (total b) (total a).

(** The callback of the [map] over the entries. *)
Definition statOf (transactions : list Tx.Transaction) (entry : string * Tally)
  : CategoryStat :=
  let '(category, data) := entry in
  {| category := category;
     count := tallyCount data;
     total := tallyTotal data;
     percentage :=
       JsNumber.mul
         (JsNumber.div (tallyTotal data) (sumOfAmounts transactions))
         (JsNumber.ofZ 100) |}.

Definition getCategoryStats (transactions : list Tx.Transaction) : list CategoryStat :=
  let stats := fold_left tally transactions [] in
  sort byTotalDescending (statOf transactions <$> entries stats).

End Aggregator.

(** ** The categorize route handler *)

Module Route.

(** The [transactions] member of the decoded request body, as the guard
    [!transactions || !Array.isArray(transactions)] and the two modes read
    it; the elements of an array are transaction objects or [null]. *)
Inductive TransactionsField : Type :=
  | Missing                        (* absent, [null] or another falsy value *)
  | NotArray                       (* a truthy value that is not an array *)
  | Transactions (transactions : list Adapter.Element).

(** The request: [request.json()] rejects, or the destructuring of a
    [null] body throws, or the two members are read.  [mode] is [None] when
    the member is absent or not a string. *)
Inductive RequestBody : Type :=
  | Unreadable
  | Body (transactions : TransactionsField) (mode : option string).

(** The three [NextResponse.json] calls.  The text of the status 500 body
    ends in the message of the error caught, which is not modelled. *)
Inductive Response : Type :=
  | Ok (transactions : list Adapter.Transaction)
  | BadRequest (error : string)
  | ServerError.

Definition status (response : Response) : nat :=
  match response with
  | Ok _ => 200
  | BadRequest _ => 400
  | ServerError => 500
  end.

Section Handler.
Variable toLowerCase : string → string.
Variable trim : string → string.
Variable toFixed2 : number → string.
Variable fetchChat : nat → string → Adapter.ChatReply.

(** The [map] of the naive mode; [transaction.description] is the read
    that throws on a [null] element. *)
Definition categorizeNaive (transactions : list Adapter.Element)
  : Completion (list Adapter.Transaction) :=
  mapThrowing
    (λ element,
       transaction ← Adapter.members element;
       c ← Adapter.categorize toLowerCase (Adapter.description transaction);
       Returned (Adapter.withCategory transaction c))
    transactions.

(** The body of the [try] block. *)
Definition respond (body : RequestBody) : Completion Response :=
  match body with
  | Unreadable => Thrown
  | Body (Missing | NotArray) _ => Returned (BadRequest "Invalid transactions data")
  | Body (Transactions transactions) mode =>
      if bool_decide (mode = Some "naive")
      then categorizedTransactions ← categorizeNaive transactions;
           Returned (Ok categorizedTransactions)
      else categorizedTransactions ←
             Adapter.categorizeWithLLM toLowerCase trim toFixed2 fetchChat transactions;
           Returned (Ok categorizedTransactions)
  end.

Definition POST (body : RequestBody) : Completion Response :=
  tryCatch (respond body) (Returned ServerError).

End Handler.

End Route.

(** ** The column mapper: detection of the columns and confirmation *)

Module ColumnMapper.

(** [/a|b|c/i.test(s)] for alternatives of lower-case ASCII letters: some
    alternative occurs in [s] with its letters in either case.  Without the
    [u] flag a character outside ASCII never matches an ASCII letter. *)
Definition test (alternatives : list string) (s : string) : bool :=
  existsb (JsString.includes (JsString.toLowerCaseAscii s)) alternatives.

Definition dateRegex : list string := ["date"; "time"; "when"].
Definition descRegex : list string :=
  ["desc"; "narration"; "details"; "merchant"; "payee"; "transaction"; "particulars"].
Definition amountRegex : list string :=
  ["amount"; "sum"; "value"; "debit"; "credit"; "payment"].

(** [columns.find(test)] followed by [if (found) set(found)]: the state
    variable keeps its value when nothing is found. *)
Definition detect (regex : list string) (columns : list string) (current : string)
  : string :=
  match List.find (test regex) columns with
  | Some found => if bool_decide (found = EmptyString) then current else found
  | None => current
  end.

Definition autoDetectColumns (columns : list string) (selected : Mapper.ColumnMapping)
  : Mapper.ColumnMapping :=
  {| Mapper.dateColumn := detect dateRegex columns (Mapper.dateColumn selected);
     Mapper.descriptionColumn :=
       detect descRegex columns (Mapper.descriptionColumn selected);
     Mapper.amountColumn := detect amountRegex columns (Mapper.amountColumn selected) |}.

(** The state of the three selectors when the component mounts. *)
Definition unselected : Mapper.ColumnMapping :=
  {| Mapper.dateColumn := EmptyString;
     Mapper.descriptionColumn := EmptyString;
     Mapper.amountColumn := EmptyString |}.

(** What a click on the confirm button does. *)
Inductive Confirmation : Type :=
  | Alert
  | Delivered (mappedColumns : Mapper.ColumnMapping)
      (processedData : list Mapper.MappedTransaction).

Section Host.
Variable localTZA : Z → Z.
Variable dateParse : string → option Z.

Definition handleConfirm (selected : Mapper.ColumnMapping) (rows : list Mapper.RawRow)
  : Completion Confirmation :=
  if bool_decide (Mapper.dateColumn selected = EmptyString)
     || bool_decide (Mapper.descriptionColumn selected = EmptyString)
     || bool_decide (Mapper.amountColumn selected = EmptyString)
  then Returned Alert
  else
    processedData ← Mapper.processDataWithMapping localTZA dateParse selected rows;
    Returned (Delivered selected processedData).
End Host.

End ColumnMapper.

(** ** The analysis page: the handlers that rewrite the transaction list *)

Module Page.

(** [transactions.map((t) => (t.id === updated.id ? updated : t))] *)
Definition handleUpdateTransaction (updatedTransaction : Tx.Transaction)
    (transactions : list Tx.Transaction) : list Tx.Transaction :=
  (λ t, if bool_decide (Tx.id t = Tx.id updatedTransaction)
        then updatedTransaction else t) <$> transactions.

(** [transactions.filter((t) => t.id !== id)] *)
Definition handleDeleteTransaction (id : string)
    (transactions : list Tx.Transaction) : list Tx.Transaction :=
  filter (λ t, Tx.id t ≠ id) transactions.

End Page.

(** ** The transaction table: the edit form, the category list, the colours *)

Module Table.

(** The options of the category selector of the edit form. *)
Definition categories : list string :=
  [ "Uncategorized"; "Shopping"; "Food & Dining"; "Transportation";
    "Health & Fitness"; "Bills & Utilities"; "Entertainment";
    "Electronics & Technology"; "Restaurants"; "Groceries"; "Ride Sharing";
    "Automotive"; "Health & Wellness"; "Utilities"; "Miscellaneous"; "Education";
    "Personal Care"; "Home"; "Insurance"; "Investments"; "Income"; "Transfers";
    "Subscriptions"; "Travel" ].

(** The component's own state: [editingId] and [editForm]. *)
Record EditState : Type := mkEditState {
  editingId : option string;
  editForm : option Tx.Transaction
}.

Definition notEditing : EditState := {| editingId := None; editForm := None |}.

(** The four calls of [handleInputChange] the form makes. *)
Inductive Change : Type :=
  | ChangeDate (value : string)
  | ChangeDescription (value : string)
  | ChangeAmount (value : number)
  | ChangeCategory (value : string).

(** [{ ...editForm, [field]: value }] *)
Definition assign (form : Tx.Transaction) (change : Change) : Tx.Transaction :=
  match change with
  | ChangeDate value =>
      {| Tx.id := Tx.id form; Tx.date := value; Tx.description := Tx.description form;
         Tx.amount := Tx.amount form; Tx.category := Tx.category form |}
  | ChangeDescription value =>
      {| Tx.id := Tx.id form; Tx.date := Tx.date form; Tx.description := value;
         Tx.amount := Tx.amount form; Tx.category := Tx.category form |}
  | ChangeAmount value =>
      {| Tx.id := Tx.id form; Tx.date := Tx.date form;
         Tx.description := Tx.description form;
         Tx.amount := value; Tx.category := Tx.category form |}
  | ChangeCategory value =>
      {| Tx.id := Tx.id form; Tx.date := Tx.date form;
         Tx.description := Tx.description form;
         Tx.amount := Tx.amount form; Tx.category := value |}
  end.

Definition handleEdit (transaction : Tx.Transaction) : EditState :=
  {| editingId := Some (Tx.id transaction); editForm := Some transaction |}.

Definition handleCancelEdit : EditState := notEditing.

Definition handleInputChange (change : Change) (state : EditState) : EditState :=
  match editForm state with
  | Some form => {| editingId := editingId state; editForm := Some (assign form change) |}
  | None => state
  end.

(** [handleSaveEdit] with the page's [handleUpdateTransaction] as
    [onUpdateTransaction]: the new component state and the new list. *)
Definition handleSaveEdit (state : EditState) (transactions : list Tx.Transaction)
  : EditState * list Tx.Transaction :=
  match editForm state with
  | Some form => (notEditing, Page.handleUpdateTransaction form transactions)
  | None => (state, transactions)
  end.

Definition colors : list string :=
  [ "bg-blue-500"; "bg-green-500"; "bg-yellow-500"; "bg-red-500"; "bg-purple-500";
    "bg-pink-500"; "bg-indigo-500"; "bg-emerald-500"; "bg-amber-500"; "bg-rose-500";
    "bg-cyan-500"; "bg-violet-500" ].

(** [category.split(empty).reduce((acc, char) => acc + char.charCodeAt(0), 0)]
    over the UTF-16 code units of the category; the sum of the code units of
    a string stays far below 2^53, so the additions are exact. *)
Definition hash (codeUnits : list N) : N :=
  fold_left (λ acc char, acc + char)%N codeUnits 0%N.

(** [colors[hash % colors.length]], with [None] for [undefined]. *)
Definition colorOf (codeUnits : list N) : option string :=
  colors !! N.to_nat (hash codeUnits mod N.of_nat (length colors))%N.

(** The code units of a string of ASCII characters. *)
Definition codeUnitsAscii (s : string) : list N :=
  Ascii.N_of_ascii <$> String.list_ascii_of_string s.

Section Host.
(** The UTF-16 code units of a string. *)
Variable codeUnits : string → list N.

Definition getCategoryColor (category : string) : option string :=
  colorOf (codeUnits category).
End Host.

End Table.

(** ** The chat interface *)

Module Chat.

Inductive Role : Type := User | Assistant.

(** What a message holds as its content.  The component types it as a
    string; the content read from a reply is stored as it is, so a message
    of the assistant can hold [undefined] or a JSON value of another
    type. *)
Inductive Content : Type :=
  | Text (text : string)
  | Undefined                      (* the message of the reply has no [content] *)
  | NotString.                     (* [content] is [null], a number, a boolean,
                                      an array or an object *)

Record Message : Type := mkMessage {
  role : Role;
  content : Content
}.

Record State : Type := mkState {
  messages : list Message;
  input : string;
  isLoading : bool
}.

(** The state the component mounts with. *)
Definition initial : State :=
  {| messages :=
       [ {| role := Assistant;
            content := Text "Hello! I'm your FinWise assistant. How can I help with your financial questions today?" |} ];
     input := EmptyString;
     isLoading := false |}.

Definition suggestedQuestions : list string :=
  [ "What is a treasury bond?";
    "How do I start investing?";
    "Explain mutual funds";
    "What's the difference between stocks and bonds?" ].

(** The [fallbackResponses] object literal, as its [Object.entries]. *)
Definition fallbackResponses : list (string * string) :=
  [ ("What is a treasury bond?",
     "A Treasury bond is a long-term government debt security issued by the U.S. Department of the Treasury. These bonds have maturities ranging from 10 to 30 years and pay interest semi-annually. Treasury bonds are considered one of the safest investments as they're backed by the full faith and credit of the U.S. government.");
    ("How do I start investing?",
     "To start investing: 1) Set clear financial goals, 2) Build an emergency fund first, 3) Pay off high-interest debt, 4) Determine your risk tolerance, 5) Research investment options (stocks, bonds, ETFs, mutual funds), 6) Consider opening an account with a reputable broker, 7) Start with a diversified portfolio, and 8) Consider consulting with a financial advisor for personalized advice.");
    ("Explain mutual funds",
     "A mutual fund is an investment vehicle that pools money from many investors to purchase a diversified portfolio of stocks, bonds, or other securities. Professional fund managers handle the investments, making decisions on behalf of the investors. Mutual funds offer diversification, professional management, and liquidity, making them accessible to individual investors who might not have the time, expertise, or capital to build diversified portfolios on their own.");
    ("What's the difference between stocks and bonds?",
     "Stocks represent ownership in a company, while bonds represent loans made to a company or government. When you buy stocks, you become a partial owner and may receive dividends and benefit from price appreciation. Stocks generally offer higher potential returns but come with higher risk. Bonds, on the other hand, pay regular interest and return the principal at maturity. They typically offer lower returns but with less risk and more predictable income.") ].

Definition defaultResponse : string :=
  "I can provide information about various financial topics like investments, savings, retirement planning, and more. Could you please try asking a different financial question?".

(** What one [fetch("/api/chat")] round trip can produce at the reading
    points of [handleSendMessage].  The read of
    [data.choices[0].message.content] throws when [data], [choices], its
    first element or [message] is [null] or missing; otherwise it gives what
    [content] holds, a string or not. *)
Inductive Body : Type :=
  | BodyNotJson                    (* [response.json()] rejects *)
  | BodyNoMessage                  (* the read of [choices[0].message.content]
                                      throws a TypeError *)
  | BodyContent (content : Content).

Inductive Reply : Type :=
  | FetchRejected
  | Response (ok : bool) (body : Body).

Section Host.
Variable toLowerCase : string → string.
Variable trim : string → string.

(** The loop over the entries, returning at the first key that occurs in
    the question. *)
Fixpoint firstResponse (question : string) (entries : list (string * string))
  : option string :=
  match entries with
  | [] => None
  | (key, response) :: rest =>
      if JsString.includes (toLowerCase question) (toLowerCase key)
      then Some response
      else firstResponse question rest
  end.

Definition getFallbackResponse (question : string) : string :=
  match firstResponse question fallbackResponses with
  | Some response => response
  | None => defaultResponse
  end.

(** From the [fetch] to [assistantMessage]; nothing tests what was
    read. *)
Definition assistantMessage (reply : Reply) : Completion Content :=
  match reply with
  | FetchRejected => Thrown
  | Response ok body =>
      if negb ok then Thrown
      else match body with
           | BodyNotJson | BodyNoMessage => Thrown
           | BodyContent content => Returned content
           end
  end.

(** [setMessages((prev) => [...prev, message])] *)
Definition append (message : Message) (state : State) : State :=
  {| messages := messages state ++ [message];
     input := input state;
     isLoading := isLoading state |}.

Definition setIsLoading (value : bool) (state : State) : State :=
  {| messages := messages state; input := input state; isLoading := value |}.

Definition setInput (value : string) (state : State) : State :=
  {| messages := messages state; input := value; isLoading := isLoading state |}.

(** [handleSendMessage] up to the [fetch]: [None] when the guard returns. *)
Definition beginSend (message : string) (state : State) : option State :=
  if bool_decide (trim message = EmptyString) || isLoading state then None
  else Some (setIsLoading true
               (append {| role := User; content := Text message |} state)).

(** [handleSendMessage] from the reply on: the [try] block after the
    [fetch], its [catch], and the [finally]. *)
Definition endSend (message : string) (reply : Reply) (state : State) : State :=
  let answer :=
    match assistantMessage reply with
    | Returned assistantMessage => assistantMessage
    | Thrown => Text (getFallbackResponse message)
    end in
  setIsLoading false (append {| role := Assistant; content := answer |} state).

(** One call of [handleSendMessage] that no other event interrupts. *)
Definition handleSendMessage (message : string) (reply : Reply) (state : State) : State :=
  match beginSend message state with
  | Some sending => endSend message reply sending
  | None => state
  end.

(** [handleSubmit]: the text of the input field is sent, then cleared. *)
Definition handleSubmit (reply : Reply) (state : State) : State :=
  setInput EmptyString (handleSendMessage (input state) reply state).

Definition handleSuggestedQuestion (question : string) (reply : Reply) (state : State)
  : State :=
  handleSendMessage question reply (setInput EmptyString state).

End Host.

End Chat.

(** * Specification vocabulary and sample data *)

(** The names of the rule table, and the names the classifier can return. *)
Definition keywordVocabulary : list string := fst <$> Keywords.categories.
Definition keywordResults : list string := keywordVocabulary ++ ["Uncategorized"].

(** Some keyword of the list occurs in the lower-cased description. *)
Definition matchesCategory (desc : string) (keywords : list string) : Prop :=
  ∃ keyword, keyword ∈ keywords ∧ JsString.includes desc keyword = true.

(** [t'] has the members of [t], the category left aside. *)
Definition sameMembers (t t' : Adapter.Transaction) : Prop :=
  Adapter.id t' = Adapter.id t
  ∧ Adapter.date t' = Adapter.date t
  ∧ Adapter.description t' = Adapter.description t
  ∧ Adapter.amount t' = Adapter.amount t.

(** [t'] is [t] with a category filled in. *)
Definition categorizedAs (t t' : Adapter.Transaction) : Prop :=
  sameMembers t t' ∧ Adapter.category t' ≠ EmptyString.

(** [t'] is [t] with the keyword classifier's category of its description. *)
Definition keywordCategorized (toLowerCase : string → string)
    (t t' : Adapter.Transaction) : Prop :=
  sameMembers t t'
  ∧ ∃ d, Adapter.description t = Some d
         ∧ Adapter.category t' = Keywords.categorizeWithKeywords toLowerCase d.

(** The description is a string. *)
Definition hasDescription (t : Adapter.Transaction) : Prop :=
  is_Some (Adapter.description t).

Definition uberTrip : Adapter.Transaction :=
  {| Adapter.id := "tx-0"; Adapter.date := "2024-03-15";
     Adapter.description := Some "Uber Trip";
     Adapter.amount := JsNumber.ofZ (-12); Adapter.category := EmptyString |}.

Definition paycheck : Adapter.Transaction :=
  {| Adapter.id := "tx-1"; Adapter.date := "2024-03-16";
     Adapter.description := Some "Paycheck Deposit";
     Adapter.amount := JsNumber.ofZ 2500; Adapter.category := EmptyString |}.

(** A transaction that lost its description on the way. *)
Definition noDescription : Adapter.Transaction :=
  {| Adapter.id := "tx-2"; Adapter.date := "2024-03-17";
     Adapter.description := None;
     Adapter.amount := JsNumber.ofZ 9; Adapter.category := EmptyString |}.

(** The categories of a result. *)
Definition categoriesOf (result : Completion (list Adapter.Transaction))
  : Completion (list string) :=
  (λ categorized : list Adapter.Transaction, Adapter.category <$> categorized)
    <$> result.

Definition netflix : Adapter.Transaction :=
  {| Adapter.id := "tx-3"; Adapter.date := "2024-03-18";
     Adapter.description := Some "NETFLIX.COM";
     Adapter.amount := JsNumber.ofZ (-15); Adapter.category := EmptyString |}.

(** A string without a newline, and the text of a reply made of such
    lines. *)
Fixpoint newlineFree (s : string) : bool :=
  match s with
  | EmptyString => true
  | String c s' => negb (JsString.isNewline c) && newlineFree s'
  end.

Definition replyOf (answer : list string) : string :=
  JsString.join Adapter.newlineString answer.

(** The endpoint that answers every request with the given lines. *)
Definition answering (answer : list string) : nat → string → Adapter.ChatReply :=
  λ _ _, Adapter.Response true (Adapter.BodyContent (replyOf answer)).

(** Of the lines of a reply, those that are not empty after the trim,
    trimmed. *)
Definition nonBlankLines (trim : string → string) (answer : list string) : list string :=
  trim <$> filter (λ line, trim line ≠ EmptyString) answer.

(** Two lines and two blank ones; one line for each of three transactions,
    the second of them blank. *)
Definition twoLinesAndBlanks : list string :=
  ["Travel"; EmptyString; "  Transfers  "; EmptyString].
Definition threeLinesOneBlank : list string := ["Travel"; "   "; "Transfers"].

(** Twelve transactions, which make two batches; an endpoint that refuses
    the first request and answers the others with one line; and one that
    refuses the first and answers the others with two lines and two blank
    ones. *)
Definition twelve : list Adapter.Transaction :=
  replicate 10 netflix ++ [uberTrip; paycheck].

Definition oneAnswerShort : nat → string → Adapter.ChatReply :=
  λ k prompt,
    match k with
    | O => Adapter.Response false Adapter.BodyNotJson
    | S _ => answering ["Travel"] k prompt
    end.

Definition secondBatchAnswered : nat → string → Adapter.ChatReply :=
  λ k prompt,
    match k with
    | O => Adapter.FetchRejected
    | S _ => answering twoLinesAndBlanks k prompt
    end.


(** A three-row statement whose middle row has an empty description. *)
Definition statementColumns : Mapper.ColumnMapping :=
  {| Mapper.dateColumn := "Date";
     Mapper.descriptionColumn := "Description";
     Mapper.amountColumn := "Amount" |}.

Definition statementRow (date description amount : string) : Mapper.RawRow :=
  <["Date" := date]> (<["Description" := description]> (<["Amount" := amount]> ∅)).

Definition statementRows : list Mapper.RawRow :=
  [ statementRow "2024-03-15" "STARBUCKS #123" "-4.50";
    statementRow "2024-03-16" EmptyString "12.00";
    statementRow "2024-03-17" "Paycheck Deposit" "$2,500.00" ].

Definition statementOutput : list Mapper.MappedTransaction :=
  [ {| Mapper.id := "tx-0"; Mapper.date := "2024-03-15";
       Mapper.description := Some "STARBUCKS #123";
       Mapper.amount := Some (Fin (Qopp (Qmake 450 100)));
       Mapper.category := EmptyString |};
    {| Mapper.id := "tx-2"; Mapper.date := "2024-03-17";
       Mapper.description := Some "Paycheck Deposit";
       Mapper.amount := Some (Fin (Qmake 250000 100));
       Mapper.category := EmptyString |} ].

(** [a] may stand before [b] in a list sorted by total, descending. *)
Definition totalAtLeast (a b : Aggregator.CategoryStat) : Prop :=
  JsNumber.leb (Aggregator.total b) (Aggregator.total a) = true.

Definition totalIsNumber (a : Aggregator.CategoryStat) : Prop :=
  JsNumber.isNaN (Aggregator.total a) = false.

(** The position of the first transaction that falls in group [c]. *)
Fixpoint firstIndex (c : string) (transactions : list Tx.Transaction) : option nat :=
  match transactions with
  | [] => None
  | t :: rest =>
      if bool_decide (Aggregator.groupOf t = c) then Some 0
      else S <$> firstIndex c rest
  end.

Definition keysOf (stats : Aggregator.Stats) : list string := fst <$> stats.

Definition sumCounts (stats : Aggregator.Stats) : nat :=
  sum_list_with (λ kv, Aggregator.tallyCount (snd kv)) stats.

(** The claim of C9, part by part, on one transaction list. *)
Definition sortedByTotal (transactions : list Tx.Transaction) : Prop :=
  StronglySorted totalAtLeast (Aggregator.getCategoryStats transactions).

Definition tiesInFirstOccurrenceOrder (transactions : list Tx.Transaction) : Prop :=
  ∀ i j a b,
    Aggregator.getCategoryStats transactions !! i = Some a →
    Aggregator.getCategoryStats transactions !! j = Some b →
    i < j →
    JsNumber.strictEq (Aggregator.total a) (Aggregator.total b) = true →
    ∃ p q, firstIndex (Aggregator.category a) transactions = Some p
           ∧ firstIndex (Aggregator.category b) transactions = Some q
           ∧ p < q.

Definition countsAddUp (transactions : list Tx.Transaction) : Prop :=
  sum_list_with Aggregator.count (Aggregator.getCategoryStats transactions)
  = length transactions.

Definition categorized (category : string) (amount : number) : Tx.Transaction :=
  {| Tx.id := "tx-0"; Tx.date := "2024-03-15"; Tx.description := "card payment";
     Tx.amount := amount; Tx.category := category |}.

(** C9 as the claim states it, on one transaction list. *)
Definition categoryStatsClaim (transactions : list Tx.Transaction) : Prop :=
  sortedByTotal transactions
  ∧ tiesInFirstOccurrenceOrder transactions
  ∧ countsAddUp transactions.

(** Two categories named by digits, equal totals: [Object.entries] lists
    "1" before "2", and the stable sort keeps that order, although "2" is
    the category met first. *)
Definition digitNamed : list Tx.Transaction :=
  [categorized "2" (JsNumber.ofZ 5); categorized "1" (JsNumber.ofZ 5)].

(** An amount edited to NaN: the total of its category is NaN, every
    comparison with it is NaN, which [sort] reads as 0, and the list stays
    in entry order. *)
Definition nanAmount : list Tx.Transaction :=
  [categorized "Shopping" NaN; categorized "Income" (JsNumber.ofZ 50)].

(** A category named like a member of [Object.prototype]. *)
Definition inheritedName : list Tx.Transaction :=
  [categorized "constructor" (JsNumber.ofZ 5); categorized "Shopping" (JsNumber.ofZ 5)].

Definition monthOfSpending : list Tx.Transaction :=
  [ categorized "Travel" (JsNumber.ofZ 20);
    categorized "Income" (JsNumber.ofZ 2500);
    categorized "Groceries" (JsNumber.ofZ 20);
    categorized EmptyString (JsNumber.ofZ (-7)) ].

(** A statement with one charge and its refund. *)
Definition chargeAndRefund : list Tx.Transaction :=
  [ categorized "Shopping" (JsNumber.ofZ 100);
    categorized "Transfers" (JsNumber.ofZ (-100)) ].

(** What the mapper guarantees of a transaction. *)
Definition mapperInvariant (t : Tx.Transaction) : Prop :=
  Tx.description t ≠ EmptyString
  ∧ JsNumber.strictEq (Tx.amount t) JsNumber.zero = false.

(** The keywords of the rule table in which a keyword of an earlier
    category occurs, each with its category. *)
Definition shadowed (earlier : list (string * list string)) (keyword : string) : bool :=
  existsb (λ entry, Keywords.anyKeyword keyword (snd entry)) earlier.

Fixpoint shadowedFrom (earlier later : list (string * list string))
  : list (string * string) :=
  match later with
  | [] => []
  | (category, keywords) :: rest =>
      ((λ keyword, (category, keyword))
         <$> filter (λ keyword, shadowed earlier keyword = true) keywords)
      ++ shadowedFrom (earlier ++ [(category, keywords)]) rest
  end.

Definition shadowedKeywords : list (string * string) :=
  shadowedFrom [] Keywords.categories.

(** The characters the amount cleaning keeps, and a cell without a digit. *)
Definition isAmountChar (c : ascii) : bool :=
  JsParse.isDigit c || bool_decide (c = "."%char) || bool_decide (c = "-"%char).

Fixpoint digitFree (s : string) : bool :=
  match s with
  | EmptyString => true
  | String c s' => negb (JsParse.isDigit c) && digitFree s'
  end.

(** A row with the given date cell under the date column of
    [statementColumns]. *)
Definition datedRow (date : string) : Mapper.RawRow :=
  statementRow date "card payment" "12.00".

(** The transactions of group [c], in their order, and what the table
    should show for them. *)
Definition groupMembers (c : string) (transactions : list Tx.Transaction)
  : list Tx.Transaction :=
  filter (λ t, Aggregator.groupOf t = c) transactions.

Definition tallyOf (c : string) (transactions : list Tx.Transaction) : Aggregator.Tally :=
  {| Aggregator.tallyCount := length (groupMembers c transactions);
     Aggregator.tallyTotal := Aggregator.sumOfAmounts (groupMembers c transactions) |}.

(** Three rows of the table, with the identifiers the mapper gives. *)
Definition tableRow (id category : string) (amount : number) : Tx.Transaction :=
  {| Tx.id := id; Tx.date := "2024-03-15"; Tx.description := "card payment";
     Tx.amount := amount; Tx.category := category |}.

Definition threeRows : list Tx.Transaction :=
  [ tableRow "tx-0" "Shopping" (JsNumber.ofZ 30);
    tableRow "tx-1" EmptyString (JsNumber.ofZ (-12));
    tableRow "tx-2" "Income" (JsNumber.ofZ 2500) ].

(** An edit session on the row of [t]: the edit button, then the given
    changes of the form's fields; and what the changes make of [t]. *)
Definition editSession (t : Tx.Transaction) (changes : list Table.Change)
  : Table.EditState :=
  fold_left (λ state change, Table.handleInputChange change state) changes
    (Table.handleEdit t).

Definition applyChanges (changes : list Table.Change) (t : Tx.Transaction)
  : Tx.Transaction :=
  fold_left Table.assign changes t.

(** [header] is the first of the headers that the pattern matches; and
    what the detection of one field may end in: the first matching header,
    or, when no header matches, the selection as it was. *)
Definition firstMatching (regex : list string) (columns : list string)
    (header : string) : Prop :=
  ∃ i, columns !! i = Some header
       ∧ ColumnMapper.test regex header = true
       ∧ ∀ j h, j < i → columns !! j = Some h → ColumnMapper.test regex h = false.

Definition noneMatching (regex : list string) (columns : list string) : Prop :=
  ∀ h, h ∈ columns → ColumnMapper.test regex h = false.

Definition detects (regex : list string) (columns : list string)
    (current result : string) : Prop :=
  firstMatching regex columns result
  ∨ (noneMatching regex columns ∧ result = current).

(** The headers of a statement export. *)
Definition exportHeaders : list string :=
  ["Transaction Date"; "Description"; "Amount"].

(** A host whose [toLowerCase] and [trim] do on strings of ASCII characters
    what the ASCII instances do. *)
Definition isAsciiString (s : string) : bool :=
  forallb (λ c, (Ascii.N_of_ascii c <? 128)%N) (String.list_ascii_of_string s).

Definition asciiHost (toLowerCase trim : string → string) : Prop :=
  ∀ s, isAsciiString s = true →
       toLowerCase s = JsString.toLowerCaseAscii s ∧ trim s = JsString.trimAscii s.

(** The assistant's message for a user message: what the reply holds as
    content, a string or not, or the prepared answer when the request
    failed or the read of the content threw. *)
Definition answerTo (toLowerCase : string → string) (message : string)
    (reply : Chat.Reply) : Chat.Content :=
  match reply with
  | Chat.Response true (Chat.BodyContent content) => content
  | _ => Chat.Text (Chat.getFallbackResponse toLowerCase message)
  end.

(** What one send adds to the history: nothing for a blank message, else
    the user's message and the assistant's. *)
Definition exchange (toLowerCase trim : string → string)
    (event : string * Chat.Reply) : list Chat.Message :=
  if bool_decide (trim (fst event) = EmptyString) then []
  else [ {| Chat.role := Chat.User; Chat.content := Chat.Text (fst event) |};
         {| Chat.role := Chat.Assistant;
            Chat.content := answerTo toLowerCase (fst event) (snd event) |} ].

(** A conversation: the sends, one after the other, each with the reply
    the endpoint gives it. *)
Definition converse (toLowerCase trim : string → string)
    (events : list (string * Chat.Reply)) (state : Chat.State) : Chat.State :=
  fold_left
    (λ state event, Chat.handleSendMessage toLowerCase trim (fst event) (snd event) state)
    events state.

(** Calendar dates: the length of a month, the day before a date, and the
    ISO spelling [YYYY-MM-DD] of a date. *)
Definition daysInMonth (y m : Z) : Z :=
  if (m =? 2)%Z then (if JsDate.inLeapYear y then 29 else 28)%Z
  else if (m =? 4)%Z || (m =? 6)%Z || (m =? 9)%Z || (m =? 11)%Z then 30%Z
       else 31%Z.

Definition previousDate (y m d : Z) : Z * Z * Z :=
  if (d =? 1)%Z
  then (if (m =? 1)%Z then (y - 1, 12, 31) else (y, m - 1, daysInMonth y (m - 1)))%Z
  else (y, m, d - 1)%Z.

Definition isoDate (date : Z * Z * Z) : string :=
  let '(y, m, d) := date in
  JsDate.padded 4 y +:+ "-" +:+ JsDate.padded 2 m +:+ "-" +:+ JsDate.padded 2 d.

(** A date by its place in the year that starts with March: that year,
    the month counted from March, and the day counted from the first of
    March. *)
Definition marchYear (y m : Z) : Z := if (m <=? 2)%Z then (y - 1)%Z else y.
Definition marchMonth (m : Z) : Z := if (m <=? 2)%Z then (m + 9)%Z else (m - 3)%Z.
Definition dayOfMarchYear (m d : Z) : Z :=
  ((153 * marchMonth m + 2) / 5 + d - 1)%Z.

(** The prompts of the requests the adapter sends for a list, batch by
    batch; two transactions with the same description and the same
    magnitude of the amount; and two transactions that differ in their
    category at most. *)
Definition requests (toFixed2 : number → string)
    (transactions : list Adapter.Transaction) : list string :=
  (λ batch, Adapter.prompt (Adapter.transactionsText toFixed2 batch))
    <$> Adapter.makeBatches transactions.

Definition sameRequestData (t t' : Adapter.Transaction) : Prop :=
  Adapter.description t = Adapter.description t'
  ∧ JsNumber.abs (Adapter.amount t) = JsNumber.abs (Adapter.amount t').

Definition sameButCategory (t t' : Adapter.Transaction) : Prop :=
  ∃ c, t' = Adapter.withCategory t c.

(** Some transaction of the list has no description. *)
Definition lacksDescription (transactions : list Adapter.Transaction) : Prop :=
  ∃ t, t ∈ transactions ∧ Adapter.description t = None.

(** Some batch of the list lost its remote answer and holds a transaction
    without a description. *)
Definition fallbackFails (trim : string → string) (toFixed2 : number → string)
    (fetchChat : nat → string → Adapter.ChatReply)
    (transactions : list Adapter.Transaction) : Prop :=
  ∃ k batch,
    Adapter.makeBatches transactions !! k = Some batch
    ∧ Adapter.remoteFailed trim toFixed2 fetchChat k batch
    ∧ lacksDescription batch.

(** Every batch of the list lost its remote answer. *)
Definition remoteDown (trim : string → string) (toFixed2 : number → string)
    (fetchChat : nat → string → Adapter.ChatReply)
    (transactions : list Adapter.Transaction) : Prop :=
  ∀ k batch,
    Adapter.makeBatches transactions !! k = Some batch →
    Adapter.remoteFailed trim toFixed2 fetchChat k batch.

(** * Properties *)

(** ** Keyword classifier *)

Section KeywordFacts.
Import Keywords.

Lemma anyKeyword_true desc keywords :
  anyKeyword desc keywords = true ↔
  ∃ keyword, keyword ∈ keywords ∧ JsString.includes desc keyword = true.
Proof.
  induction keywords as [|k rest IH]; simpl.
  - split; [done | intros (? & []%elem_of_nil & _)].
  - destruct (JsString.includes desc k) eqn:Hk.
    + split; [intros _; exists k; split; [left | done] | done].
    + rewrite IH. split.
      * intros (k' & Hin & Hk'). exists k'. split; [by right | done].
      * intros (k' & Hin & Hk'). apply elem_of_cons in Hin as [-> | Hin].
        -- congruence.
        -- by exists k'.
Qed.

Lemma anyKeyword_false desc keywords :
  anyKeyword desc keywords = false ↔
  ∀ keyword, keyword ∈ keywords → JsString.includes desc keyword = false.
Proof.
  rewrite <- not_true_iff_false, anyKeyword_true. split.
  - intros Hno k Hin. apply not_true_iff_false. intros Hk. apply Hno. by exists k.
  - intros Hall (k & Hin & Hk). rewrite (Hall k Hin) in Hk. discriminate.
Qed.

(** The table scan stops at the least index whose keyword list hits. *)
Lemma firstMatch_least desc table i category keywords :
  table !! i = Some (category, keywords) →
  anyKeyword desc keywords = true →
  (∀ j c ks, j < i → table !! j = Some (c, ks) → anyKeyword desc ks = false) →
  firstMatch desc table = Some category.
Proof.
  revert i. induction table as [|[c ks] rest IH]; intros i Hi Hhit Hbefore.
  - by rewrite lookup_nil in Hi.
  - destruct i as [|i]; simpl in *.
    + injection Hi as -> ->. by rewrite Hhit.
    + rewrite (Hbefore 0 c ks) by (done || lia).
      apply (IH i); [done | done |].
      intros j c' ks' Hj Hl. apply (Hbefore (S j) c' ks'); [lia | done].
Qed.

Lemma firstMatch_Some desc table category :
  firstMatch desc table = Some category →
  ∃ keywords, (category, keywords) ∈ table ∧ anyKeyword desc keywords = true.
Proof.
  induction table as [|[c ks] rest IH]; simpl; [done |].
  destruct (anyKeyword desc ks) eqn:Hks.
  - intros [= ->]. exists ks. split; [left | done].
  - intros (ks' & Hin & Hhit)%IH. exists ks'. split; [by right | done].
Qed.

Lemma firstMatch_None desc table :
  firstMatch desc table = None ↔
  ∀ category keywords, (category, keywords) ∈ table → anyKeyword desc keywords = false.
Proof.
  induction table as [|[c ks] rest IH]; simpl.
  - split; [intros _ ? ? []%elem_of_nil | done].
  - destruct (anyKeyword desc ks) eqn:Hks.
    + split; [done |]. intros Hall. rewrite (Hall c ks) in Hks by left. discriminate.
    + rewrite IH. split.
      * intros Hall c' ks' [[= -> ->] | Hin]%elem_of_cons; [done | by apply (Hall c')].
      * intros Hall c' ks' Hin. apply (Hall c'). by right.
Qed.

(** A hit at index [i] makes the scan stop at [i] or before. *)
Lemma firstMatch_stops desc table i category keywords :
  table !! i = Some (category, keywords) →
  anyKeyword desc keywords = true →
  ∃ i' c' ks', i' ≤ i ∧ table !! i' = Some (c', ks') ∧ firstMatch desc table = Some c'.
Proof.
  revert i. induction table as [|[c ks] rest IH]; intros i Hi Hhit.
  - by rewrite lookup_nil in Hi.
  - simpl. destruct (anyKeyword desc ks) eqn:Hks.
    + exists 0, c, ks. split; [lia | done].
    + destruct i as [|i]; simpl in Hi.
      * injection Hi as -> ->. congruence.
      * destruct (IH i Hi Hhit) as (i' & c' & ks' & Hle & Hl & Hres).
        exists (S i'), c', ks'. split; [lia | done].
Qed.

End KeywordFacts.

(** C3: the sixteen names of the keyword table are, in the same order, the
    first sixteen of the seventeen categories the prompt enumerates, and the
    one name the prompt adds is "Miscellaneous". *)
Theorem vocabulary_in_sync :
  length Keywords.categories = 16
  ∧ length Adapter.promptVocabulary = 17
  ∧ keywordVocabulary = take 16 Adapter.promptVocabulary
  ∧ Adapter.promptVocabulary = keywordVocabulary ++ ["Miscellaneous"]
  ∧ "Miscellaneous" ∉ keywordVocabulary.
Proof.
  repeat split; try reflexivity.
  unfold keywordVocabulary. simpl. intros H.
  repeat (apply elem_of_cons in H as [H | H]; [discriminate H |]).
  by apply elem_of_nil in H.
Qed.

Lemma keyword_result_cases (toLowerCase : string → string) (description : string) :
  Keywords.categorizeWithKeywords toLowerCase description ∈ keywordResults.
Proof.
  unfold Keywords.categorizeWithKeywords, keywordResults, keywordVocabulary.
  destruct (Keywords.firstMatch _ _) as [c|] eqn:Hm.
  - apply firstMatch_Some in Hm as (ks & Hin & _).
    apply elem_of_app. left. apply list_elem_of_fmap. by exists (c, ks).
  - apply elem_of_app. right. left.
Qed.

Lemma keyword_result_nonempty (toLowerCase : string → string) (description : string) :
  Keywords.categorizeWithKeywords toLowerCase description ≠ EmptyString.
Proof.
  intros Hempty. pose proof (keyword_result_cases toLowerCase description) as Hin.
  rewrite Hempty in Hin. clear Hempty.
  unfold keywordResults, keywordVocabulary in Hin. simpl in Hin.
  repeat (apply elem_of_cons in Hin as [Hin | Hin]; [discriminate Hin |]).
  by apply elem_of_nil in Hin.
Qed.

(** C5: whatever the description, the classifier returns one name out of
    the sixteen of its table or "Uncategorized", never the empty string, and
    "Uncategorized" exactly when no keyword of the table occurs in the
    lower-cased description.  The classifier is a total function: on a
    string it has no throwing step. *)
Theorem keyword_result_in_vocabulary (toLowerCase : string → string) (description : string) :
  Keywords.categorizeWithKeywords toLowerCase description ∈ keywordResults
  ∧ Keywords.categorizeWithKeywords toLowerCase description ≠ EmptyString
  ∧ (Keywords.categorizeWithKeywords toLowerCase description = "Uncategorized" ↔
     ∀ category keywords keyword,
       (category, keywords) ∈ Keywords.categories → keyword ∈ keywords →
       JsString.includes (toLowerCase description) keyword = false).
Proof.
  split; [apply keyword_result_cases |]. split; [apply keyword_result_nonempty |].
  unfold Keywords.categorizeWithKeywords.
  destruct (Keywords.firstMatch _ _) as [c|] eqn:Hm.
  - split.
    + intros ->. apply firstMatch_Some in Hm as (ks & Hin' & _).
      exfalso. clear -Hin'. unfold Keywords.categories in Hin'.
      repeat (apply elem_of_cons in Hin' as [Hin' | Hin']; [discriminate Hin' |]).
      by apply elem_of_nil in Hin'.
    + intros Hnone. apply firstMatch_Some in Hm as (ks & Hin' & Hhit).
      apply anyKeyword_true in Hhit as (k & Hk & Hinc).
      rewrite (Hnone c ks k Hin' Hk) in Hinc. discriminate.
  - split; [| done]. intros _ c ks k Hc Hk.
    rewrite firstMatch_None in Hm. specialize (Hm c ks Hc).
    rewrite anyKeyword_false in Hm. by apply Hm.
Qed.

Lemma keyword_result_in_vocabulary_witness :
  Keywords.categorizeWithKeywords JsString.toLowerCaseAscii "random text xyz"
  = "Uncategorized".
Proof.
  apply (keyword_result_in_vocabulary JsString.toLowerCaseAscii "random text xyz").
  intros category keywords keyword Hc Hk.
  unfold Keywords.categories in Hc.
  repeat (apply elem_of_cons in Hc as [Hc | Hc];
          [ injection Hc as -> ->;
            repeat (apply elem_of_cons in Hk as [-> | Hk]; [reflexivity |]);
            by apply elem_of_nil in Hk | ]).
  by apply elem_of_nil in Hc.
Defined.

(** C4: when keywords of several categories occur in a description, the
    classifier returns the category that comes first in the table among those
    that match; a description in which "amazon" occurs is "Shopping" whatever
    else occurs in it. *)
Theorem first_table_match_wins (toLowerCase : string → string) (description : string) :
  (∀ i category keywords,
     Keywords.categories !! i = Some (category, keywords) →
     matchesCategory (toLowerCase description) keywords →
     (∀ j c ks, j < i → Keywords.categories !! j = Some (c, ks) →
                ¬ matchesCategory (toLowerCase description) ks) →
     Keywords.categorizeWithKeywords toLowerCase description = category)
  ∧ (∀ i j category keywords later laterKeywords,
       i < j →
       Keywords.categories !! i = Some (category, keywords) →
       Keywords.categories !! j = Some (later, laterKeywords) →
       matchesCategory (toLowerCase description) keywords →
       matchesCategory (toLowerCase description) laterKeywords →
       Keywords.categorizeWithKeywords toLowerCase description ≠ later)
  ∧ (JsString.includes (toLowerCase description) "amazon" = true →
     Keywords.categorizeWithKeywords toLowerCase description = "Shopping").
Proof.
  assert (Hfirst : ∀ i category keywords,
     Keywords.categories !! i = Some (category, keywords) →
     matchesCategory (toLowerCase description) keywords →
     (∀ j c ks, j < i → Keywords.categories !! j = Some (c, ks) →
                ¬ matchesCategory (toLowerCase description) ks) →
     Keywords.categorizeWithKeywords toLowerCase description = category).
  { intros i category keywords Hi Hhit Hbefore.
    unfold Keywords.categorizeWithKeywords.
    rewrite (firstMatch_least _ _ i category keywords); [done | done | |].
    - by apply anyKeyword_true.
    - intros j c ks Hj Hl. apply not_true_iff_false. intros Hks.
      apply (Hbefore j c ks Hj Hl). by apply anyKeyword_true. }
  split; [exact Hfirst |]. split.
  - intros i j category keywords later laterKeywords Hij Hi Hj Hhit Hlate Heq.
    (* the scan stops at some index no greater than [i] *)
    assert (Hstop : ∃ i' c' ks', i' ≤ i ∧ Keywords.categories !! i' = Some (c', ks')
              ∧ Keywords.categorizeWithKeywords toLowerCase description = c').
    { destruct (firstMatch_stops (toLowerCase description) Keywords.categories
                  i category keywords Hi) as (i' & c' & ks' & Hle & Hl' & Hres).
      { by apply anyKeyword_true. }
      exists i', c', ks'. split; [done |]. split; [done |].
      unfold Keywords.categorizeWithKeywords. by rewrite Hres. }
    destruct Hstop as (i' & c' & ks' & Hle & Hl' & Hres).
    rewrite Hres in Heq. subst c'.
    (* the table has no repeated name *)
    assert (Hnodup : NoDup keywordVocabulary).
    { apply (bool_decide_unpack _). vm_compute. exact I. }
    assert (Hi' : keywordVocabulary !! i' = Some later).
    { unfold keywordVocabulary. by rewrite list_lookup_fmap, Hl'. }
    assert (Hj' : keywordVocabulary !! j = Some later).
    { unfold keywordVocabulary. by rewrite list_lookup_fmap, Hj. }
    pose proof (NoDup_lookup _ _ _ _ Hnodup Hi' Hj'). lia.
  - intros Hamazon.
    apply (Hfirst 0 "Shopping"
             ["amazon"; "walmart"; "target"; "ebay"; "etsy"; "bestbuy"; "purchase"; "shop"]).
    + reflexivity.
    + exists "amazon". split; [left | done].
    + intros j c ks Hj. lia.
Qed.

Lemma first_table_match_wins_witness :
  Keywords.categorizeWithKeywords JsString.toLowerCaseAscii
    "AMAZON fresh grocery order" = "Shopping"
  ∧ Keywords.categorizeWithKeywords JsString.toLowerCaseAscii
      "AMAZON fresh grocery order" ≠ "Groceries".
Proof.
  pose proof (first_table_match_wins JsString.toLowerCaseAscii
                "AMAZON fresh grocery order") as (_ & Hlater & Hamazon).
  split.
  - apply Hamazon. reflexivity.
  - apply (Hlater 0 2 "Shopping"
             ["amazon"; "walmart"; "target"; "ebay"; "etsy"; "bestbuy"; "purchase"; "shop"]
             "Groceries"
             ["grocery"; "supermarket"; "market"; "trader"; "whole foods"; "safeway";
              "kroger"; "aldi"; "publix"; "food"]).
    + lia.
    + reflexivity.
    + reflexivity.
    + exists "amazon". split; [left | reflexivity].
    + exists "grocery". split; [left | reflexivity].
Defined.

(** ** Remote classifier adapter *)

Section BatchingFacts.
Import Adapter.
Context {A : Type}.
Implicit Types (xs : list A) (batches : list (list A)).

Lemma slice_batch i xs : slice i (i + batchSize) xs = take batchSize (drop i xs).
Proof. unfold slice. f_equal. lia. Qed.

(** With enough fuel the loop appends the rest of the list, cut every
    [batchSize] elements. *)
Lemma batchLoop_concat fuel i xs batches :
  length xs ≤ i + fuel →
  concat (batchLoop fuel i xs batches) = concat batches ++ drop i xs.
Proof.
  revert i batches. induction fuel as [|fuel IH]; intros i batches Hfuel; simpl.
  - rewrite drop_ge by lia. by rewrite app_nil_r.
  - case_bool_decide as Hi.
    + rewrite IH by (unfold batchSize; lia).
      rewrite concat_app, slice_batch. simpl. rewrite app_nil_r, <- app_assoc.
      f_equal. rewrite <- drop_drop. apply take_drop.
    + rewrite drop_ge by lia. by rewrite app_nil_r.
Qed.

Lemma batchLoop_lookup fuel i xs batches k :
  length xs ≤ i + fuel →
  batchLoop fuel i xs batches !! (length batches + k)
  = if decide (i + k * batchSize < length xs)
    then Some (take batchSize (drop (i + k * batchSize) xs)) else None.
Proof.
  revert i batches k. induction fuel as [|fuel IH]; intros i batches k Hfuel; simpl.
  - rewrite decide_False by lia. apply lookup_ge_None. lia.
  - case_bool_decide as Hi.
    + destruct k as [|k].
      * rewrite decide_True by lia.
        assert (Hpre : ∀ fuel' j bs, length batches < length bs →
                  batchLoop fuel' j xs bs !! length batches = bs !! length batches).
        { clear. induction fuel' as [|fuel' IH']; intros j bs Hlen; simpl; [done |].
          case_bool_decide; [| done].
          rewrite IH' by (rewrite length_app; lia). by rewrite lookup_app_l. }
        rewrite Nat.add_0_r, Hpre by (rewrite length_app; simpl; lia).
        rewrite lookup_app_r, Nat.sub_diag by lia. simpl.
        by rewrite slice_batch, Nat.add_0_r.
      * specialize (IH (i + batchSize) (batches ++ [slice i (i + batchSize) xs]) k).
        rewrite length_app in IH. simpl in IH.
        replace (length batches + S k) with (length batches + 1 + k) by lia.
        rewrite IH by (unfold batchSize; lia).
        replace (i + batchSize + k * batchSize) with (i + S k * batchSize) by lia.
        done.
    + rewrite decide_False by lia. apply lookup_ge_None. lia.
Qed.

Lemma makeBatches_concat xs : concat (makeBatches xs) = xs.
Proof. unfold makeBatches. by rewrite batchLoop_concat by lia. Qed.

Lemma makeBatches_lookup xs k batch :
  makeBatches xs !! k = Some batch ↔
  k * batchSize < length xs ∧ batch = take batchSize (drop (k * batchSize) xs).
Proof.
  unfold makeBatches.
  pose proof (batchLoop_lookup (length xs) 0 xs [] k) as H. simpl in H.
  rewrite H by lia. case_decide as Hk.
  - split; [by intros [= <-] | by intros [_ ->]].
  - split; [done | intros [? _]; lia].
Qed.

(** A position in the concatenation of batches that are full up to the
    [k]-th. *)
Lemma concat_lookup_full batches n k batch j :
  (∀ k' b, k' < k → batches !! k' = Some b → length b = n) →
  batches !! k = Some batch →
  j < length batch →
  concat batches !! (k * n + j) = batch !! j.
Proof.
  revert k. induction batches as [|b0 rest IH]; intros k Hfull Hk Hj.
  - by rewrite lookup_nil in Hk.
  - destruct k as [|k]; simpl in *.
    + injection Hk as ->. by rewrite lookup_app_l.
    + assert (length b0 = n) as Hb0 by (by apply (Hfull 0); [lia |]).
      rewrite lookup_app_r by lia.
      replace (n + k * n + j - length b0) with (k * n + j) by lia.
      apply IH; [| done | done].
      intros k' b Hk' Hb. apply (Hfull (S k')); [lia | done].
Qed.

End BatchingFacts.

Lemma Forall2_imap_lookup {A B} (R : A → B → Prop) (f : nat → A → B) (l : list A) :
  (∀ i x, l !! i = Some x → R x (f i x)) → Forall2 R l (imap f l).
Proof.
  intros H. apply Forall2_same_length_lookup_2; [by rewrite length_imap |].
  intros i x y Hx Hy. rewrite list_lookup_imap, Hx in Hy. injection Hy as <-. by apply H.
Qed.

Lemma Forall2_concat {A B} (R : A → B → Prop) (ls : list (list A)) (ks : list (list B)) :
  Forall2 (Forall2 R) ls ks → Forall2 R (concat ls) (concat ks).
Proof. induction 1; simpl; [constructor | by apply Forall2_app]. Qed.

(** The elements of the array that are objects. *)
Lemma members_objects (transactions : list Adapter.Transaction) :
  mapThrowing Adapter.members (Adapter.Object <$> transactions) = Returned transactions.
Proof.
  induction transactions as [|t transactions IH]; [done |].
  rewrite fmap_cons. simpl. by rewrite IH.
Qed.

Lemma makeBatches_fmap {A B} (f : A → B) (xs : list A) :
  Adapter.makeBatches (f <$> xs)
  = (λ batch : list A, f <$> batch) <$> Adapter.makeBatches xs.
Proof.
  apply list_eq. intros k. rewrite list_lookup_fmap.
  destruct (Adapter.makeBatches xs !! k) as [batch|] eqn:Hk; simpl.
  - apply makeBatches_lookup in Hk as [Hlt ->].
    apply makeBatches_lookup. rewrite length_fmap. split; [done |].
    by rewrite fmap_take, fmap_drop.
  - destruct (Adapter.makeBatches (f <$> xs) !! k) as [batch|] eqn:Hk'; [|done].
    apply makeBatches_lookup in Hk' as [Hlt _]. rewrite length_fmap in Hlt.
    assert (Hsome : Adapter.makeBatches xs !! k
                    = Some (take Adapter.batchSize (drop (k * Adapter.batchSize) xs)))
      by (by apply makeBatches_lookup).
    congruence.
Qed.

Lemma sameMembers_withCategory (t : Adapter.Transaction) (c : string) :
  sameMembers t (Adapter.withCategory t c).
Proof. by repeat split. Qed.

(** A transaction is fixed by its members and its category. *)
Lemma sameMembers_category (t t' : Adapter.Transaction) :
  sameMembers t t' → t' = Adapter.withCategory t (Adapter.category t').
Proof.
  destruct t, t'. unfold sameMembers, Adapter.withCategory. simpl.
  by intros (-> & -> & -> & ->).
Qed.

(** The lines of a reply: splitting the joined lines gives the lines
    back. *)
Lemma append_nil_l (s : string) : EmptyString +:+ s = s.
Proof. reflexivity. Qed.

Lemma append_cons (c : ascii) (s1 s2 : string) :
  String c s1 +:+ s2 = String c (s1 +:+ s2).
Proof. reflexivity. Qed.

Lemma split_line (line : string) :
  newlineFree line = true → JsString.split JsString.isNewline line = [line].
Proof.
  induction line as [|c line IH]; [done |]. simpl.
  intros [Hc Hline]%andb_true_iff. apply negb_true_iff in Hc.
  by rewrite Hc, IH.
Qed.

Lemma split_line_then (line rest : string) :
  newlineFree line = true →
  JsString.split JsString.isNewline (line +:+ Adapter.newlineString +:+ rest)
  = line :: JsString.split JsString.isNewline rest.
Proof.
  induction line as [|c line IH].
  - intros _. rewrite append_nil_l. unfold Adapter.newlineString.
    by rewrite append_cons, append_nil_l.
  - intros Hfree. simpl in Hfree.
    apply andb_true_iff in Hfree as [Hc Hline]. apply negb_true_iff in Hc.
    rewrite append_cons. simpl. by rewrite Hc, IH.
Qed.

Lemma split_replyOf (answer : list string) :
  answer ≠ [] → Forall (λ line, newlineFree line = true) answer →
  JsString.split JsString.isNewline (replyOf answer) = answer.
Proof.
  unfold replyOf. induction answer as [|line answer IH]; [done |].
  intros _ [Hline Hrest]%Forall_cons. destruct answer as [|next answer].
  - simpl. by apply split_line.
  - change (JsString.join ?sep (line :: next :: answer))
      with (line +:+ sep +:+ JsString.join sep (next :: answer)).
    rewrite split_line_then by done. f_equal. by apply IH.
Qed.

(** Every text is the text of a reply of lines: its pieces between the
    newlines. *)
Lemma split_nonempty (sep : ascii → bool) (s : string) : JsString.split sep s ≠ [].
Proof.
  destruct s as [|c s]; simpl; [done |].
  destruct (sep c); [done |]. by destruct (JsString.split sep s).
Qed.

Lemma split_newlineFree (s : string) :
  Forall (λ line, newlineFree line = true) (JsString.split JsString.isNewline s).
Proof.
  induction s as [|c s IH]; simpl; [by repeat constructor |].
  destruct (JsString.isNewline c) eqn:Hc; [by constructor |].
  destruct (JsString.split JsString.isNewline s) as [|piece pieces].
  - repeat constructor. simpl. by rewrite Hc.
  - apply Forall_cons in IH as [Hpiece Hpieces].
    constructor; [| done]. simpl. by rewrite Hc.
Qed.

Lemma replyOf_split (s : string) : replyOf (JsString.split JsString.isNewline s) = s.
Proof.
  unfold replyOf. induction s as [|c s IH]; [done |]. simpl.
  pose proof (split_nonempty JsString.isNewline s) as Hne.
  destruct (JsString.split JsString.isNewline s) as [|piece pieces]; [done |].
  destruct (JsString.isNewline c) eqn:Hc.
  - apply bool_decide_eq_true in Hc as ->.
    change (JsString.join ?sep (EmptyString :: piece :: pieces))
      with (EmptyString +:+ sep +:+ JsString.join sep (piece :: pieces)).
    by rewrite IH.
  - destruct pieces as [|next pieces].
    + simpl in *. by rewrite IH.
    + change (JsString.join ?sep (String c piece :: next :: pieces))
        with (String c (JsString.join sep (piece :: next :: pieces))).
      by rewrite IH.
Qed.

Lemma reply_has_lines (content : string) :
  ∃ answer,
    answer ≠ []
    ∧ Forall (λ line, newlineFree line = true) answer
    ∧ content = replyOf answer.
Proof.
  exists (JsString.split JsString.isNewline content).
  split; [apply split_nonempty |]. split; [apply split_newlineFree |].
  by rewrite replyOf_split.
Qed.

Section AdapterFacts.
Import Adapter.
Variable toLowerCase : string → string.
Variable trim : string → string.
Variable toFixed2 : number → string.
Variable fetchChat : nat → string → ChatReply.

Local Abbreviation keywordFallback := (keywordFallback toLowerCase).
Local Abbreviation responseCategories := (responseCategories trim).
Local Abbreviation tryStatement := (tryStatement toLowerCase trim toFixed2 fetchChat).
Local Abbreviation processBatchWithLLM :=
  (processBatchWithLLM toLowerCase trim toFixed2 fetchChat).
Local Abbreviation categorizeWithLLM :=
  (categorizeWithLLM toLowerCase trim toFixed2 fetchChat).
Local Abbreviation remoteFailed := (remoteFailed trim toFixed2 fetchChat).
Local Abbreviation keywordCategorized := (keywordCategorized toLowerCase).

(** A batch of objects reaches the [try] statement. *)
Lemma processBatch_objects k batch :
  processBatchWithLLM k (Object <$> batch) = tryStatement k batch.
Proof. unfold Adapter.processBatchWithLLM. by rewrite members_objects. Qed.

(** A [null] element rejects its batch, whatever the remote answers. *)
Lemma processBatch_null k (batch : list Element) :
  Null ∈ batch → processBatchWithLLM k batch = Thrown.
Proof.
  intros Hnull. unfold Adapter.processBatchWithLLM.
  assert (Hthrown : mapThrowing members batch = Thrown).
  { induction batch as [|e batch IH]; [by apply elem_of_nil in Hnull |].
    apply elem_of_cons in Hnull as [<- | Hnull]; [done |].
    simpl. rewrite (IH Hnull). by destruct (members e). }
  by rewrite Hthrown.
Qed.

Lemma categorizeWithLLM_objects transactions :
  categorizeWithLLM (Object <$> transactions)
  = (categorizedBatches ←
       mapThrowing (λ r, r) (imap tryStatement (makeBatches transactions));
     Returned (concat categorizedBatches)).
Proof.
  unfold Adapter.categorizeWithLLM. rewrite makeBatches_fmap, imap_fmap.
  f_equal. f_equal. apply imap_ext. intros k batch _. apply processBatch_objects.
Qed.

Lemma keywordCategorized_categorizedAs t t' :
  keywordCategorized t t' → categorizedAs t t'.
Proof.
  intros (Hsame & d & _ & Hcategory). split; [done |].
  rewrite Hcategory. apply keyword_result_nonempty.
Qed.

(** The fallback returns on a batch whose descriptions are strings. *)
Lemma keywordFallback_returns batch :
  Forall hasDescription batch →
  ∃ out, keywordFallback batch = Returned out ∧ Forall2 keywordCategorized batch out.
Proof.
  induction batch as [|t batch IH]; intros Hall.
  - exists []. split; [done | constructor].
  - apply Forall_cons in Hall as [[d Hd] Hall].
    destruct (IH Hall) as (out & Hout & Hrel).
    exists (withCategory t (Keywords.categorizeWithKeywords toLowerCase d) :: out).
    split.
    + unfold Adapter.keywordFallback in *. simpl. rewrite Hd. simpl. by rewrite Hout.
    + constructor; [| done]. split; [apply sameMembers_withCategory | by exists d].
Qed.

(** Without a description the fallback throws. *)
Lemma keywordFallback_throws batch t :
  t ∈ batch → description t = None → keywordFallback batch = Thrown.
Proof.
  intros Hin Hnone. induction batch as [|t' batch IH]; [by apply elem_of_nil in Hin |].
  unfold Adapter.keywordFallback in *. simpl.
  apply elem_of_cons in Hin as [<- | Hin].
  - by rewrite Hnone.
  - rewrite (IH Hin). by destruct (categorize _ _).
Qed.

(** Every line kept from the response is non-empty after the trim. *)
Lemma responseCategories_nonempty message line :
  line ∈ responseCategories message → line ≠ EmptyString.
Proof.
  unfold Adapter.responseCategories.
  intros (raw & -> & Hraw)%list_elem_of_fmap.
  by apply list_elem_of_filter in Hraw as [Hne _].
Qed.

(** The lines kept from a reply are its lines that are not blank,
    trimmed. *)
Lemma responseCategories_replyOf answer :
  answer ≠ [] → Forall (λ line, newlineFree line = true) answer →
  responseCategories (replyOf answer) = nonBlankLines trim answer.
Proof.
  intros Hne Hlines. unfold Adapter.responseCategories, nonBlankLines.
  by rewrite split_replyOf.
Qed.

Lemma categoryAt_line categories index line :
  categories !! index = Some line → line ≠ EmptyString →
  categoryAt categories index = line.
Proof.
  intros Hl Hne. unfold categoryAt, JsString.orElse. rewrite Hl.
  by rewrite bool_decide_eq_false_2.
Qed.

Lemma processBatch_failed k batch :
  remoteFailed k batch → tryStatement k batch = keywordFallback batch.
Proof.
  unfold Adapter.remoteFailed, Adapter.tryStatement, tryBatch, assistantMessage.
  destruct (fetchChat k _) as [|ok body]; [done |].
  destruct ok; simpl.
  - intros [Hok | Hbody]; [discriminate |].
    destruct body as [| |content]; simpl; try done.
    rewrite bool_decide_eq_true_2 by done.
    by destruct (Adapter.keywordFallback _ batch).
  - done.
Qed.

Lemma processBatch_answered k batch content :
  fetchChat k (prompt (transactionsText toFixed2 batch)) = Response true (BodyContent content) →
  length (responseCategories content) = length batch →
  tryStatement k batch
  = Returned (imap (λ index transaction,
                      withCategory transaction
                        (categoryAt (responseCategories content) index))
                   batch).
Proof.
  intros Hreply Hlen.
  unfold Adapter.tryStatement, tryBatch, assistantMessage. rewrite Hreply. simpl.
  by rewrite bool_decide_eq_false_2 by (intros Hne; by apply Hne).
Qed.

(** A batch answered with one line for each transaction: every
    transaction comes back with the line of its position. *)
Lemma processBatch_lines k batch answer :
  answer ≠ [] → Forall (λ line, newlineFree line = true) answer →
  fetchChat k (prompt (transactionsText toFixed2 batch))
    = Response true (BodyContent (replyOf answer)) →
  length (nonBlankLines trim answer) = length batch →
  ∃ categorized,
    tryStatement k batch = Returned categorized
    ∧ length categorized = length batch
    ∧ ∀ i t,
        batch !! i = Some t →
        ∃ line t',
          nonBlankLines trim answer !! i = Some line
          ∧ line ≠ EmptyString
          ∧ categorized !! i = Some t'
          ∧ sameMembers t t'
          ∧ category t' = line.
Proof.
  intros Hne Hlines Hreply Hlen.
  pose proof (responseCategories_replyOf answer Hne Hlines) as Hkept.
  rewrite <- Hkept in Hlen.
  rewrite (processBatch_answered k batch _ Hreply Hlen).
  eexists. split; [done |]. split; [apply length_imap |].
  intros i t Hi.
  assert (Hlt : i < length (responseCategories (replyOf answer))).
  { rewrite Hlen. by eapply lookup_lt_Some. }
  apply lookup_lt_is_Some_2 in Hlt as [line Hline].
  assert (Hfull : line ≠ EmptyString).
  { eapply responseCategories_nonempty, list_elem_of_lookup_2, Hline. }
  exists line, (withCategory t line).
  split; [by rewrite <- Hkept |]. split; [done |].
  rewrite list_lookup_imap, Hi. simpl.
  rewrite (categoryAt_line _ _ _ Hline Hfull).
  split; [done |]. split; [apply sameMembers_withCategory | done].
Qed.

(** A batch whose descriptions are strings always comes back: complete,
    in order, with categories. *)
Lemma processBatch_returns k batch :
  Forall hasDescription batch →
  ∃ out, tryStatement k batch = Returned out ∧ Forall2 categorizedAs batch out.
Proof.
  intros Hall.
  destruct (keywordFallback_returns batch Hall) as (fallback & Hfallback & Hrel).
  assert (Hfb : Forall2 categorizedAs batch fallback).
  { eapply Forall2_impl; [exact Hrel |]. apply keywordCategorized_categorizedAs. }
  unfold Adapter.tryStatement, tryBatch, assistantMessage.
  destruct (fetchChat k _) as [|[] [| |content]]; simpl; rewrite ?Hfallback;
    try (by exists fallback).
  case_bool_decide as Hlen; simpl; rewrite ?Hfallback; [by exists fallback |].
  eexists. split; [done |].
  apply Forall2_imap_lookup. intros i t Hi.
  assert (Hlt : i < length (responseCategories content)).
  { rewrite Hlen. by eapply lookup_lt_Some. }
  apply lookup_lt_is_Some_2 in Hlt as [line Hline].
  assert (Hfull : line ≠ EmptyString).
  { eapply responseCategories_nonempty, list_elem_of_lookup_2, Hline. }
  split; [apply sameMembers_withCategory |]. simpl.
  by rewrite (categoryAt_line _ _ _ Hline Hfull).
Qed.

End AdapterFacts.

(** C1: on a list of transactions whose descriptions are strings (empty or
    not) the adapter returns, whatever the remote does: the result has the
    length of the input and holds, position by position, a transaction with
    the identifier, date, description and amount of the input's and a
    category that is not empty; and a batch whose remote call failed (a
    throw, a non-success status, or a line count that differs from the
    batch's) holds for each of its transactions, as the category, the keyword
    classifier's category of that transaction's description. *)
Theorem adapter_returns_aligned_list
    (toLowerCase trim : string → string) (toFixed2 : number → string)
    (fetchChat : nat → string → Adapter.ChatReply)
    (transactions : list Adapter.Transaction) :
  Forall hasDescription transactions →
  ∃ categorized,
    Adapter.categorizeWithLLM toLowerCase trim toFixed2 fetchChat
      (Adapter.Object <$> transactions)
      = Returned categorized
    ∧ length categorized = length transactions
    ∧ Forall2 categorizedAs transactions categorized
    ∧ (∀ k batch j t d,
         Adapter.makeBatches transactions !! k = Some batch →
         Adapter.remoteFailed trim toFixed2 fetchChat k batch →
         batch !! j = Some t →
         Adapter.description t = Some d →
         transactions !! (k * Adapter.batchSize + j) = Some t
         ∧ ∃ t',
             categorized !! (k * Adapter.batchSize + j) = Some t'
             ∧ sameMembers t t'
             ∧ Adapter.category t' = Keywords.categorizeWithKeywords toLowerCase d).
Proof.
  intros Hall.
  set (process := Adapter.tryStatement toLowerCase trim toFixed2 fetchChat).
  set (batches := Adapter.makeBatches transactions).
  assert (Hbatch : ∀ k batch, batches !! k = Some batch → Forall hasDescription batch).
  { intros k batch [_ ->]%makeBatches_lookup.
    apply Forall_take, Forall_drop, Hall. }
  (* every batch returns, so [Promise.all] does *)
  assert (Hresults : ∃ results,
            mapThrowing (λ r, r) (imap process batches) = Returned results
            ∧ Forall2 (λ batch out, Forall2 categorizedAs batch out) batches results
            ∧ ∀ k batch, batches !! k = Some batch →
                ∃ out, results !! k = Some out ∧ process k batch = Returned out).
  { clearbody batches. subst process. clear Hall.
    generalize (Adapter.tryStatement toLowerCase trim toFixed2 fetchChat)
      (processBatch_returns toLowerCase trim toFixed2 fetchChat).
    intros process Hprocess. revert process Hprocess.
    induction batches as [|batch batches IH]; intros process Hprocess.
    - exists []. split; [done |]. split; [constructor |].
      intros k batch. by rewrite lookup_nil.
    - destruct (Hprocess 0 batch (Hbatch 0 batch eq_refl)) as (out & Hout & Hrel).
      destruct (IH (λ k b, Hbatch (S k) b) (λ k, process (S k)) (λ k, Hprocess (S k)))
        as (results & Hres & Hrels & Hlook).
      exists (out :: results). split; [| split].
      + simpl. rewrite Hout. simpl. unfold compose. by rewrite Hres.
      + by constructor.
      + intros [|k] b Hb; simpl in *.
        * injection Hb as <-. by exists out.
        * by apply Hlook. }
  destruct Hresults as (results & Hres & Hrels & Hlook).
  exists (concat results).
  assert (Haligned : Forall2 categorizedAs transactions (concat results)).
  { rewrite <- (makeBatches_concat transactions). by apply Forall2_concat. }
  split; [| split; [| split]].
  - rewrite categorizeWithLLM_objects. fold batches. fold process. by rewrite Hres.
  - symmetry. by eapply Forall2_length.
  - done.
  - intros k batch j t d Hk Hfailed Hj Hd.
    pose proof Hk as [Hlt Hbatcheq]%makeBatches_lookup.
    assert (Hjlt : j < Adapter.batchSize).
    { apply lookup_lt_Some in Hj. rewrite Hbatcheq, length_take in Hj. lia. }
    split.
    { rewrite Hbatcheq in Hj. by rewrite lookup_take_lt, lookup_drop in Hj. }
    destruct (Hlook k batch Hk) as (out & Hout & Hprocess).
    assert (Hlen : ∀ k' b out', batches !! k' = Some b → results !! k' = Some out' →
                     length out' = length b).
    { intros k' b out' Hb Hout'. symmetry. eapply Forall2_length.
      eapply Forall2_lookup_lr; [exact Hrels | exact Hb | exact Hout']. }
    rewrite (concat_lookup_full _ Adapter.batchSize k out).
    + unfold process in Hprocess. rewrite processBatch_failed in Hprocess by done.
      destruct (keywordFallback_returns toLowerCase batch (Hbatch k batch Hk))
        as (out' & Hout' & Hrel).
      rewrite Hout' in Hprocess. injection Hprocess as ->.
      destruct (Forall2_lookup_l _ _ _ _ _ Hrel Hj)
        as (t' & Ht' & Hsame & d' & Hd' & Hcategory).
      exists t'. split; [done |]. split; [done |]. congruence.
    + intros k' out' Hk' Hout'.
      destruct (batches !! k') as [b|] eqn:Hb.
      * rewrite (Hlen k' b out' Hb Hout').
        apply makeBatches_lookup in Hb as [_ ->].
        rewrite length_take, length_drop. unfold Adapter.batchSize in *. lia.
      * apply lookup_ge_None in Hb. apply lookup_lt_Some in Hout'.
        apply Forall2_length in Hrels. lia.
    + done.
    + rewrite (Hlen k batch out Hk Hout). by eapply lookup_lt_Some.
Qed.

Lemma adapter_returns_aligned_list_witness :
  ∃ categorized t',
    Adapter.categorizeWithLLM JsString.toLowerCaseAscii JsString.trimAscii
      (λ _, "0.00") oneAnswerShort (Adapter.Object <$> twelve)
      = Returned categorized
    ∧ length categorized = 12
    ∧ categorized !! 11 = Some t'
    ∧ Adapter.id t' = "tx-1"
    ∧ Adapter.category t' = "Income".
Proof.
  destruct (adapter_returns_aligned_list JsString.toLowerCaseAscii JsString.trimAscii
              (λ _, "0.00") oneAnswerShort twelve)
    as (categorized & Hreturned & Hlength & _ & Hfallback).
  { repeat constructor; by eexists. }
  assert (Hfailed : Adapter.remoteFailed JsString.trimAscii (λ _, "0.00")
                      oneAnswerShort 1 [uberTrip; paycheck]).
  { right. vm_compute. discriminate. }
  destruct (Hfallback 1 [uberTrip; paycheck] 1 paycheck "Paycheck Deposit"
              eq_refl Hfailed eq_refl eq_refl)
    as (_ & t' & Hout & (Hid & _) & Hcategory).
  exists categorized, t'. split; [exact Hreturned |]. split; [exact Hlength |].
  split; [exact Hout |]. split; [exact Hid | exact Hcategory].
Defined.

(** The premise of C1 is needed: when the remote call fails on a batch with
    a transaction that has no description, the fallback throws in the [catch]
    block and the adapter rejects. *)
Lemma adapter_throws_without_description :
  Adapter.categorizeWithLLM JsString.toLowerCaseAscii JsString.trimAscii
    (λ _, "0.00") (λ _ _, Adapter.FetchRejected)
    (Adapter.Object <$> [uberTrip; noDescription])
  = Thrown.
Proof. reflexivity. Qed.




(** What the code does on the two replies: keyword categories for the
    whole batch, and the two lines that are not blank. *)
Lemma blank_line_replies :
  categoriesOf
    (Adapter.processBatchWithLLM JsString.toLowerCaseAscii JsString.trimAscii
       (λ _, "0.00") (answering threeLinesOneBlank) 0
       (Adapter.Object <$> [uberTrip; netflix; paycheck]))
  = Returned ["Transportation"; "Entertainment"; "Income"]
  ∧ categoriesOf
      (Adapter.processBatchWithLLM JsString.toLowerCaseAscii JsString.trimAscii
         (λ _, "0.00") (answering twoLinesAndBlanks) 0
         (Adapter.Object <$> [uberTrip; paycheck]))
    = Returned ["Travel"; "Transfers"].
Proof. split; reflexivity. Qed.

(** ** Column mapper *)

Section MapperFacts.
Import Mapper.
Variable localTZA : Z → Z.
Variable dateParse : string → option Z.
Variable mapping : ColumnMapping.

Local Abbreviation mapRow := (mapRow localTZA dateParse mapping).
Local Abbreviation mapRows := (mapRows localTZA dateParse mapping).
Local Abbreviation processDataWithMapping :=
  (processDataWithMapping localTZA dateParse mapping).

(** What the callback copies out of the row. *)
Lemma mapRow_fields index row tx :
  mapRow index row = Returned tx →
  id tx = "tx-" +:+ pretty index
  ∧ description tx = row !! descriptionColumn mapping
  ∧ amount tx = amountOf (row !! amountColumn mapping)
  ∧ category tx = EmptyString.
Proof.
  unfold Mapper.mapRow. destruct (formatDate _ _ _) as [d|]; simpl; [| done].
  by intros [= <-].
Qed.

Lemma mapRows_cons index row rows txs :
  mapRows index (row :: rows) = Returned txs →
  ∃ tx txs', txs = tx :: txs' ∧ mapRow index row = Returned tx
             ∧ mapRows (S index) rows = Returned txs'.
Proof.
  simpl. destruct (Mapper.mapRow _ _ _ index row) as [tx|]; simpl; [| done].
  destruct (Mapper.mapRows _ _ _ (S index) rows) as [txs'|]; simpl; [| done].
  intros [= <-]. by exists tx, txs'.
Qed.

Lemma mapRows_length index rows txs :
  mapRows index rows = Returned txs → length txs = length rows.
Proof.
  revert index txs. induction rows as [|row rows IH]; intros index txs.
  - by intros [= <-].
  - intros (tx & txs' & -> & _ & Hrest)%mapRows_cons. simpl. f_equal. by eapply IH.
Qed.

Lemma mapRows_lookup index rows txs i tx :
  mapRows index rows = Returned txs →
  txs !! i = Some tx →
  ∃ row, rows !! i = Some row ∧ mapRow (index + i) row = Returned tx.
Proof.
  revert index txs i. induction rows as [|row rows IH]; intros index txs i.
  - intros [= <-]. by rewrite lookup_nil.
  - intros (tx0 & txs' & -> & Hrow & Hrest)%mapRows_cons Hi.
    destruct i as [|i]; simpl in Hi.
    + injection Hi as ->. exists row. by rewrite Nat.add_0_r.
    + destruct (IH _ _ _ Hrest Hi) as (row' & Hrow' & Hmap).
      exists row'. split; [done |]. by replace (index + S i) with (S index + i) by lia.
Qed.

(** The map returns as soon as no date cell makes [formatDate] throw. *)
Lemma mapRows_returns index rows :
  Forall (λ row, formatDate localTZA dateParse (row !! dateColumn mapping) ≠ Thrown) rows →
  ∃ txs, mapRows index rows = Returned txs.
Proof.
  revert index. induction rows as [|row rows IH]; intros index Hall.
  - by exists [].
  - apply Forall_cons in Hall as [Hrow Hrest].
    destruct (IH (S index) Hrest) as [txs Htxs]. simpl. rewrite Htxs.
    unfold Mapper.mapRow.
    destruct (formatDate _ _ _) as [d|]; [| done]. simpl. by eexists.
Qed.

(** The rows that survive the filter, by their positions in the input. *)
Lemma mapRows_filter before rows txs :
  mapRows (length before) rows = Returned txs →
  ∃ kept : list nat,
    StronglySorted lt kept
    ∧ Forall (λ i, length before ≤ i) kept
    ∧ Forall2 (λ i tx, ∃ row, (before ++ rows) !! i = Some row
                              ∧ mapRow i row = Returned tx)
        kept (filter (λ tx, keep tx = true) txs).
Proof.
  revert before txs. induction rows as [|row rows IH]; intros before txs.
  - intros [= <-]. exists []. repeat split; constructor.
  - intros (tx & txs' & -> & Hrow & Hrest)%mapRows_cons.
    destruct (IH (before ++ [row]) txs') as (kept & Hsorted & Hge & Hrel).
    { rewrite length_app. simpl. by rewrite Nat.add_1_r. }
    rewrite length_app in Hge. simpl in Hge. rewrite <- app_assoc in Hrel. simpl in Hrel.
    rewrite filter_cons. destruct (decide (keep tx = true)) as [Hkeep | Hdrop].
    + exists (length before :: kept). split; [| split].
      * constructor; [done |]. eapply Forall_impl; [exact Hge |]. simpl. lia.
      * constructor; [lia |]. eapply Forall_impl; [exact Hge |]. simpl. lia.
      * constructor; [| done]. exists row. split; [| done].
        by rewrite lookup_app_r, Nat.sub_diag by lia.
    + exists kept. split; [done |]. split; [| done].
      eapply Forall_impl; [exact Hge |]. simpl. lia.
Qed.

Lemma processDataWithMapping_returns rows :
  Forall (λ row, formatDate localTZA dateParse (row !! dateColumn mapping) ≠ Thrown) rows →
  ∃ out, processDataWithMapping rows = Returned out.
Proof.
  intros Hall. destruct (mapRows_returns 0 rows Hall) as [txs Htxs].
  unfold Mapper.processDataWithMapping. rewrite Htxs. simpl. by eexists.
Qed.

Lemma keep_description tx :
  keep tx = true → ∃ d, description tx = Some d ∧ 0 < String.length d.
Proof.
  unfold keep, isTruthy. intros [Hd _]%andb_true_iff.
  destruct (description tx) as [d|]; [| done]. exists d. split; [done |].
  destruct d; [done | simpl; lia].
Qed.

Lemma keep_amount tx q :
  keep tx = true → amount tx = Some (Fin q) → ¬ (q == 0)%Q.
Proof.
  unfold keep, amountNotZero. intros [_ Ha]%andb_true_iff Hq. rewrite Hq in Ha.
  simpl in Ha. apply negb_true_iff in Ha. intros Hz.
  apply Qeq_bool_iff in Hz. congruence.
Qed.

End MapperFacts.

(** C6: whenever the mapper returns, every transaction it outputs has a
    description of positive length and an amount that is not the number
    zero, the output is no longer than the input, and a row whose
    description is absent or empty, or whose parsed amount is zero, has no
    transaction in the output. *)
Theorem mapper_output_invariant
    (localTZA : Z → Z) (dateParse : string → option Z)
    (mapping : Mapper.ColumnMapping) (rows : list Mapper.RawRow)
    (out : list Mapper.MappedTransaction) :
  Mapper.processDataWithMapping localTZA dateParse mapping rows = Returned out →
  (∀ tx, tx ∈ out →
     (∃ d, Mapper.description tx = Some d ∧ 0 < String.length d)
     ∧ (∀ q, Mapper.amount tx = Some (Fin q) → ¬ (q == 0)%Q))
  ∧ length out ≤ length rows
  ∧ (∀ i row,
       rows !! i = Some row →
       row !! Mapper.descriptionColumn mapping = None
       ∨ row !! Mapper.descriptionColumn mapping = Some EmptyString
       ∨ (∃ q, Mapper.amountOf (row !! Mapper.amountColumn mapping) = Some (Fin q)
               ∧ (q == 0)%Q) →
       ∀ tx, tx ∈ out → Mapper.id tx ≠ "tx-" +:+ pretty i).
Proof.
  unfold Mapper.processDataWithMapping.
  destruct (Mapper.mapRows _ _ _ 0 rows) as [txs|] eqn:Htxs; simpl; [| done].
  intros [= <-]. split; [| split].
  - intros tx [Hkeep _]%list_elem_of_filter. split.
    + by apply keep_description.
    + intros q. by apply keep_amount.
  - rewrite <- (mapRows_length _ _ _ _ _ _ Htxs). apply length_filter.
  - intros i row Hrow Hbad tx [Hkeep Hin]%list_elem_of_filter Hid.
    apply list_elem_of_lookup_1 in Hin as [j Hj].
    destruct (mapRows_lookup _ _ _ _ _ _ _ _ Htxs Hj) as (row' & Hrow' & Hmap).
    apply mapRow_fields in Hmap as (Hid' & Hdesc & Hamount & _).
    rewrite Hid' in Hid. simpl in Hid.
    apply (inj (String.app "tx-")), (inj pretty) in Hid. subst j.
    rewrite Hrow in Hrow'. injection Hrow' as <-.
    destruct Hbad as [Hnone | [Hempty | (q & Hq & Hzero)]].
    + apply keep_description in Hkeep as (d & Hd & _). congruence.
    + apply keep_description in Hkeep as (d & Hd & Hlen).
      rewrite Hdesc, Hempty in Hd. injection Hd as <-. simpl in Hlen. lia.
    + apply (keep_amount tx q Hkeep); [congruence | done].
Qed.

Lemma statementRows_mapped (localTZA : Z → Z) (dateParse : string → option Z) :
  Mapper.processDataWithMapping localTZA dateParse statementColumns statementRows
  = Returned statementOutput.
Proof. vm_compute. reflexivity. Qed.

Lemma mapper_output_invariant_witness :
  length statementOutput ≤ length statementRows
  ∧ ∀ tx, tx ∈ statementOutput → Mapper.id tx ≠ "tx-" +:+ pretty 1.
Proof.
  destruct (mapper_output_invariant (λ _, 0%Z) (λ _, None) statementColumns
              statementRows statementOutput (statementRows_mapped _ _))
    as (_ & Hlen & Hdropped).
  split; [exact Hlen |].
  apply (Hdropped 1 (statementRow "2024-03-16" EmptyString "12.00") eq_refl).
  right. left. reflexivity.
Defined.

(** C7: the transactions the mapper outputs are the mapped rows at a
    strictly increasing list of positions of the input, and each carries the
    id "tx-" followed by the position of its row in the input; the ids are
    those positions, not the positions in the output, so they skip the
    dropped rows (three rows with the middle one dropped give tx-0 and
    tx-2). *)
Theorem ids_are_input_positions
    (localTZA : Z → Z) (dateParse : string → option Z) :
  (∀ mapping rows out,
     Mapper.processDataWithMapping localTZA dateParse mapping rows = Returned out →
     ∃ kept : list nat,
       StronglySorted lt kept
       ∧ Forall2 (λ i tx,
                    (∃ row, rows !! i = Some row
                            ∧ Mapper.mapRow localTZA dateParse mapping i row = Returned tx)
                    ∧ Mapper.id tx = "tx-" +:+ pretty i)
           kept out)
  ∧ (∃ mapping rows out,
       Mapper.processDataWithMapping localTZA dateParse mapping rows = Returned out
       ∧ length rows = 3
       ∧ Mapper.id <$> out = ["tx-0"; "tx-2"]).
Proof.
  split.
  - intros mapping rows out. unfold Mapper.processDataWithMapping.
    destruct (Mapper.mapRows _ _ _ 0 rows) as [txs|] eqn:Htxs; simpl; [| done].
    intros [= <-].
    destruct (mapRows_filter localTZA dateParse mapping [] rows txs Htxs)
      as (kept & Hsorted & _ & Hrel).
    exists kept. split; [done |].
    eapply Forall2_impl; [exact Hrel |]. simpl.
    intros i tx (row & Hrow & Hmap). split; [by exists row |].
    by apply mapRow_fields in Hmap as (Hid & _).
  - exists statementColumns, statementRows, statementOutput.
    split; [apply statementRows_mapped | done].
Qed.

Lemma ids_are_input_positions_witness :
  ∃ kept : list nat,
    StronglySorted lt kept
    ∧ Forall2 (λ i tx,
                 (∃ row, statementRows !! i = Some row
                         ∧ Mapper.mapRow (λ _, 0%Z) (λ _, None) statementColumns i row
                           = Returned tx)
                 ∧ Mapper.id tx = "tx-" +:+ pretty i)
        kept statementOutput.
Proof.
  destruct (ids_are_input_positions (λ _, 0%Z) (λ _, None)) as [Hids _].
  exact (Hids statementColumns statementRows statementOutput (statementRows_mapped _ _)).
Defined.

(** The century rule of the slash form. *)
Lemma addCentury_rule (year : Z) :
  (0 ≤ year < 50 → Mapper.addCentury year = year + 2000)%Z
  ∧ (50 ≤ year < 100 → Mapper.addCentury year = year + 1900)%Z
  ∧ (100 ≤ year → Mapper.addCentury year = year)%Z.
Proof.
  unfold Mapper.addCentury. repeat split; intros H.
  - rewrite !(proj2 (Z.ltb_lt _ _)) by lia. done.
  - rewrite (proj2 (Z.ltb_lt year 100)), (proj2 (Z.ltb_ge year 50)) by lia. done.
  - by rewrite (proj2 (Z.ltb_ge year 100)) by lia.
Qed.

(** C8 on the code: for the slash form the result depends on the host's
    time zone.  "03/15/2024" reads as month 3, day 15, year 2024, and two-digit
    years get their century ("24" gives 2024, "99" gives 1999); the date is
    built as local midnight and printed in UTC, so a host at or behind UTC
    gives "2024-03-15" while a host one hour ahead of UTC gives "2024-03-14".
    Three parts without digits make [toISOString] throw. *)
Theorem formatDate_slash_form (dateParse : string → option Z) :
  Mapper.formatDate (λ _, 0%Z) dateParse (Some "03/15/2024") = Returned "2024-03-15"
  ∧ Mapper.formatDate (λ _, (-18000000)%Z) dateParse (Some "03/15/2024")
    = Returned "2024-03-15"
  ∧ Mapper.formatDate (λ _, 0%Z) dateParse (Some "03/15/24") = Returned "2024-03-15"
  ∧ Mapper.formatDate (λ _, 0%Z) dateParse (Some "03/15/99") = Returned "1999-03-15"
  ∧ Mapper.formatDate (λ _, 3600000%Z) dateParse (Some "03/15/2024")
    = Returned "2024-03-14"
  ∧ (∀ localTZA, Mapper.formatDate localTZA dateParse (Some "a/b/c") = Thrown).
Proof. repeat split. Qed.

(** ** Numbers *)

Section NumberFacts.
Import JsNumber.
Implicit Types a b c : number.

Lemma leb_trans a b c : leb a b = true → leb b c = true → leb a c = true.
Proof.
  destruct a as [|[]|p], b as [|[]|q], c as [|[]|r]; simpl; try done.
  rewrite !Qle_bool_iff. intros. lra.
Qed.

(** The comparator [y - x] is positive exactly when [x] is below [y]. *)
Lemma sub_not_positive a b :
  isNaN a = false → isNaN b = false →
  isPositive (sub b a) = false → leb b a = true.
Proof.
  destruct a as [|[]|p], b as [|[]|q]; simpl; try done.
  intros _ _ H. apply negb_false_iff, Qle_bool_iff in H. apply Qle_bool_iff. lra.
Qed.

Lemma sub_positive a b : isPositive (sub b a) = true → leb a b = true.
Proof.
  destruct a as [|[]|p], b as [|[]|q]; simpl; try done.
  intros H. apply negb_true_iff in H. apply Qle_bool_iff.
  destruct (Qlt_le_dec p q) as [Hlt | Hle]; [lra |].
  assert (Hc : Qle_bool (q + - p) 0 = true) by (apply Qle_bool_iff; lra).
  congruence.
Qed.

(** Equal totals compare as 0 (or as NaN, which [sort] reads as 0). *)
Lemma strictEq_not_positive a b : strictEq a b = true → isPositive (sub a b) = false.
Proof.
  destruct a as [|[]|p], b as [|[]|q]; simpl; try done.
  intros H%Qeq_bool_iff. apply negb_false_iff, Qle_bool_iff. lra.
Qed.

End NumberFacts.

(** ** Category statistics *)

Section SortFacts.
Import Aggregator.
Context {A : Type}.
Variable compare : A → A → number.
Implicit Types (x y a b : A) (l : list A).

Lemma insertSorted_perm x l : insertSorted compare x l ≡ₚ x :: l.
Proof.
  induction l as [|y l IH]; simpl; [done |].
  destruct (JsNumber.isPositive (compare x y)); [| done].
  rewrite IH. apply Permutation_swap.
Qed.

Lemma sort_perm l : sort compare l ≡ₚ l.
Proof.
  induction l as [|x l IH]; simpl; [done |].
  by rewrite insertSorted_perm, IH.
Qed.

(** An element moves behind another one only on a positive comparison. *)
Lemma insertSorted_order x l a b :
  [a; b] `sublist_of` insertSorted compare x l →
  [a; b] `sublist_of` x :: l
  ∨ (b = x ∧ a ∈ l ∧ JsNumber.isPositive (compare x a) = true).
Proof.
  induction l as [|y l IH]; simpl.
  - intros H. by left.
  - destruct (JsNumber.isPositive (compare x y)) eqn:Hpos; [| by left].
    intros [Hsub | (l' & Heq & Hb)]%sublist_cons_r.
    + destruct (IH Hsub) as [Hs | (-> & Ha & Hp)].
      * left. apply sublist_cons_r in Hs as [Hs | (l'' & [= -> <-] & Hs)].
        -- by do 2 apply sublist_cons.
        -- apply sublist_skip. by apply sublist_cons.
      * right. split; [done |]. split; [by right | done].
    + injection Heq as -> <-.
      assert (Hbin : b ∈ insertSorted compare x l).
      { eapply sublist_subseteq; [exact Hb | left]. }
      rewrite insertSorted_perm in Hbin.
      apply elem_of_cons in Hbin as [-> | Hbin].
      * right. split; [done |]. split; [left | done].
      * left. apply sublist_cons, sublist_skip.
        apply list_elem_of_split in Hbin as (l1 & l2 & ->).
        apply sublist_inserts_l, sublist_skip, sublist_nil_l.
Qed.

(** Stability: two elements leave the sort in their input order unless
    the comparison of the earlier with the later one is positive. *)
Lemma sort_order l a b :
  [a; b] `sublist_of` sort compare l →
  [a; b] `sublist_of` l
  ∨ ([b; a] `sublist_of` l ∧ JsNumber.isPositive (compare b a) = true).
Proof.
  revert a b. induction l as [|x l IH]; intros a b; simpl.
  - intros H. by left.
  - intros [Hs | (-> & Ha & Hp)]%insertSorted_order.
    + apply sublist_cons_r in Hs as [Hs | (l' & [= -> <-] & Hs)].
      * destruct (IH _ _ Hs) as [H | [H Hp]].
        -- left. by apply sublist_cons.
        -- right. split; [by apply sublist_cons | done].
      * left. apply sublist_skip.
        assert (Hbin : b ∈ sort compare l).
        { eapply sublist_subseteq; [exact Hs | left]. }
        rewrite sort_perm in Hbin.
        apply list_elem_of_split in Hbin as (l1 & l2 & ->).
        apply sublist_inserts_l, sublist_skip, sublist_nil_l.
    + right. split; [| done]. apply sublist_skip.
      rewrite sort_perm in Ha.
      apply list_elem_of_split in Ha as (l1 & l2 & ->).
      apply sublist_inserts_l, sublist_skip, sublist_nil_l.
Qed.

End SortFacts.

Section SortedFacts.
Import Aggregator.
Implicit Types (x y : CategoryStat) (l : list CategoryStat).

Lemma insertSorted_sorted x l :
  totalIsNumber x → Forall totalIsNumber l →
  StronglySorted totalAtLeast l →
  StronglySorted totalAtLeast (insertSorted byTotalDescending x l).
Proof.
  intros Hx. induction l as [|y l IH]; intros Hl Hsorted; simpl.
  - repeat constructor.
  - apply Forall_cons in Hl as [Hy Hl].
    apply StronglySorted_inv in Hsorted as [Hsorted Hhead].
    destruct (JsNumber.isPositive (byTotalDescending x y)) eqn:Hpos.
    + constructor; [by apply IH |].
      rewrite insertSorted_perm. constructor; [| done].
      by apply sub_positive.
    + constructor; [by constructor |].
      assert (Hxy : totalAtLeast x y) by (by apply sub_not_positive).
      constructor; [done |].
      eapply Forall_impl; [exact Hhead |]. intros z Hz.
      unfold totalAtLeast in *. by eapply leb_trans.
Qed.

Lemma sort_sorted l :
  Forall totalIsNumber l → StronglySorted totalAtLeast (sort byTotalDescending l).
Proof.
  induction l as [|x l IH]; intros Hl; simpl; [constructor |].
  apply Forall_cons in Hl as [Hx Hl].
  apply insertSorted_sorted; [done | | by apply IH].
  by rewrite sort_perm.
Qed.

End SortedFacts.

Section StatsFacts.
Import Aggregator.
Implicit Types (stats : Stats) (t : Tx.Transaction) (txs : list Tx.Transaction).

Lemma getOwn_None key stats : getOwn key stats = None ↔ key ∉ keysOf stats.
Proof.
  induction stats as [|[k v] stats IH]; simpl.
  - split; [intros _ []%elem_of_nil | done].
  - rewrite not_elem_of_cons. case_bool_decide as Hk; simpl.
    + split; [done | intros [Hne _]; congruence].
    + rewrite IH. split; [intros H; split; [congruence | done] | by intros [_ H]].
Qed.

Lemma update_keys key f stats : keysOf (update key f stats) = keysOf stats.
Proof.
  induction stats as [|[k v] stats IH]; simpl; [done |].
  case_bool_decide; simpl; [done |]. by f_equal.
Qed.

Lemma update_count key f stats :
  key ∈ keysOf stats →
  (∀ data, tallyCount (f data) = S (tallyCount data)) →
  sumCounts (update key f stats) = S (sumCounts stats).
Proof.
  intros Hin Hf. induction stats as [|[k v] stats IH]; simpl in *.
  - by apply elem_of_nil in Hin.
  - case_bool_decide as Hk; simpl.
    + unfold sumCounts. simpl. by rewrite Hf.
    + apply elem_of_cons in Hin as [Hin | Hin]; [congruence |].
      unfold sumCounts in *. simpl. rewrite IH by done. lia.
Qed.

Lemma tally_keys stats t :
  keysOf (tally stats t)
  = if isInherited (groupOf t) then keysOf stats
    else if decide (groupOf t ∈ keysOf stats) then keysOf stats
         else keysOf stats ++ [groupOf t].
Proof.
  unfold tally. destruct (isInherited (groupOf t)); [done |].
  rewrite update_keys. destruct (getOwn _ stats) as [v|] eqn:Hown.
  - rewrite decide_True; [done |].
    destruct (decide (groupOf t ∈ keysOf stats)) as [|Hnot]; [done |].
    apply getOwn_None in Hnot. congruence.
  - apply getOwn_None in Hown. rewrite decide_False by done.
    unfold define, keysOf. by rewrite fmap_app.
Qed.

Lemma tally_count stats t :
  isInherited (groupOf t) = false → sumCounts (tally stats t) = S (sumCounts stats).
Proof.
  intros Hown. unfold tally. rewrite Hown.
  destruct (getOwn _ stats) as [v|] eqn:Hget.
  - apply update_count; [| intros; simpl; lia].
    destruct (decide (groupOf t ∈ keysOf stats)) as [|Hnot]; [done |].
    apply getOwn_None in Hnot. congruence.
  - rewrite update_count; [| | intros; simpl; lia].
    + unfold define, sumCounts. rewrite sum_list_with_app. simpl. lia.
    + unfold define, keysOf. rewrite fmap_app. apply elem_of_app. right. left.
Qed.

Lemma fold_tally_count txs stats :
  Forall (λ t, isInherited (groupOf t) = false) txs →
  sumCounts (fold_left tally txs stats) = sumCounts stats + length txs.
Proof.
  revert stats. induction txs as [|t txs IH]; intros stats Hall; simpl; [lia |].
  apply Forall_cons in Hall as [Ht Hall].
  rewrite IH, tally_count by done. lia.
Qed.

Lemma insertIndexed_perm {A} n (e : A) l : insertIndexed n e l ≡ₚ (n, e) :: l.
Proof.
  induction l as [|[m e'] l IH]; simpl; [done |].
  destruct (n <? m)%N; [done |]. rewrite IH. apply Permutation_swap.
Qed.

Lemma indexedEntries_perm stats :
  snd <$> indexedEntries stats ≡ₚ filter (λ kv, isArrayIndex (fst kv) = true) stats.
Proof.
  induction stats as [|[k v] stats IH]; simpl; [done |].
  destruct (arrayIndex k) as [n|] eqn:Hk.
  - rewrite filter_cons_True by (simpl; unfold isArrayIndex; by rewrite Hk).
    rewrite insertIndexed_perm. simpl. by rewrite IH.
  - rewrite filter_cons_False by (simpl; unfold isArrayIndex; by rewrite Hk).
    exact IH.
Qed.

Lemma indexedEntries_keys stats kv :
  kv ∈ snd <$> indexedEntries stats → isArrayIndex (fst kv) = true.
Proof.
  rewrite indexedEntries_perm. by intros [H _]%list_elem_of_filter.
Qed.

Lemma entries_perm stats : entries stats ≡ₚ stats.
Proof.
  unfold entries. rewrite indexedEntries_perm.
  rewrite <- (filter_app_complement (λ kv, isArrayIndex (fst kv) = true) stats) at 3.
  f_equiv. apply reflexive_eq, list_filter_iff. intros kv.
  by destruct (isArrayIndex (fst kv)).
Qed.

(** Two entries whose keys are not array indices come out of
    [Object.entries] in creation order. *)
Lemma entries_order stats kv1 kv2 :
  isArrayIndex (fst kv1) = false → isArrayIndex (fst kv2) = false →
  [kv1; kv2] `sublist_of` entries stats → [kv1; kv2] `sublist_of` stats.
Proof.
  intros H1 H2 (l1 & l2 & Heq & Hl1 & Hl2)%sublist_app_r.
  destruct l1 as [|e l1].
  - simpl in Heq. subst l2. etrans; [exact Hl2 | apply sublist_filter].
  - exfalso. injection Heq as <- _.
    assert (Hin : kv1 ∈ snd <$> indexedEntries stats).
    { eapply sublist_subseteq; [exact Hl1 | left]. }
    apply indexedEntries_keys in Hin. congruence.
Qed.

End StatsFacts.

Section FirstOccurrence.
Import Aggregator.
Implicit Types (t : Tx.Transaction) (txs : list Tx.Transaction).

Lemma firstIndex_lt c txs p : firstIndex c txs = Some p → p < length txs.
Proof.
  revert p. induction txs as [|t txs IH]; intros p; simpl; [done |].
  case_bool_decide.
  - intros [= <-]. lia.
  - destruct (firstIndex c txs) as [q|]; simpl; [| done].
    intros [= <-]. specialize (IH q eq_refl). lia.
Qed.

Lemma firstIndex_snoc c txs t :
  firstIndex c (txs ++ [t])
  = match firstIndex c txs with
    | Some p => Some p
    | None => if bool_decide (groupOf t = c) then Some (length txs) else None
    end.
Proof.
  induction txs as [|t' txs IH]; simpl.
  - by case_bool_decide.
  - destruct (bool_decide (groupOf t' = c)); [done |]. rewrite IH.
    destruct (firstIndex c txs); simpl; [done |]. by case_bool_decide.
Qed.

(** The own keys of [stats] after the [forEach]: the groups met, without
    the inherited names, in the order of their first transactions. *)
Lemma fold_tally_keys txs :
  let stats := fold_left tally txs [] in
  (∀ c, c ∈ keysOf stats ↔ isInherited c = false ∧ is_Some (firstIndex c txs))
  ∧ (∀ ca cb, [ca; cb] `sublist_of` keysOf stats →
       ∃ p q, firstIndex ca txs = Some p ∧ firstIndex cb txs = Some q ∧ p < q).
Proof.
  induction txs as [|t txs [IHin IHorder]] using rev_ind; simpl.
  - split.
    + intros c. split; [intros []%elem_of_nil | intros [_ [? [=]]]].
    + intros ca cb H. apply sublist_nil_r in H. discriminate.
  - rewrite fold_left_app. simpl. rewrite !tally_keys.
    set (stats := fold_left tally txs []) in *.
    destruct (isInherited (groupOf t)) eqn:Hinh; [| destruct (decide _) as [Hold | Hnew]].
    + split.
      * intros c. rewrite IHin, firstIndex_snoc.
        destruct (firstIndex c txs) as [p|]; [done |].
        case_bool_decide as Hc; [| done]. subst c.
        split; intros [? ?]; [by destruct H0 | congruence].
      * intros ca cb (p & q & Hp & Hq & Hlt)%IHorder.
        exists p, q. by rewrite !firstIndex_snoc, Hp, Hq.
    + split.
      * intros c. rewrite IHin, firstIndex_snoc.
        destruct (firstIndex c txs) as [p|] eqn:Hc; [done |].
        case_bool_decide as Hg; [| done]. subst c.
        apply IHin in Hold as [_ [p Hp]]. congruence.
      * intros ca cb (p & q & Hp & Hq & Hlt)%IHorder.
        exists p, q. by rewrite !firstIndex_snoc, Hp, Hq.
    + assert (Hfresh : firstIndex (groupOf t) txs = None).
      { destruct (firstIndex (groupOf t) txs) as [p|] eqn:Hp; [| done].
        exfalso. apply Hnew, IHin. split; [done | by exists p]. }
      split.
      * intros c. rewrite elem_of_app, list_elem_of_singleton, IHin, firstIndex_snoc.
        destruct (firstIndex c txs) as [p|] eqn:Hc.
        -- split; [intros [H | ->]; [done | congruence] | by left].
        -- case_bool_decide as Hg.
           ++ subst c. split; [intros _; split; [done | by eexists] | by right].
           ++ split; [intros [[_ [? [=]]] | ->]; congruence | intros [_ [? [=]]]].
      * intros ca cb (l1 & l2 & Heq & Hl1 & Hl2)%sublist_app_r.
        apply sublist_cons_r in Hl2 as [->%sublist_nil_r | (l' & -> & ->%sublist_nil_r)].
        -- rewrite app_nil_r in Heq. subst l1.
           destruct (IHorder _ _ Hl1) as (p & q & Hp & Hq & Hlt).
           exists p, q. by rewrite !firstIndex_snoc, Hp, Hq.
        -- destruct l1 as [|c1 [|c2 l1]]; [discriminate Heq | | by destruct l1].
           injection Heq as <- ->.
           assert (Hca : ca ∈ keysOf stats).
           { eapply sublist_subseteq; [exact Hl1 | left]. }
           apply IHin in Hca as [_ [p Hp]].
           exists p, (length txs). rewrite !firstIndex_snoc, Hp, Hfresh.
           rewrite bool_decide_eq_true_2 by done.
           split; [done |]. split; [done |]. by eapply firstIndex_lt.
Qed.

End FirstOccurrence.

Lemma lookup_lt_sublist {A} (l : list A) i j a b :
  l !! i = Some a → l !! j = Some b → i < j → [a; b] `sublist_of` l.
Proof.
  intros Hi Hj Hlt.
  rewrite <- (take_drop_middle l i a Hi).
  apply sublist_inserts_l, sublist_skip.
  assert (Hb : drop (S i) l !! (j - S i) = Some b).
  { rewrite lookup_drop. by replace (S i + (j - S i)) with j by lia. }
  apply list_elem_of_lookup_2, list_elem_of_split in Hb as (l1 & l2 & ->).
  apply sublist_inserts_l, sublist_skip, sublist_nil_l.
Qed.

Lemma sublist_fmap_inv {A B} (f : A → B) (l : list B) (k : list A) :
  l `sublist_of` f <$> k → ∃ l', l = f <$> l' ∧ l' `sublist_of` k.
Proof.
  revert l. induction k as [|x k IH]; intros l; simpl.
  - intros ->%sublist_nil_r. by exists [].
  - intros [H | (l0 & -> & H)]%sublist_cons_r.
    + destruct (IH _ H) as (l' & -> & Hl'). exists l'. split; [done | by apply sublist_cons].
    + destruct (IH _ H) as (l' & -> & Hl'). exists (x :: l'). split; [done | by apply sublist_skip].
Qed.

Lemma sum_list_with_fmap {A B} (f : B → nat) (g : A → B) (l : list A) :
  sum_list_with f (g <$> l) = sum_list_with (f ∘ g) l.
Proof. induction l as [|x l IH]; simpl; [done | by f_equal]. Qed.

Lemma sum_list_with_ext {A} (f g : A → nat) (l : list A) :
  (∀ x, f x = g x) → sum_list_with f l = sum_list_with g l.
Proof. intros Hfg. induction l as [|x l IH]; simpl; [done | by rewrite Hfg, IH]. Qed.

(** C9 as the code has it: when no category total is NaN the stats are
    sorted by total, descending, and two stats with equal totals whose names
    are not array indices stand in the order of the first transactions of
    their categories; when no category is a name inherited from
    [Object.prototype] the counts add up to the number of transactions. *)
Theorem stats_sorted_ties_counts (transactions : list Tx.Transaction) :
  (Forall totalIsNumber (Aggregator.getCategoryStats transactions) →
     sortedByTotal transactions
     ∧ ∀ i j a b,
         Aggregator.getCategoryStats transactions !! i = Some a →
         Aggregator.getCategoryStats transactions !! j = Some b →
         i < j →
         JsNumber.strictEq (Aggregator.total a) (Aggregator.total b) = true →
         Aggregator.isArrayIndex (Aggregator.category a) = false →
         Aggregator.isArrayIndex (Aggregator.category b) = false →
         ∃ p q, firstIndex (Aggregator.category a) transactions = Some p
                ∧ firstIndex (Aggregator.category b) transactions = Some q
                ∧ p < q)
  ∧ (Forall (λ t, Aggregator.isInherited (Aggregator.groupOf t) = false) transactions →
     countsAddUp transactions).
Proof.
  unfold sortedByTotal, countsAddUp, Aggregator.getCategoryStats.
  set (raw := fold_left Aggregator.tally transactions []).
  split.
  - intros Hnumbers. split.
    + apply sort_sorted. by rewrite sort_perm in Hnumbers.
    + intros i j a b Hi Hj Hlt Htie Ha Hb.
      pose proof (lookup_lt_sublist _ _ _ _ _ Hi Hj Hlt) as Hsub.
      apply sort_order in Hsub as [Hsub | [_ Hpos]].
      2:{ apply strictEq_not_positive in Htie.
          unfold Aggregator.byTotalDescending in Hpos. congruence. }
      apply sublist_fmap_inv in Hsub as (kvs & Heq & Hsub).
      destruct kvs as [|[ca da] [|[cb db] [|? ?]]]; try discriminate Heq.
      injection Heq as -> ->. simpl in Ha, Hb |- *.
      apply entries_order in Hsub; [| done | done].
      apply (fmap_sublist fst) in Hsub. simpl in Hsub.
      by apply (fold_tally_keys transactions).
  - intros Hown.
    rewrite sort_perm, sum_list_with_fmap, entries_perm.
    pose proof (fold_tally_count transactions [] Hown) as Hcount.
    unfold sumCounts in Hcount. simpl in Hcount. rewrite <- Hcount.
    apply sum_list_with_ext. by intros [c d].
Qed.

Lemma digit_named_out_of_order : ¬ tiesInFirstOccurrenceOrder digitNamed.
Proof.
  intros Hties.
  destruct (Hties 0 1 _ _ eq_refl eq_refl (Nat.lt_0_succ 0) eq_refl)
    as (p & q & Hp & Hq & Hlt).
  vm_compute in Hp, Hq. injection Hp as <-. injection Hq as <-. lia.
Qed.

Lemma nan_total_unsorted : ¬ sortedByTotal nanAmount.
Proof.
  unfold sortedByTotal. intros H. vm_compute in H.
  apply StronglySorted_inv in H as [_ H]. apply Forall_cons in H as [H _].
  vm_compute in H. discriminate.
Qed.

(** The transaction of the inherited name is never tallied: the counts
    fall one short. *)
Lemma inherited_name_counts_short : ¬ countsAddUp inheritedName.
Proof. unfold countsAddUp. vm_compute. discriminate. Qed.

(** C9 as stated fails on the code: with two tied categories named "2" and
    "1" the stats come out as "1", "2" although "2" is met first, and with a
    NaN amount the stats are not sorted by total. *)
Lemma category_stats_counterexample :
  ¬ categoryStatsClaim digitNamed ∧ ¬ categoryStatsClaim nanAmount.
Proof.
  split.
  - intros (_ & Hties & _). by apply digit_named_out_of_order.
  - intros (Hsorted & _). by apply nan_total_unsorted.
Qed.

Lemma stats_sorted_ties_counts_witness :
  sortedByTotal monthOfSpending
  ∧ (∃ p q, firstIndex "Travel" monthOfSpending = Some p
            ∧ firstIndex "Groceries" monthOfSpending = Some q ∧ p < q)
  ∧ countsAddUp monthOfSpending.
Proof.
  destruct (stats_sorted_ties_counts monthOfSpending) as [Hsorted Hcounts].
  destruct Hsorted as [Hsorted Hties].
  { vm_compute. repeat constructor. }
  split; [exact Hsorted |]. split.
  - exact (Hties 1 2 _ _ eq_refl eq_refl (Nat.lt_succ_diag_r 1) eq_refl eq_refl eq_refl).
  - apply Hcounts. repeat constructor.
Defined.

Section PercentageFacts.
Import Aggregator.

Lemma stat_percentage transactions s :
  s ∈ getCategoryStats transactions →
  percentage s
  = JsNumber.mul (JsNumber.div (total s) (sumOfAmounts transactions)) (JsNumber.ofZ 100).
Proof.
  unfold getCategoryStats. rewrite sort_perm.
  intros ([c d] & -> & _)%list_elem_of_fmap. done.
Qed.

(** Dividing by a zero sum and scaling by 100 never gives a finite number. *)
Lemma percentage_of_zero_sum (total sum : number) :
  JsNumber.strictEq sum JsNumber.zero = true →
  JsNumber.isFinite (JsNumber.mul (JsNumber.div total sum) (JsNumber.ofZ 100)) = false.
Proof.
  destruct sum as [| |q]; simpl; try done. intros Hq.
  assert (Hzero : JsNumber.isZero q = true) by exact Hq.
  destruct total as [|s|p]; simpl; [done | done |].
  rewrite Hzero. by destruct (JsNumber.isZero p).
Qed.

End PercentageFacts.

(** In binary64 the charge of 100 and its refund of -100 sum to +0, and the
    two percentages are the infinities the exact model gives. *)
Lemma refund_percentages_binary64 :
  Binary64.percentage 100 [100; -100]%Z = S754_infinity false
  ∧ Binary64.percentage (-100) [100; -100]%Z = S754_infinity true.
Proof. split; vm_compute; reflexivity. Qed.

(** C10: every percentage is the category total divided by the signed sum
    of all amounts, times 100, with no test of the divisor; whenever that
    sum is zero no percentage is a finite number; and the charge of 100 with
    its refund of -100, both non-zero amounts with non-empty descriptions, is
    such a list (its percentages are +Infinity and -Infinity). *)
Theorem percentage_division_unguarded :
  (∀ transactions s,
     s ∈ Aggregator.getCategoryStats transactions →
     Aggregator.percentage s
     = JsNumber.mul
         (JsNumber.div (Aggregator.total s) (Aggregator.sumOfAmounts transactions))
         (JsNumber.ofZ 100))
  ∧ (∀ transactions,
       JsNumber.strictEq (Aggregator.sumOfAmounts transactions) JsNumber.zero = true →
       Forall (λ s, JsNumber.isFinite (Aggregator.percentage s) = false)
         (Aggregator.getCategoryStats transactions))
  ∧ (∃ transactions,
       transactions ≠ []
       ∧ Forall mapperInvariant transactions
       ∧ JsNumber.strictEq (Aggregator.sumOfAmounts transactions) JsNumber.zero = true
       ∧ Aggregator.percentage <$> Aggregator.getCategoryStats transactions
         = [Inf false; Inf true]
       ∧ Forall (λ s, JsNumber.isFinite (Aggregator.percentage s) = false)
           (Aggregator.getCategoryStats transactions)).
Proof.
  assert (Hzero : ∀ transactions,
       JsNumber.strictEq (Aggregator.sumOfAmounts transactions) JsNumber.zero = true →
       Forall (λ s, JsNumber.isFinite (Aggregator.percentage s) = false)
         (Aggregator.getCategoryStats transactions)).
  { intros transactions Hsum. apply Forall_forall. intros s Hs.
    rewrite (stat_percentage _ _ Hs). by apply percentage_of_zero_sum. }
  split; [exact stat_percentage |]. split; [exact Hzero |].
  exists chargeAndRefund. split; [done |]. split.
  { repeat constructor; done. }
  split; [reflexivity |]. split; [reflexivity |].
  by apply Hzero.
Qed.

Lemma percentage_division_unguarded_witness :
  Forall (λ s, JsNumber.isFinite (Aggregator.percentage s) = false)
    (Aggregator.getCategoryStats chargeAndRefund).
Proof.
  destruct percentage_division_unguarded as (_ & Hzero & _).
  apply Hzero. reflexivity.
Defined.

(** ** Throwing maps *)

Section MapThrowingFacts.
Context {A B : Type}.
Implicit Types (f : A → Completion B) (xs : list A) (ys : list B).

Lemma mapThrowing_Returned f xs ys :
  mapThrowing f xs = Returned ys ↔ Forall2 (λ x y, f x = Returned y) xs ys.
Proof.
  revert ys. induction xs as [|x xs IH]; intros ys; simpl.
  - split.
    + intros [= <-]. constructor.
    + intros Hrel. by apply Forall2_nil_inv_l in Hrel as ->.
  - split.
    + destruct (f x) as [y|] eqn:Hx; simpl; [|done].
      destruct (mapThrowing f xs) as [ys'|] eqn:Hxs; simpl; [|done].
      intros [= <-]. constructor; [done | by apply IH].
    + intros Hrel. apply Forall2_cons_inv_l in Hrel as (y & ys' & Hx & Hrel & ->).
      rewrite Hx. simpl. apply IH in Hrel. by rewrite Hrel.
Qed.

Lemma mapThrowing_Thrown f xs :
  mapThrowing f xs = Thrown ↔ ∃ x, x ∈ xs ∧ f x = Thrown.
Proof.
  induction xs as [|x xs IH]; simpl.
  - split; [done |]. intros (x & Hin & _). by apply elem_of_nil in Hin.
  - destruct (f x) as [y|] eqn:Hx; simpl.
    + destruct (mapThrowing f xs) as [ys|]; simpl.
      * split; [done |]. intros (x' & Hin & Hx').
        apply elem_of_cons in Hin as [-> | Hin]; [congruence |].
        assert (Hsome : ∃ x0, x0 ∈ xs ∧ f x0 = Thrown) by eauto.
        apply IH in Hsome. discriminate.
      * split; [|done]. intros _.
        destruct IH as [(x' & Hin & Hx') _]; [done |].
        exists x'. split; [by apply elem_of_cons; right | done].
    + split; [|done]. intros _. exists x. split; [apply elem_of_cons; by left | done].
Qed.

Lemma mapThrowing_length f xs ys : mapThrowing f xs = Returned ys → length ys = length xs.
Proof. intros Hrel%mapThrowing_Returned. symmetry. by eapply Forall2_length. Qed.

Lemma mapThrowing_app f xs xs' :
  mapThrowing f (xs ++ xs')
  = (ys ← mapThrowing f xs; ys' ← mapThrowing f xs'; Returned (ys ++ ys')).
Proof.
  induction xs as [|x xs IH]; simpl.
  - by destruct (mapThrowing f xs').
  - destruct (f x) as [y|]; simpl; [|done]. rewrite IH.
    destruct (mapThrowing f xs) as [ys|]; simpl; [|done].
    by destruct (mapThrowing f xs').
Qed.

(** Mapping the parts and concatenating is mapping the whole. *)
Lemma mapThrowing_concat f (parts : list (list A)) :
  (yss ← mapThrowing (mapThrowing f) parts; Returned (concat yss))
  = mapThrowing f (concat parts).
Proof.
  induction parts as [|xs parts IH]; simpl; [done |].
  rewrite mapThrowing_app, <- IH.
  destruct (mapThrowing f xs) as [ys|]; simpl; [|done].
  by destruct (mapThrowing (mapThrowing f) parts).
Qed.

End MapThrowingFacts.

(** Running the results of an indexed map is mapping in one go. *)
Lemma mapThrowing_imap {A B} (g : nat → A → Completion B) (f : A → Completion B)
    (xs : list A) :
  (∀ k x, xs !! k = Some x → g k x = f x) →
  mapThrowing (λ r, r) (imap g xs) = mapThrowing f xs.
Proof.
  revert g. induction xs as [|x xs IH]; intros g Hg; simpl; [done |].
  rewrite (Hg 0 x) by done.
  rewrite (IH (g ∘ S)); [done |]. intros k x' Hk. by apply (Hg (S k)).
Qed.

(** ** Batches *)

Lemma length_by_lookup {A} (l : list A) (n : nat) :
  (∀ k, is_Some (l !! k) ↔ k < n) → length l = n.
Proof.
  intros Hl.
  destruct (decide (length l < n)) as [Hlt|Hge].
  - assert (Hsome : is_Some (l !! length l)) by (apply Hl; lia).
    apply lookup_lt_is_Some in Hsome. lia.
  - destruct (decide (n < length l)) as [Hgt|]; [|lia].
    assert (Hsome : is_Some (l !! n)) by (by apply lookup_lt_is_Some).
    apply Hl in Hsome. lia.
Qed.

Lemma makeBatches_length {A} (xs : list A) :
  length (Adapter.makeBatches xs) = Nat.div (length xs + 9) 10.
Proof.
  apply length_by_lookup. intros k.
  pose proof (Nat.div_mod_eq (length xs + 9) 10) as Hdiv.
  pose proof (Nat.mod_upper_bound (length xs + 9) 10) as Hmod.
  split.
  - intros [batch Hk]. apply makeBatches_lookup in Hk as [Hk _].
    unfold Adapter.batchSize in Hk. lia.
  - intros Hk. exists (take Adapter.batchSize (drop (k * Adapter.batchSize) xs)).
    apply makeBatches_lookup. split; [|done]. unfold Adapter.batchSize. lia.
Qed.

(** The batches before a batch that exists are full. *)
Lemma makeBatches_full {A} (xs : list A) k k' batch batch' :
  Adapter.makeBatches xs !! k = Some batch →
  Adapter.makeBatches xs !! k' = Some batch' →
  k' < k → length batch' = Adapter.batchSize.
Proof.
  intros [Hk _]%makeBatches_lookup [_ ->]%makeBatches_lookup Hlt.
  rewrite length_take, length_drop. unfold Adapter.batchSize in *. lia.
Qed.

(** X1: the batches cut the list into consecutive runs of ten, the last run
    holding what is left: nothing is lost, repeated or reordered, no batch
    is empty, and a list of [n] transactions makes [ceil (n / 10)] requests. *)
Theorem batches_partition_input {A} (transactions : list A) :
  concat (Adapter.makeBatches transactions) = transactions
  ∧ length (Adapter.makeBatches transactions) = Nat.div (length transactions + 9) 10
  ∧ ∀ k batch,
      Adapter.makeBatches transactions !! k = Some batch →
      batch = take Adapter.batchSize (drop (k * Adapter.batchSize) transactions)
      ∧ 0 < length batch ≤ Adapter.batchSize
      ∧ (S k < length (Adapter.makeBatches transactions) →
         length batch = Adapter.batchSize).
Proof.
  split; [apply makeBatches_concat |]. split; [apply makeBatches_length |].
  intros k batch Hk. pose proof Hk as [Hlt Hbatch]%makeBatches_lookup.
  split; [done |]. split.
  - rewrite Hbatch, length_take, length_drop. unfold Adapter.batchSize in *. lia.
  - intros Hnext. apply lookup_lt_is_Some in Hnext as [next Hnext].
    by eapply (makeBatches_full transactions (S k) k); [exact Hnext | | lia].
Qed.

(** ** The route and the adapter *)

Lemma elem_of_concat {A} (x : A) (ls : list (list A)) :
  x ∈ concat ls → ∃ l, l ∈ ls ∧ x ∈ l.
Proof.
  induction ls as [|l ls IH]; simpl; [by intros ?%elem_of_nil |].
  intros [Hin | Hin]%elem_of_app.
  - exists l. split; [apply elem_of_cons; by left | done].
  - destruct (IH Hin) as (l' & Hl' & Hx). exists l'.
    split; [apply elem_of_cons; by right | done].
Qed.

Section RouteFacts.
Import Adapter.
Variable toLowerCase : string → string.
Variable trim : string → string.
Variable toFixed2 : number → string.
Variable fetchChat : nat → string → ChatReply.

Local Abbreviation keywordFallback := (keywordFallback toLowerCase).
Local Abbreviation responseCategories := (responseCategories trim).
Local Abbreviation tryStatement := (tryStatement toLowerCase trim toFixed2 fetchChat).
Local Abbreviation processBatchWithLLM :=
  (processBatchWithLLM toLowerCase trim toFixed2 fetchChat).
Local Abbreviation categorizeWithLLM :=
  (categorizeWithLLM toLowerCase trim toFixed2 fetchChat).
Local Abbreviation remoteFailed := (remoteFailed trim toFixed2 fetchChat).

(** An array is made of objects or holds a [null]. *)
Lemma elements_cases (elements : list Element) :
  Null ∈ elements ∨ ∃ transactions, elements = Object <$> transactions.
Proof.
  induction elements as [|[|t] elements IH].
  - right. by exists [].
  - left. apply elem_of_cons. by left.
  - destruct IH as [Hnull | [transactions ->]].
    + left. apply elem_of_cons. by right.
    + right. by exists (t :: transactions).
Qed.

Lemma objects_not_null (transactions : list Transaction) :
  Null ∉ Object <$> transactions.
Proof. by intros (t & ? & _)%list_elem_of_fmap. Qed.

Lemma objects_inj (transactions transactions' : list Transaction) :
  Object <$> transactions = Object <$> transactions' → transactions = transactions'.
Proof.
  revert transactions'.
  induction transactions as [|t l IH]; intros [|t' l']; try done.
  rewrite !fmap_cons. intros [= -> Hrest]. f_equal. by apply IH.
Qed.

(** On an array of objects the naive mode is the fallback. *)
Lemma keywordFallback_naive batch :
  Route.categorizeNaive toLowerCase (Object <$> batch) = keywordFallback batch.
Proof.
  unfold Route.categorizeNaive, Adapter.keywordFallback.
  induction batch as [|t batch IH]; [done |]. rewrite fmap_cons. simpl.
  by rewrite IH.
Qed.

(** A [null] element makes both modes throw. *)
Lemma categorizeNaive_null (elements : list Element) :
  Null ∈ elements → Route.categorizeNaive toLowerCase elements = Thrown.
Proof. intros Hnull. apply mapThrowing_Thrown. by exists Null. Qed.

Lemma categorizeWithLLM_null (elements : list Element) :
  Null ∈ elements → categorizeWithLLM elements = Thrown.
Proof.
  intros Hnull. unfold Adapter.categorizeWithLLM.
  assert (Hthrown :
    mapThrowing (λ r, r) (imap processBatchWithLLM (makeBatches elements)) = Thrown).
  { apply mapThrowing_Thrown. exists Thrown. split; [|done].
    rewrite <- (makeBatches_concat elements) in Hnull.
    apply elem_of_concat in Hnull as (batch & Hbatch & Hnull).
    apply list_elem_of_lookup in Hbatch as [k Hk].
    apply list_elem_of_lookup. exists k.
    rewrite list_lookup_imap, Hk. simpl. f_equal. by apply processBatch_null. }
  by rewrite Hthrown.
Qed.

Lemma categorizeNaive_Thrown transactions :
  Route.categorizeNaive toLowerCase (Object <$> transactions) = Thrown
  ↔ ∃ t, t ∈ transactions ∧ description t = None.
Proof.
  rewrite keywordFallback_naive. unfold Adapter.keywordFallback.
  rewrite mapThrowing_Thrown.
  split; intros (t & Hin & Ht); exists t; (split; [done |]).
  - by destruct (description t).
  - by rewrite Ht.
Qed.

Lemma categorizeNaive_Returned transactions out :
  Route.categorizeNaive toLowerCase (Object <$> transactions) = Returned out
  ↔ Forall2 (keywordCategorized toLowerCase) transactions out.
Proof.
  rewrite keywordFallback_naive. unfold Adapter.keywordFallback.
  rewrite mapThrowing_Returned.
  split; intros Hrel; (eapply Forall2_impl; [exact Hrel |]); intros t t'; simpl.
  - destruct (description t) as [d|] eqn:Hd; simpl; [|done].
    intros [= <-]. split; [apply sameMembers_withCategory | by exists d].
  - intros (Hsame & d & Hd & Hcategory). rewrite Hd. simpl.
    by rewrite (sameMembers_category t t' Hsame), Hcategory.
Qed.

(** When every batch loses its remote answer the adapter is the keyword
    classifier run over the whole list. *)
Lemma categorizeWithLLM_all_failed transactions :
  (∀ k batch, makeBatches transactions !! k = Some batch → remoteFailed k batch) →
  categorizeWithLLM (Object <$> transactions)
  = Route.categorizeNaive toLowerCase (Object <$> transactions).
Proof.
  intros Hfail. rewrite categorizeWithLLM_objects, keywordFallback_naive.
  rewrite (mapThrowing_imap _ keywordFallback).
  - unfold Adapter.keywordFallback.
    by rewrite mapThrowing_concat, makeBatches_concat.
  - intros k batch Hk. apply processBatch_failed. by apply Hfail.
Qed.

(** A remote call either failed or gave one line per transaction. *)
Lemma remote_cases k batch :
  remoteFailed k batch
  ∨ ∃ content,
      fetchChat k (prompt (transactionsText toFixed2 batch))
        = Response true (BodyContent content)
      ∧ length (responseCategories content) = length batch.
Proof.
  unfold Adapter.remoteFailed.
  destruct (fetchChat k _) as [|[] [| |content]]; auto.
  destruct (decide (length (responseCategories content) = length batch)) as [Heq|Hne].
  - right. by exists content.
  - left. by right.
Qed.

Lemma keywordFallback_Thrown batch :
  keywordFallback batch = Thrown ↔ ∃ t, t ∈ batch ∧ description t = None.
Proof. rewrite <- keywordFallback_naive. apply categorizeNaive_Thrown. Qed.

Lemma keywordFallback_Returned batch out :
  keywordFallback batch = Returned out
  ↔ Forall2 (keywordCategorized toLowerCase) batch out.
Proof. rewrite <- keywordFallback_naive. apply categorizeNaive_Returned. Qed.

Lemma processBatch_Thrown k batch :
  tryStatement k batch = Thrown
  ↔ remoteFailed k batch ∧ ∃ t, t ∈ batch ∧ description t = None.
Proof.
  destruct (remote_cases k batch) as [Hfail | (content & Hreply & Hlen)].
  - rewrite (processBatch_failed _ _ _ _ _ _ Hfail), keywordFallback_Thrown. tauto.
  - rewrite (processBatch_answered _ _ _ _ _ _ _ Hreply Hlen).
    split; [done |]. intros [Hfail _]. exfalso.
    unfold Adapter.remoteFailed in Hfail. rewrite Hreply in Hfail.
    destruct Hfail as [? | Hne]; [done | by apply Hne].
Qed.

Lemma processBatch_length k batch out :
  tryStatement k batch = Returned out → length out = length batch.
Proof.
  destruct (remote_cases k batch) as [Hfail | (content & Hreply & Hlen)].
  - rewrite (processBatch_failed _ _ _ _ _ _ Hfail). apply mapThrowing_length.
  - rewrite (processBatch_answered _ _ _ _ _ _ _ Hreply Hlen).
    intros [= <-]. by rewrite length_imap.
Qed.

(** Whatever comes back for a batch is the batch with categories. *)
Lemma processBatch_categorizedAs k batch out :
  tryStatement k batch = Returned out → Forall2 categorizedAs batch out.
Proof.
  destruct (remote_cases k batch) as [Hfail | (content & Hreply & Hlen)].
  - rewrite (processBatch_failed _ _ _ _ _ _ Hfail), keywordFallback_Returned.
    intros Hrel. eapply Forall2_impl; [exact Hrel |].
    apply keywordCategorized_categorizedAs.
  - rewrite (processBatch_answered _ _ _ _ _ _ _ Hreply Hlen). intros [= <-].
    apply Forall2_imap_lookup. intros i t Hi.
    assert (Hlt : i < length (responseCategories content)).
    { rewrite Hlen. by eapply lookup_lt_Some. }
    apply lookup_lt_is_Some_2 in Hlt as [line Hline].
    assert (Hne : line ≠ EmptyString).
    { eapply responseCategories_nonempty, list_elem_of_lookup_2, Hline. }
    split; [apply sameMembers_withCategory |]. simpl.
    by rewrite (categoryAt_line _ _ _ Hline Hne).
Qed.

(** The adapter's result, batch by batch. *)
Lemma categorizeWithLLM_Returned transactions categorized :
  categorizeWithLLM (Object <$> transactions) = Returned categorized
  ↔ ∃ outs,
      categorized = concat outs
      ∧ Forall2 (λ r out, r = Returned out)
          (imap tryStatement (makeBatches transactions)) outs.
Proof.
  rewrite categorizeWithLLM_objects.
  destruct (mapThrowing _ _) as [outs|] eqn:Hmap; simpl.
  - apply mapThrowing_Returned in Hmap. split.
    + intros [= <-]. by exists outs.
    + intros (outs' & -> & Hrel). f_equal. f_equal.
      revert Hrel Hmap. generalize (imap tryStatement (makeBatches transactions)).
      intros rs Hrel. revert outs. induction Hrel as [|r out rs outs' Hr _ IH];
        intros outs Hmap.
      * by apply Forall2_nil_inv_l in Hmap.
      * apply Forall2_cons_inv_l in Hmap as (out' & outs'' & Hr' & Hmap & ->).
        f_equal; [congruence | by apply IH].
  - split; [done |]. intros (outs & _ & Hrel).
    apply mapThrowing_Returned in Hrel. congruence.
Qed.

Lemma categorizeWithLLM_Thrown transactions :
  categorizeWithLLM (Object <$> transactions) = Thrown
  ↔ ∃ k batch, makeBatches transactions !! k = Some batch
               ∧ remoteFailed k batch
               ∧ ∃ t, t ∈ batch ∧ description t = None.
Proof.
  rewrite categorizeWithLLM_objects.
  destruct (mapThrowing _ _) as [outs|] eqn:Hmap; simpl.
  - split; [done |]. intros (k & batch & Hk & Hthrown).
    apply processBatch_Thrown in Hthrown.
    assert (Hex : ∃ r : Completion (list Transaction),
              r ∈ imap tryStatement (makeBatches transactions) ∧ r = Thrown).
    { exists Thrown. split; [|done].
      apply list_elem_of_lookup. exists k. by rewrite list_lookup_imap, Hk; simpl; f_equal. }
    apply (mapThrowing_Thrown (λ r, r)) in Hex. congruence.
  - split; [|done]. intros _.
    apply mapThrowing_Thrown in Hmap as (r & Hin & ->).
    apply list_elem_of_lookup in Hin as [k Hk].
    rewrite list_lookup_imap in Hk.
    destruct (makeBatches transactions !! k) as [batch|] eqn:Hbatch; [|done].
    injection Hk as Hk. exists k, batch. split; [done |]. by apply processBatch_Thrown.
Qed.

(** Where the result of one batch lies in the adapter's result. *)
Lemma categorizeWithLLM_lookup transactions categorized k batch :
  categorizeWithLLM (Object <$> transactions) = Returned categorized →
  makeBatches transactions !! k = Some batch →
  ∃ out, tryStatement k batch = Returned out
         ∧ length out = length batch
         ∧ ∀ j, j < length batch → categorized !! (k * batchSize + j) = out !! j.
Proof.
  intros (outs & -> & Hrel)%categorizeWithLLM_Returned Hk.
  assert (Hout : ∀ k' batch', makeBatches transactions !! k' = Some batch' →
            ∃ out', outs !! k' = Some out'
                    ∧ tryStatement k' batch' = Returned out'
                    ∧ length out' = length batch').
  { intros k' batch' Hk'.
    destruct (Forall2_lookup_l _ _ _ k' (tryStatement k' batch') Hrel)
      as (out' & Hout' & Hr).
    { by rewrite list_lookup_imap, Hk'. }
    exists out'. split; [done |]. split; [done |]. by eapply processBatch_length. }
  destruct (Hout k batch Hk) as (out & Hlookup & Hr & Hlen).
  exists out. split; [done |]. split; [done |].
  intros j Hj. apply concat_lookup_full; [| done | lia].
  intros k' out' Hlt Hk'.
  assert (Hsome : is_Some (makeBatches transactions !! k')).
  { apply lookup_lt_is_Some. apply lookup_lt_Some in Hk. lia. }
  destruct Hsome as [batch' Hbatch'].
  destruct (Hout k' batch' Hbatch') as (out'' & Hlookup' & _ & Hlen').
  assert (out'' = out') as -> by congruence.
  rewrite Hlen'. by eapply (makeBatches_full transactions k k').
Qed.

End RouteFacts.

(** X2: with the remote endpoint failing for every batch, the adapter returns
    what the keyword mode returns, throwing where it throws, and the route
    answers a request in any other mode as it answers it in the naive mode. *)
Theorem remote_down_gives_keyword_mode
    (toLowerCase trim : string → string) (toFixed2 : number → string)
    (fetchChat : nat → string → Adapter.ChatReply)
    (transactions : list Adapter.Transaction) :
  remoteDown trim toFixed2 fetchChat transactions →
  Adapter.categorizeWithLLM toLowerCase trim toFixed2 fetchChat
    (Adapter.Object <$> transactions)
    = Route.categorizeNaive toLowerCase (Adapter.Object <$> transactions)
  ∧ ∀ mode,
      Route.POST toLowerCase trim toFixed2 fetchChat
        (Route.Body (Route.Transactions (Adapter.Object <$> transactions)) mode)
      = Route.POST toLowerCase trim toFixed2 fetchChat
          (Route.Body (Route.Transactions (Adapter.Object <$> transactions))
             (Some "naive")).
Proof.
  intros Hdown.
  pose proof (categorizeWithLLM_all_failed toLowerCase trim toFixed2 fetchChat
                transactions Hdown) as Heq.
  split; [done |]. intros mode. unfold Route.POST, Route.respond.
  rewrite (bool_decide_eq_true_2 (Some "naive" = Some "naive")) by done.
  case_bool_decide; [done |]. by rewrite Heq.
Qed.

Lemma remote_down_gives_keyword_mode_witness :
  Route.POST JsString.toLowerCaseAscii JsString.trimAscii (λ _, "0.00")
    (λ _ _, Adapter.FetchRejected)
    (Route.Body (Route.Transactions (Adapter.Object <$> [uberTrip; paycheck]))
       (Some "ml"))
  = Returned (Route.Ok [Adapter.withCategory uberTrip "Transportation";
                        Adapter.withCategory paycheck "Income"]).
Proof.
  assert (Hdown : remoteDown JsString.trimAscii (λ _, "0.00")
                    (λ _ _, Adapter.FetchRejected) [uberTrip; paycheck]).
  { intros k batch _. exact I. }
  destruct (remote_down_gives_keyword_mode JsString.toLowerCaseAscii
              JsString.trimAscii (λ _, "0.00") (λ _ _, Adapter.FetchRejected)
              [uberTrip; paycheck] Hdown) as [_ Hpost].
  rewrite Hpost. reflexivity.
Defined.

(** X3: the route always answers, on an array whose elements are [null] or
    objects with a description that is a string or missing and an amount
    that is a number.  An unreadable body gets status 500, a body
    whose [transactions] is missing or not an array status 400.  Otherwise
    the status is 500 exactly when the array holds a [null] element,
    whatever the mode and whatever the remote answers, or, the elements
    being objects, when in the naive mode some transaction has no
    description, and in any other mode some batch that lost its remote
    answer holds such a transaction.  A status 200 answer is given to an
    array of objects only and lists its transactions in their order, each
    with its identifier, date, description and amount and with a category
    that is not empty. *)
Theorem route_always_responds
    (toLowerCase trim : string → string) (toFixed2 : number → string)
    (fetchChat : nat → string → Adapter.ChatReply) (body : Route.RequestBody) :
  ∃ response,
    Route.POST toLowerCase trim toFixed2 fetchChat body = Returned response
    ∧ match body with
      | Route.Unreadable => response = Route.ServerError
      | Route.Body (Route.Missing | Route.NotArray) _ =>
          response = Route.BadRequest "Invalid transactions data"
      | Route.Body (Route.Transactions elements) mode =>
          (response = Route.ServerError
           ↔ Adapter.Null ∈ elements
             ∨ ∃ transactions,
                 elements = Adapter.Object <$> transactions
                 ∧ if bool_decide (mode = Some "naive")
                   then lacksDescription transactions
                   else fallbackFails trim toFixed2 fetchChat transactions)
          ∧ ∀ categorized,
              response = Route.Ok categorized →
              ∃ transactions,
                elements = Adapter.Object <$> transactions
                ∧ length categorized = length transactions
                ∧ Forall2 categorizedAs transactions categorized
      end.
Proof.
  destruct body as [|[| |elements] mode]; try (by eexists).
  unfold Route.POST, Route.respond.
  destruct (elements_cases elements) as [Hnull | [transactions ->]].
  { exists Route.ServerError. split.
    - case_bool_decide.
      + by rewrite categorizeNaive_null.
      + by rewrite categorizeWithLLM_null.
    - split; [| done]. split; [by left | done]. }
  assert (Hobjects : ∀ P : list Adapter.Transaction → Prop,
            (Adapter.Null ∈ Adapter.Object <$> transactions
             ∨ ∃ transactions',
                 Adapter.Object <$> transactions = Adapter.Object <$> transactions'
                 ∧ P transactions')
            ↔ P transactions).
  { intros P. split.
    - intros [Hnull | (transactions' & Heq & HP)].
      + by apply objects_not_null in Hnull.
      + by rewrite (objects_inj _ _ Heq).
    - intros HP. right. by exists transactions. }
  case_bool_decide as Hmode.
  - destruct (Route.categorizeNaive toLowerCase (Adapter.Object <$> transactions))
      as [out|] eqn:Hout; simpl.
    + exists (Route.Ok out). split; [done |]. split.
      * rewrite (Hobjects lacksDescription). split; [done |]. intros Hlacks.
        apply (categorizeNaive_Thrown toLowerCase) in Hlacks. congruence.
      * intros categorized [= <-]. exists transactions. split; [done |].
        apply categorizeNaive_Returned in Hout.
        split; [symmetry; by eapply Forall2_length |].
        eapply Forall2_impl; [exact Hout |]. apply keywordCategorized_categorizedAs.
    + exists Route.ServerError. split; [done |]. split; [|done].
      rewrite (Hobjects lacksDescription).
      split; [|done]. intros _. by apply (categorizeNaive_Thrown toLowerCase).
  - destruct (Adapter.categorizeWithLLM toLowerCase trim toFixed2 fetchChat
                (Adapter.Object <$> transactions))
      as [out|] eqn:Hout; simpl.
    + exists (Route.Ok out). split; [done |]. split.
      * rewrite (Hobjects (fallbackFails trim toFixed2 fetchChat)).
        split; [done |]. intros Hfails.
        apply (categorizeWithLLM_Thrown toLowerCase) in Hfails. congruence.
      * intros categorized [= <-]. exists transactions. split; [done |].
        apply categorizeWithLLM_Returned in Hout as (outs & -> & Hrel).
        assert (Hall : Forall2 (Forall2 categorizedAs)
                         (Adapter.makeBatches transactions) outs).
        { apply Forall2_same_length_lookup. split.
          - apply Forall2_length in Hrel. by rewrite length_imap in Hrel.
          - intros k batch out Hk Hout.
            destruct (Forall2_lookup_r _ _ _ k out Hrel Hout) as (r & Hr & ->).
            rewrite list_lookup_imap, Hk in Hr. injection Hr as Hr.
            by eapply processBatch_categorizedAs. }
        apply Forall2_concat in Hall. rewrite makeBatches_concat in Hall.
        split; [symmetry; by eapply Forall2_length | done].
    + exists Route.ServerError. split; [done |]. split; [|done].
      rewrite (Hobjects (fallbackFails trim toFixed2 fetchChat)).
      split; [|done]. intros _. by apply (categorizeWithLLM_Thrown toLowerCase).
Qed.

(** A [null] element among the transactions: status 500 in both modes,
    also when the remote answers with one line for each element. *)
Lemma null_element_status_500 :
  Route.status <$>
    Route.POST JsString.toLowerCaseAscii JsString.trimAscii (λ _, "0.00")
      (answering ["Travel"; "Income"])
      (Route.Body (Route.Transactions [Adapter.Object uberTrip; Adapter.Null]) None)
  = Returned 500
  ∧ Route.status <$>
      Route.POST JsString.toLowerCaseAscii JsString.trimAscii (λ _, "0.00")
        (answering ["Travel"; "Income"])
        (Route.Body (Route.Transactions [Adapter.Object uberTrip; Adapter.Null])
           (Some "naive"))
    = Returned 500.
Proof. split; reflexivity. Qed.

(** X4: whenever the adapter returns, the result of batch [k] lies at the
    positions [10 k], [10 k + 1], ... of the list, whatever happened to the
    other batches; so a transaction of a batch that was answered with one
    line per transaction holds, as its category, the line of its own
    position in its own batch's answer, the blank lines left out, and has
    the identifier, date, description and amount it came with. *)
Theorem batch_answers_stay_in_place
    (toLowerCase trim : string → string) (toFixed2 : number → string)
    (fetchChat : nat → string → Adapter.ChatReply)
    (transactions categorized : list Adapter.Transaction) :
  Adapter.categorizeWithLLM toLowerCase trim toFixed2 fetchChat
    (Adapter.Object <$> transactions)
    = Returned categorized →
  ∀ k batch,
    Adapter.makeBatches transactions !! k = Some batch →
    (∃ out,
       Adapter.processBatchWithLLM toLowerCase trim toFixed2 fetchChat k
         (Adapter.Object <$> batch)
         = Returned out
       ∧ length out = length batch
       ∧ ∀ j, j < length batch →
              categorized !! (k * Adapter.batchSize + j) = out !! j)
    ∧ ∀ answer j t,
        answer ≠ [] →
        Forall (λ line, newlineFree line = true) answer →
        fetchChat k (Adapter.prompt (Adapter.transactionsText toFixed2 batch))
          = Adapter.Response true (Adapter.BodyContent (replyOf answer)) →
        length (nonBlankLines trim answer) = length batch →
        batch !! j = Some t →
        ∃ line t',
          nonBlankLines trim answer !! j = Some line
          ∧ categorized !! (k * Adapter.batchSize + j) = Some t'
          ∧ sameMembers t t'
          ∧ Adapter.category t' = line.
Proof.
  intros Hret k batch Hk.
  destruct (categorizeWithLLM_lookup _ _ _ _ _ _ _ _ Hret Hk) as (out & Hout & Hlen & Hpos).
  split; [exists out; by rewrite processBatch_objects |].
  intros answer j t Hne Hlines Hreply Hcount Hj.
  rewrite Hpos by (by eapply lookup_lt_Some).
  destruct (processBatch_lines toLowerCase trim toFixed2 fetchChat k batch answer
              Hne Hlines Hreply Hcount) as (out' & Hout' & _ & Hassigned).
  assert (out' = out) as -> by congruence.
  destruct (Hassigned j t Hj) as (line & t' & Hline & _ & Ht' & Hsame & Hcategory).
  by exists line, t'.
Qed.

Lemma batch_answers_stay_in_place_witness :
  ∃ categorized t',
    Adapter.categorizeWithLLM JsString.toLowerCaseAscii JsString.trimAscii
      (λ _, "0.00") secondBatchAnswered (Adapter.Object <$> twelve)
      = Returned categorized
    ∧ categorized !! 11 = Some t'
    ∧ Adapter.id t' = "tx-1"
    ∧ Adapter.category t' = "Transfers".
Proof.
  assert (Hret : ∃ categorized,
    Adapter.categorizeWithLLM JsString.toLowerCaseAscii JsString.trimAscii
      (λ _, "0.00") secondBatchAnswered (Adapter.Object <$> twelve)
    = Returned categorized).
  { eexists. vm_compute. reflexivity. }
  destruct Hret as [categorized Hret].
  destruct (batch_answers_stay_in_place _ _ _ _ _ _ Hret 1 [uberTrip; paycheck] eq_refl)
    as [_ Hline].
  destruct (Hline twoLinesAndBlanks 1 paycheck) as (line & t' & Hl & Hout & Hsame & Hc).
  { discriminate. }
  { by repeat constructor. }
  { reflexivity. }
  { reflexivity. }
  { reflexivity. }
  vm_compute in Hl. injection Hl as <-. destruct Hsame as (Hid & _).
  exists categorized, t'. split; [exact Hret |]. split; [exact Hout |].
  split; [exact Hid | exact Hc].
Defined.

(** ** Substrings *)

Lemma string_app_assoc (s1 s2 s3 : string) : (s1 +:+ s2) +:+ s3 = s1 +:+ s2 +:+ s3.
Proof.
  induction s1 as [|c s1 IH]; [done |]. rewrite !append_cons. by f_equal.
Qed.

Lemma prefix_app (p s : string) : String.prefix p s = true ↔ ∃ post, s = p +:+ post.
Proof.
  revert s. induction p as [|c p IH]; intros [|c' s]; simpl.
  - split; [by exists EmptyString | done].
  - split; [by exists (String c' s) | done].
  - split; [done | by intros [post ?]].
  - destruct (ascii_dec c c') as [<- | Hne].
    + rewrite IH. split; intros [post Hpost]; exists post.
      * rewrite append_cons. by f_equal.
      * rewrite append_cons in Hpost. congruence.
    + split; [done |]. intros [post Hpost].
      rewrite append_cons in Hpost. congruence.
Qed.

Lemma includes_nil (keyword : string) :
  JsString.includes EmptyString keyword = String.prefix keyword EmptyString.
Proof. unfold JsString.includes. apply orb_false_r. Qed.

Lemma includes_cons (c : ascii) (s keyword : string) :
  JsString.includes (String c s) keyword
  = String.prefix keyword (String c s) || JsString.includes s keyword.
Proof. reflexivity. Qed.

Lemma includes_spec (s keyword : string) :
  JsString.includes s keyword = true ↔ ∃ pre post, s = pre +:+ keyword +:+ post.
Proof.
  induction s as [|c s IH].
  - rewrite includes_nil, prefix_app. split.
    + intros [post Hpost]. by exists EmptyString, post.
    + intros ([|c pre] & post & Hs); [by exists post | done].
  - rewrite includes_cons, orb_true_iff, prefix_app, IH. split.
    + intros [[post Hpost] | (pre & post & ->)]; [by exists EmptyString, post |].
      by exists (String c pre), post.
    + intros ([|c' pre] & post & Hs); [left; by exists post |].
      right. exists pre, post. rewrite append_cons in Hs. congruence.
Qed.

(** What occurs in a part of a string occurs in the string. *)
Lemma includes_trans (s part keyword : string) :
  JsString.includes s part = true → JsString.includes part keyword = true →
  JsString.includes s keyword = true.
Proof.
  rewrite !includes_spec. intros (pre & post & ->) (pre' & post' & ->).
  exists (pre +:+ pre'), (post' +:+ post). by rewrite !string_app_assoc.
Qed.

(** ** Keywords that never decide *)

(** A description in which [keyword] occurs is answered at or before the
    category [i] one of whose keywords occurs in [keyword]. *)
Lemma earlier_keyword_wins (toLowerCase : string → string) (description : string)
    i category keywords part keyword later :
  Keywords.categories !! i = Some (category, keywords) →
  part ∈ keywords →
  JsString.includes keyword part = true →
  later ∉ fst <$> take (S i) Keywords.categories →
  JsString.includes (toLowerCase description) keyword = true →
  Keywords.categorizeWithKeywords toLowerCase description ≠ later.
Proof.
  intros Hi Hpart Hocc Hlater Hdesc.
  assert (Hany : Keywords.anyKeyword (toLowerCase description) keywords = true).
  { apply anyKeyword_true. exists part. split; [done |]. by eapply includes_trans. }
  destruct (firstMatch_stops _ _ _ _ _ Hi Hany) as (i' & c' & ks' & Hle & Hi' & Hfirst).
  unfold Keywords.categorizeWithKeywords. rewrite Hfirst. intros ->.
  apply Hlater. apply list_elem_of_fmap. exists (later, ks'). split; [done |].
  apply list_elem_of_lookup. exists i'. rewrite lookup_take_lt by lia. done.
Qed.

Ltac shadowed_by i part :=
  eapply (earlier_keyword_wins _ _ i _ _ part);
    [ reflexivity
    | apply (bool_decide_unpack _); vm_compute; exact I
    | vm_compute; reflexivity
    | apply (bool_decide_unpack _); vm_compute; exact I ].

(** X5: five keywords of the rule table can never decide a category, because a
    keyword of an earlier category occurs in them: "whole foods" and "food"
    of Groceries, "subway" of Transportation, "cable" of Bills & Utilities
    and "direct deposit" of Transfers.  A description in which one of them
    occurs is never given that keyword's category. *)
Theorem shadowed_keywords_never_decide :
  shadowedKeywords
  = [ ("Groceries", "whole foods"); ("Groceries", "food");
      ("Transportation", "subway"); ("Bills & Utilities", "cable");
      ("Transfers", "direct deposit") ]
  ∧ ∀ (toLowerCase : string → string) (description category keyword : string),
      (category, keyword) ∈ shadowedKeywords →
      JsString.includes (toLowerCase description) keyword = true →
      Keywords.categorizeWithKeywords toLowerCase description ≠ category.
Proof.
  assert (Hlist : shadowedKeywords
    = [ ("Groceries", "whole foods"); ("Groceries", "food");
        ("Transportation", "subway"); ("Bills & Utilities", "cable");
        ("Transfers", "direct deposit") ]) by (vm_compute; reflexivity).
  split; [exact Hlist |].
  intros toLowerCase description.
  assert (Hall : Forall
    (λ shadowed,
       JsString.includes (toLowerCase description) (snd shadowed) = true →
       Keywords.categorizeWithKeywords toLowerCase description ≠ fst shadowed)
    shadowedKeywords).
  { rewrite Hlist.
    apply Forall_cons; split; [shadowed_by 1 "food" |].
    apply Forall_cons; split; [shadowed_by 1 "food" |].
    apply Forall_cons; split; [shadowed_by 1 "subway" |].
    apply Forall_cons; split; [shadowed_by 3 "cab" |].
    apply Forall_cons; split; [shadowed_by 13 "deposit" |].
    apply Forall_nil_2. }
  intros category keyword Hin.
  by apply (proj1 (Forall_forall _ _) Hall (category, keyword)).
Qed.

Lemma shadowed_keywords_never_decide_witness :
  Keywords.categorizeWithKeywords JsString.toLowerCaseAscii "COMCAST CABLE TV"
  = "Transportation"
  ∧ Keywords.categorizeWithKeywords JsString.toLowerCaseAscii "COMCAST CABLE TV"
    ≠ "Bills & Utilities".
Proof.
  destruct shadowed_keywords_never_decide as [_ Hnever].
  split; [reflexivity |].
  apply (Hnever JsString.toLowerCaseAscii "COMCAST CABLE TV" "Bills & Utilities" "cable").
  - apply (bool_decide_unpack _). vm_compute. exact I.
  - reflexivity.
Defined.

(** ** Dates and amounts of the mapper *)

Lemma fmap_Thrown_iff {A B} (f : A → B) (m : Completion A) :
  f <$> m = Thrown ↔ m = Thrown.
Proof. by destruct m. Qed.

Lemma toISOString_Thrown (date : option Z) :
  JsDate.toISOString date = Thrown ↔ date = None.
Proof.
  destruct date as [t|]; [|done]. unfold JsDate.toISOString.
  by destruct (JsDate.civilFromDays _) as [[y m] d].
Qed.

Section DateFacts.
Import Mapper.
Variable localTZA : Z → Z.
Variable dateParse : string → option Z.

Local Abbreviation formatDate := (formatDate localTZA dateParse).

(** [formatDate] throws in the three-part branch only, and there exactly
    when the date it builds is invalid. *)
Lemma formatDate_Thrown dateStr :
  formatDate dateStr = Thrown
  ↔ ∃ s p0 p1 p2,
      dateStr = Some s
      ∧ matchesPrefix isoPrefix s = false
      ∧ JsString.split isDateSeparator s = [p0; p1; p2]
      ∧ JsDate.newDate localTZA (addCentury <$> JsParse.parseInt p2)
          ((λ m, m - 1)%Z <$> JsParse.parseInt p0) (JsParse.parseInt p1) = None.
Proof.
  unfold Mapper.formatDate.
  destruct dateStr as [[|c s]|].
  - split; [done |]. by intros (s & p0 & p1 & p2 & [= <-] & _ & Hsplit & _).
  - destruct (matchesPrefix isoPrefix (String c s)) eqn:Hiso.
    { split; [done |]. intros (s' & p0 & p1 & p2 & [= <-] & Hno & _). congruence. }
    destruct (JsString.split isDateSeparator (String c s))
      as [|p0 [|p1 [|p2 [|p3 rest]]]] eqn:Hsplit.
    4: { rewrite fmap_Thrown_iff, toISOString_Thrown. split.
         - intros Hnone. by exists (String c s), p0, p1, p2.
         - intros (s' & q0 & q1 & q2 & [= <-] & _ & Hs & Hnone). rewrite Hsplit in Hs.
           by injection Hs as <- <- <-. }
    all: split;
      [ destruct (dateParse _) as [t|]; simpl; [|done];
        by destruct (JsDate.toISOString _)
      | intros (s' & q0 & q1 & q2 & [= <-] & _ & Hs & _); rewrite Hsplit in Hs;
        discriminate ].
  - split; [done |]. by intros (s & p0 & p1 & p2 & ? & _).
Qed.

(** A part that is not a number makes the date invalid. *)
Lemma newDate_None_part year month day :
  year = None ∨ month = None ∨ day = None →
  JsDate.newDate localTZA year month day = None.
Proof.
  unfold JsDate.newDate.
  intros [-> | [-> | ->]]; [done | by destruct year | by destruct year, month].
Qed.

End DateFacts.

Section MappingFacts.
Import Mapper.
Variable localTZA : Z → Z.
Variable dateParse : string → option Z.
Variable mapping : ColumnMapping.

Local Abbreviation formatDate := (formatDate localTZA dateParse).
Local Abbreviation mapRow := (mapRow localTZA dateParse mapping).
Local Abbreviation mapRows := (mapRows localTZA dateParse mapping).
Local Abbreviation processDataWithMapping :=
  (processDataWithMapping localTZA dateParse mapping).

Lemma mapRows_Thrown index rows :
  mapRows index rows = Thrown
  ↔ ∃ row, row ∈ rows ∧ formatDate (row !! dateColumn mapping) = Thrown.
Proof.
  revert index. induction rows as [|row rows IH]; intros index; simpl.
  - split; [done |]. intros (row & Hin & _). by apply elem_of_nil in Hin.
  - unfold Mapper.mapRow.
    destruct (formatDate (row !! dateColumn mapping)) as [d|] eqn:Hrow; simpl.
    + destruct (mapRows (S index) rows) as [txs|] eqn:Hrest; simpl.
      * split; [done |]. intros (row' & Hin & Hthrown).
        apply elem_of_cons in Hin as [-> | Hin]; [congruence |].
        assert (Hex : ∃ r, r ∈ rows ∧ formatDate (r !! dateColumn mapping) = Thrown)
          by eauto.
        apply (IH (S index)) in Hex. congruence.
      * split; [|done]. intros _.
        apply (IH (S index)) in Hrest as (row' & Hin & Hthrown).
        exists row'. split; [by apply elem_of_cons; right | done].
    + split; [|done]. intros _. exists row. split; [apply elem_of_cons; by left | done].
Qed.

Lemma processDataWithMapping_Thrown rows :
  processDataWithMapping rows = Thrown
  ↔ ∃ row, row ∈ rows ∧ formatDate (row !! dateColumn mapping) = Thrown.
Proof.
  rewrite <- (mapRows_Thrown 0). unfold Mapper.processDataWithMapping.
  by destruct (mapRows 0 rows).
Qed.

(** The identifiers of the mapper's output, from the positions kept. *)
Lemma processDataWithMapping_ids rows out :
  processDataWithMapping rows = Returned out →
  ∃ kept : list nat,
    StronglySorted lt kept ∧ id <$> out = (λ i : nat, "tx-" +:+ pretty i) <$> kept.
Proof.
  unfold Mapper.processDataWithMapping.
  destruct (mapRows 0 rows) as [txs|] eqn:Htxs; simpl; [|done]. intros [= <-].
  destruct (mapRows_filter localTZA dateParse mapping [] rows txs Htxs)
    as (kept & Hsorted & _ & Hrel).
  exists kept. split; [done |].
  induction Hrel as [|i tx kept' out' (row & _ & Hrow) _ IH]; [done |].
  rewrite !fmap_cons. f_equal.
  - by apply mapRow_fields in Hrow as (-> & _).
  - apply IH. by apply StronglySorted_inv in Hsorted as [? _].
Qed.

End MappingFacts.

Lemma StronglySorted_lt_NoDup (l : list nat) : StronglySorted lt l → NoDup l.
Proof.
  induction 1 as [|x l _ IH Hall]; constructor; [|done].
  intros Hin. apply (proj1 (Forall_forall _ _) Hall) in Hin. lia.
Qed.

(** X6: a date cell of three parts with an invalid date aborts the whole
    mapping: [processDataWithMapping] throws exactly when [formatDate]
    throws on the date cell of some row, [formatDate] throws exactly on a
    string that does not start like an ISO date, splits at [/], [.] and [-]
    into three parts, and gives an invalid [Date]; and a part that is not a
    number, as the month of "15-Mar-2024", is enough for that. *)
Theorem one_bad_date_aborts_mapping
    (localTZA : Z → Z) (dateParse : string → option Z)
    (mapping : Mapper.ColumnMapping) :
  (∀ rows,
     Mapper.processDataWithMapping localTZA dateParse mapping rows = Thrown
     ↔ ∃ row, row ∈ rows
              ∧ Mapper.formatDate localTZA dateParse (row !! Mapper.dateColumn mapping)
                = Thrown)
  ∧ (∀ dateStr,
       Mapper.formatDate localTZA dateParse dateStr = Thrown
       ↔ ∃ s p0 p1 p2,
           dateStr = Some s
           ∧ Mapper.matchesPrefix Mapper.isoPrefix s = false
           ∧ JsString.split Mapper.isDateSeparator s = [p0; p1; p2]
           ∧ JsDate.newDate localTZA (Mapper.addCentury <$> JsParse.parseInt p2)
               ((λ m, m - 1)%Z <$> JsParse.parseInt p0) (JsParse.parseInt p1) = None)
  ∧ (∀ s p0 p1 p2,
       Mapper.matchesPrefix Mapper.isoPrefix s = false →
       JsString.split Mapper.isDateSeparator s = [p0; p1; p2] →
       JsParse.parseInt p0 = None ∨ JsParse.parseInt p1 = None
       ∨ JsParse.parseInt p2 = None →
       Mapper.formatDate localTZA dateParse (Some s) = Thrown).
Proof.
  split; [apply processDataWithMapping_Thrown |].
  split; [apply formatDate_Thrown |].
  intros s p0 p1 p2 Hiso Hsplit Hpart. apply formatDate_Thrown.
  exists s, p0, p1, p2. repeat (split; [done |]).
  apply newDate_None_part.
  destruct Hpart as [-> | [-> | ->]]; auto.
Qed.

Lemma one_bad_date_aborts_mapping_witness :
  Mapper.processDataWithMapping (λ _, 0%Z) (λ _, None) statementColumns
    [datedRow "2024-03-14"; datedRow "15-Mar-2024"; datedRow "2024-03-16"]
  = Thrown.
Proof.
  destruct (one_bad_date_aborts_mapping (λ _, 0%Z) (λ _, None) statementColumns)
    as (Hrows & _ & Hparts).
  apply Hrows. exists (datedRow "15-Mar-2024"). split.
  - apply elem_of_cons. right. apply elem_of_cons. by left.
  - apply (Hparts "15-Mar-2024" "15" "Mar" "2024"); [reflexivity | reflexivity |].
    right. left. reflexivity.
Defined.

(** X7: the identifiers of the transactions the mapper returns are pairwise
    distinct. *)
Theorem mapped_ids_distinct
    (localTZA : Z → Z) (dateParse : string → option Z)
    (mapping : Mapper.ColumnMapping) (rows : list Mapper.RawRow)
    (out : list Mapper.MappedTransaction) :
  Mapper.processDataWithMapping localTZA dateParse mapping rows = Returned out →
  NoDup (Mapper.id <$> out).
Proof.
  intros (kept & Hsorted & ->)%processDataWithMapping_ids.
  apply NoDup_fmap_2; [|by apply StronglySorted_lt_NoDup].
  intros i j Heq. apply (inj (String.append "tx-")) in Heq. by apply (inj pretty).
Qed.

Lemma mapped_ids_distinct_witness : NoDup (Mapper.id <$> statementOutput).
Proof.
  apply (mapped_ids_distinct (λ _, 0%Z) (λ _, None) statementColumns statementRows).
  apply statementRows_mapped.
Defined.

(** A string that starts like an ISO date has at least ten characters, and
    its first ten start like an ISO date and are their own first ten. *)
Lemma isoPrefix_firstTen (s : string) :
  Mapper.matchesPrefix Mapper.isoPrefix s = true →
  String.length (Mapper.firstTen s) = 10
  ∧ Mapper.firstTen s ≠ EmptyString
  ∧ Mapper.matchesPrefix Mapper.isoPrefix (Mapper.firstTen s) = true
  ∧ Mapper.firstTen (Mapper.firstTen s) = Mapper.firstTen s.
Proof.
  unfold Mapper.isoPrefix, Mapper.firstTen. intros Hiso.
  do 10 (destruct s as [|? s];
         [ exfalso; simpl in Hiso;
           repeat (apply andb_true_iff in Hiso as [_ Hiso]); discriminate |]).
  repeat split; simpl in *; by destruct s.
Qed.

(** X8: a date cell that starts with [dddd-dd-dd] is cut to these ten
    characters, whatever the time zone of the host and whatever follows or
    whichever month and day the digits spell; and the result is a fixed
    point of [formatDate]. *)
Theorem iso_dates_pass_through
    (localTZA : Z → Z) (dateParse : string → option Z) (s : string) :
  Mapper.matchesPrefix Mapper.isoPrefix s = true →
  Mapper.formatDate localTZA dateParse (Some s) = Returned (Mapper.firstTen s)
  ∧ String.length (Mapper.firstTen s) = 10
  ∧ ∀ localTZA' dateParse',
      Mapper.formatDate localTZA' dateParse' (Some (Mapper.firstTen s))
      = Returned (Mapper.firstTen s).
Proof.
  intros Hiso.
  destruct (isoPrefix_firstTen s Hiso) as (Hlen & Hne & Hiso' & Hfix).
  assert (Hformat : ∀ tza parse s',
    s' ≠ EmptyString → Mapper.matchesPrefix Mapper.isoPrefix s' = true →
    Mapper.formatDate tza parse (Some s') = Returned (Mapper.firstTen s')).
  { intros tza parse s' Hs' Hpre. unfold Mapper.formatDate.
    destruct s' as [|c s']; [done |]. by rewrite Hpre. }
  split; [|split; [done |]].
  - apply Hformat; [|done]. intros ->. discriminate.
  - intros tza parse. rewrite <- Hfix at 2. by apply Hformat.
Qed.

Lemma iso_dates_pass_through_witness :
  Mapper.formatDate (λ _, 3600000%Z) (λ _, None) (Some "2024-03-15T23:30:00+01:00")
  = Returned "2024-03-15".
Proof.
  by destruct (iso_dates_pass_through (λ _, 3600000%Z) (λ _, None)
                 "2024-03-15T23:30:00+01:00" eq_refl) as [-> _].
Defined.

(** ** The amount cell *)

Lemma keepAmountChars_app (s1 s2 : string) :
  JsParse.keepAmountChars (s1 +:+ s2)
  = JsParse.keepAmountChars s1 +:+ JsParse.keepAmountChars s2.
Proof.
  induction s1 as [|c s1 IH]; [done |].
  rewrite append_cons. simpl. rewrite IH.
  by destruct (JsParse.isDigit c || _ || _).
Qed.

Lemma digitValue_digit (c : ascii) :
  JsParse.isDigit c = false → JsParse.digitValue 10 c = None.
Proof. destruct c as [[] [] [] [] [] [] [] []]; vm_compute; congruence. Qed.

Lemma digitsPrefix_digitFree (acc : Z) (seen : bool) (s : string) :
  digitFree s = true → JsParse.digitsPrefix 10 acc seen s = (acc, seen, s).
Proof.
  destruct s as [|c s]; [done |]. simpl.
  intros [Hc _]%andb_true_iff. apply negb_true_iff in Hc.
  by rewrite (digitValue_digit c Hc).
Qed.

Lemma keepAmountChars_digitFree (s : string) :
  digitFree s = true → digitFree (JsParse.keepAmountChars s) = true.
Proof.
  induction s as [|c s IH]; [done |]. simpl.
  intros [Hc Hs]%andb_true_iff.
  destruct (JsParse.isDigit c || _ || _); [|by apply IH].
  simpl. rewrite Hc. by apply IH.
Qed.

(** Without a digit there is no number. *)
Lemma parseFloat_digitFree (s : string) :
  digitFree s = true → JsParse.parseFloat s = NaN.
Proof.
  intros Hfree. unfold JsParse.parseFloat.
  assert (Hcases : ∃ negative s',
    digitFree s' = true
    ∧ match s with
      | String "-" r => (true, r)
      | _ => (false, s)
      end = (negative, s')).
  { destruct s as [|c s]; [by exists false, EmptyString |].
    simpl in Hfree. apply andb_true_iff in Hfree as [Hc Hs].
    destruct (decide (c = "-"%char)) as [-> | Hne]; [by exists true, s |].
    exists false, (String c s). split; [simpl; by rewrite Hc, Hs |].
    destruct c as [[] [] [] [] [] [] [] []]; done. }
  destruct Hcases as (negative & s' & Hs' & ->).
  rewrite (digitsPrefix_digitFree 0 false s' Hs').
  assert (Hfrac : ∃ places,
    match s' with
    | String "." r =>
        let '(f, seen, _) := JsParse.digitsPrefix 10 0 false r in
        (f, seen, JsParse.countDigits r)
    | _ => (0%Z, false, O)
    end = (0%Z, false, places)).
  { destruct s' as [|c r]; [by exists O |].
    simpl in Hs'. apply andb_true_iff in Hs' as [_ Hr].
    destruct (decide (c = "."%char)) as [-> | Hne].
    - rewrite (digitsPrefix_digitFree 0 false r Hr). by eexists.
    - exists O. destruct c as [[] [] [] [] [] [] [] []]; done. }
  destruct Hfrac as [places ->]. done.
Qed.

Lemma amountOf_digitFree (s : string) :
  digitFree s = true → Mapper.amountOf (Some s) = Some JsNumber.zero.
Proof.
  intros Hfree. unfold Mapper.amountOf. simpl.
  by rewrite (parseFloat_digitFree _ (keepAmountChars_digitFree s Hfree)).
Qed.

(** X9: how an amount cell is read.  A character other than a digit, a dot or
    a minus sign, wherever it stands, does not change the amount; the amount
    is never NaN; a cell without a digit reads as zero, and the row of such
    a cell is never in the mapper's output. *)
Theorem amount_cell_reading :
  (∀ s1 c s2,
     isAmountChar c = false →
     Mapper.amountOf (Some (s1 +:+ String c s2)) = Mapper.amountOf (Some (s1 +:+ s2)))
  ∧ (∀ cell n, Mapper.amountOf cell = Some n → JsNumber.isNaN n = false)
  ∧ (∀ s, digitFree s = true → Mapper.amountOf (Some s) = Some JsNumber.zero)
  ∧ (∀ localTZA dateParse mapping rows out i row s,
       Mapper.processDataWithMapping localTZA dateParse mapping rows = Returned out →
       rows !! i = Some row →
       row !! Mapper.amountColumn mapping = Some s →
       digitFree s = true →
       ∀ tx, tx ∈ out → Mapper.id tx ≠ "tx-" +:+ pretty i).
Proof.
  split; [|split; [|split; [exact amountOf_digitFree |]]].
  - intros s1 c s2 Hc. unfold Mapper.amountOf. simpl. do 3 f_equal.
    rewrite !keepAmountChars_app. f_equal. simpl.
    unfold isAmountChar in Hc. by rewrite Hc.
  - intros [s|] n; [|done]. unfold Mapper.amountOf. simpl. intros [= <-].
    destruct (JsParse.parseFloat _) as [| |q]; [done | done |].
    simpl. by destruct (JsNumber.isZero q).
  - intros localTZA dateParse mapping rows out i row s.
    unfold Mapper.processDataWithMapping.
    destruct (Mapper.mapRows _ _ _ 0 rows) as [txs|] eqn:Htxs; simpl; [| done].
    intros [= <-] Hrow Hcell Hfree tx [Hkeep Hin]%list_elem_of_filter Hid.
    apply list_elem_of_lookup_1 in Hin as [j Hj].
    destruct (mapRows_lookup _ _ _ _ _ _ _ _ Htxs Hj) as (row' & Hrow' & Hmap).
    apply mapRow_fields in Hmap as (Hid' & _ & Hamount & _).
    rewrite Hid' in Hid. simpl in Hid.
    apply (inj (String.app "tx-")), (inj pretty) in Hid. subst j.
    rewrite Hrow in Hrow'. injection Hrow' as <-.
    rewrite Hcell, (amountOf_digitFree s Hfree) in Hamount.
    by apply (keep_amount tx 0%Q Hkeep).
Qed.

Lemma amount_cell_reading_witness :
  Mapper.amountOf (Some "$2,500.00") = Mapper.amountOf (Some "2,500.00")
  ∧ Mapper.amountOf (Some "n/a") = Some JsNumber.zero.
Proof.
  destruct amount_cell_reading as (Hdecoration & _ & Hfree & _).
  split.
  - apply (Hdecoration EmptyString "$"%char "2,500.00"). reflexivity.
  - apply (Hfree "n/a"). reflexivity.
Defined.

(** ** The rows of the category statistics *)

Section GroupFacts.
Import Aggregator.
Implicit Types (stats : Stats) (t : Tx.Transaction) (txs : list Tx.Transaction).

Lemma elem_of_update key f stats k v :
  NoDup (keysOf stats) →
  (k, v) ∈ update key f stats →
  (k ≠ key ∧ (k, v) ∈ stats) ∨ (k = key ∧ ∃ v0, (key, v0) ∈ stats ∧ v = f v0).
Proof.
  induction stats as [|[k0 v0] stats IH]; simpl.
  - intros _ Hin. by apply elem_of_nil in Hin.
  - intros [Hfresh Hnodup]%NoDup_cons. case_bool_decide as Hk.
    + subst k0. intros [[= -> ->] | Hin]%elem_of_cons.
      * right. split; [done |]. exists v0. split; [apply elem_of_cons; by left | done].
      * left. split; [| apply elem_of_cons; by right].
        intros ->. apply Hfresh. apply list_elem_of_fmap. by exists (key, v).
    + intros [[= -> ->] | Hin]%elem_of_cons.
      * left. split; [done | apply elem_of_cons; by left].
      * destruct (IH Hnodup Hin) as [[Hne Hin'] | (-> & v1 & Hin' & ->)].
        -- left. split; [done | apply elem_of_cons; by right].
        -- right. split; [done |]. exists v1. split; [apply elem_of_cons; by right | done].
Qed.

Lemma groupMembers_snoc c txs t :
  groupMembers c (txs ++ [t])
  = if decide (groupOf t = c) then groupMembers c txs ++ [t] else groupMembers c txs.
Proof.
  unfold groupMembers. rewrite filter_app, filter_cons, filter_nil.
  destruct (decide (groupOf t = c)); [done | apply app_nil_r].
Qed.

Lemma sumOfAmounts_snoc txs t :
  sumOfAmounts (txs ++ [t]) = JsNumber.add (sumOfAmounts txs) (Tx.amount t).
Proof. unfold sumOfAmounts. by rewrite fold_left_app. Qed.

Lemma tallyOf_snoc c txs t :
  tallyOf c (txs ++ [t])
  = if decide (groupOf t = c)
    then {| tallyCount := tallyCount (tallyOf c txs) + 1;
            tallyTotal := JsNumber.add (tallyTotal (tallyOf c txs)) (Tx.amount t) |}
    else tallyOf c txs.
Proof.
  unfold tallyOf. rewrite groupMembers_snoc.
  destruct (decide (groupOf t = c)); [|done].
  rewrite length_app, sumOfAmounts_snoc. done.
Qed.

(** What the [forEach] has built after the transactions [txs]: one own
    property for each group met whose name is not inherited, holding the
    number and the sum, in order, of the group's transactions. *)
Lemma fold_tally_groups txs :
  let stats := fold_left tally txs [] in
  NoDup (keysOf stats)
  ∧ (∀ k v, (k, v) ∈ stats →
       isInherited k = false ∧ v = tallyOf k txs ∧ groupMembers k txs ≠ [])
  ∧ (∀ t, t ∈ txs → isInherited (groupOf t) = false → groupOf t ∈ keysOf stats).
Proof.
  induction txs as [|t txs IH] using rev_ind; simpl.
  - split; [constructor |]. split.
    + intros k v Hin. by apply elem_of_nil in Hin.
    + intros t Hin. by apply elem_of_nil in Hin.
  - rewrite fold_left_app. simpl. simpl in IH.
    set (stats := fold_left tally txs []) in *.
    destruct IH as (Hnodup & Hrows & Hkeys).
    assert (Hother : ∀ k v, (k, v) ∈ stats → k ≠ groupOf t →
              isInherited k = false ∧ v = tallyOf k (txs ++ [t])
              ∧ groupMembers k (txs ++ [t]) ≠ []).
    { intros k v Hin Hne. destruct (Hrows k v Hin) as (Hk & -> & Hmembers).
      split; [done |]. rewrite tallyOf_snoc, groupMembers_snoc.
      by rewrite !decide_False by done. }
    split; [|split].
    + rewrite tally_keys. destruct (isInherited (groupOf t)); [done |].
      destruct (decide (groupOf t ∈ keysOf stats)) as [Hin | Hnot]; [done |].
      apply NoDup_app. split; [done |]. split; [|apply NoDup_singleton].
      intros k Hk ->%list_elem_of_singleton. done.
    + intros k v. unfold tally.
      destruct (isInherited (groupOf t)) eqn:Hinh.
      { intros Hin. apply Hother; [done |]. intros ->.
        destruct (Hrows _ _ Hin) as (Hk & _). congruence. }
      destruct (getOwn (groupOf t) stats) as [v0|] eqn:Hown.
      * intros Hin. apply elem_of_update in Hin; [|done].
        destruct Hin as [[Hne Hin] | (-> & v1 & Hin & ->)]; [by apply Hother |].
        destruct (Hrows _ _ Hin) as (_ & -> & _).
        split; [done |]. rewrite tallyOf_snoc, groupMembers_snoc.
        rewrite !decide_True by done. split; [done |]. by destruct (groupMembers _ txs).
      * apply getOwn_None in Hown. intros Hin. apply elem_of_update in Hin.
        2: { unfold define, keysOf. rewrite fmap_app. simpl.
             apply NoDup_app. split; [done |]. split; [|apply NoDup_singleton].
             intros k' Hk' ->%list_elem_of_singleton. done. }
        destruct Hin as [[Hne Hin] | (-> & v1 & Hin & ->)].
        -- apply Hother; [|done]. unfold define in Hin.
           apply elem_of_app in Hin as [Hin | Hin]; [done |].
           apply list_elem_of_singleton in Hin. congruence.
        -- split; [done |]. unfold define in Hin.
           apply elem_of_app in Hin as [Hin | Hin].
           { exfalso. apply Hown. apply list_elem_of_fmap. by exists (groupOf t, v1). }
           apply list_elem_of_singleton in Hin. injection Hin as ->.
           assert (Hempty : groupMembers (groupOf t) txs = []).
           { destruct (groupMembers (groupOf t) txs) as [|t' l] eqn:Hmembers; [done |].
             exfalso. assert (Hin : t' ∈ groupMembers (groupOf t) txs).
             { rewrite Hmembers. apply elem_of_cons. by left. }
             apply list_elem_of_filter in Hin as [Hgroup Hin].
             apply Hown. rewrite <- Hgroup. apply Hkeys; [done |]. by rewrite Hgroup. }
           rewrite tallyOf_snoc, groupMembers_snoc. rewrite !decide_True by done.
           unfold tallyOf. rewrite Hempty. done.
    + intros t' Hin Hinh. rewrite tally_keys.
      apply elem_of_app in Hin as [Hin | ->%list_elem_of_singleton].
      * specialize (Hkeys t' Hin Hinh).
        destruct (isInherited (groupOf t)); [done |].
        destruct (decide (groupOf t ∈ keysOf stats)); [done |].
        apply elem_of_app. by left.
      * rewrite Hinh. destruct (decide (groupOf t ∈ keysOf stats)); [done |].
        apply elem_of_app. right. by apply list_elem_of_singleton.
Qed.

End GroupFacts.

Lemma getCategoryStats_perm (transactions : list Tx.Transaction) :
  Aggregator.getCategoryStats transactions
  ≡ₚ Aggregator.statOf transactions <$> fold_left Aggregator.tally transactions [].
Proof.
  unfold Aggregator.getCategoryStats. rewrite sort_perm.
  apply fmap_Permutation, entries_perm.
Qed.

Lemma getCategoryStats_categories (transactions : list Tx.Transaction) :
  Aggregator.category <$> Aggregator.getCategoryStats transactions
  ≡ₚ keysOf (fold_left Aggregator.tally transactions []).
Proof.
  rewrite getCategoryStats_perm, <- list_fmap_compose.
  apply reflexive_eq, list_fmap_ext. by intros i [k v] _.
Qed.

Lemma getCategoryStats_elem_of (transactions : list Tx.Transaction) s :
  s ∈ Aggregator.getCategoryStats transactions
  ↔ ∃ k v, (k, v) ∈ fold_left Aggregator.tally transactions []
           ∧ s = Aggregator.statOf transactions (k, v).
Proof.
  rewrite getCategoryStats_perm, list_elem_of_fmap. split.
  - intros ([k v] & -> & Hin). by exists k, v.
  - intros (k & v & Hin & ->). by exists (k, v).
Qed.

(** X10: the table has one row for each group of transactions whose name is not
    a member of [Object.prototype], and no two rows for one group; the
    count of a row is the number of transactions of its group, at least
    one, and its total is the sum of their amounts, added in their order. *)
Theorem category_rows_tally_groups (transactions : list Tx.Transaction) :
  NoDup (Aggregator.category <$> Aggregator.getCategoryStats transactions)
  ∧ (∀ s, s ∈ Aggregator.getCategoryStats transactions →
       Aggregator.isInherited (Aggregator.category s) = false
       ∧ Aggregator.count s
         = length (groupMembers (Aggregator.category s) transactions)
       ∧ 0 < Aggregator.count s
       ∧ Aggregator.total s
         = Aggregator.sumOfAmounts (groupMembers (Aggregator.category s) transactions))
  ∧ (∀ t, t ∈ transactions →
       Aggregator.isInherited (Aggregator.groupOf t) = false →
       Aggregator.groupOf t
       ∈ Aggregator.category <$> Aggregator.getCategoryStats transactions).
Proof.
  destruct (fold_tally_groups transactions) as (Hnodup & Hrows & Hkeys).
  split; [|split].
  - by rewrite getCategoryStats_categories.
  - intros s (k & v & Hin & ->)%getCategoryStats_elem_of.
    destruct (Hrows k v Hin) as (Hk & -> & Hmembers). simpl.
    repeat split; [done |]. destruct (groupMembers k transactions); [done | simpl; lia].
  - intros t Hin Hinh. rewrite getCategoryStats_categories. by apply Hkeys.
Qed.

Lemma category_rows_tally_groups_witness :
  "Groceries" ∈ Aggregator.category <$> Aggregator.getCategoryStats monthOfSpending.
Proof.
  destruct (category_rows_tally_groups monthOfSpending) as (_ & _ & Hpresent).
  apply (Hpresent (categorized "Groceries" (JsNumber.ofZ 20))); [|reflexivity].
  do 2 (apply elem_of_cons; right). apply elem_of_cons. by left.
Defined.

(** A statement none of whose transactions has a category yet. *)
Lemma fold_tally_uncategorized (transactions : list Tx.Transaction) :
  transactions ≠ [] →
  Forall (λ t, Tx.category t = EmptyString) transactions →
  fold_left Aggregator.tally transactions []
  = [("Uncategorized",
      {| Aggregator.tallyCount := length transactions;
         Aggregator.tallyTotal := Aggregator.sumOfAmounts transactions |})].
Proof.
  intros Hne Hall.
  assert (Hgroup : ∀ t, t ∈ transactions → Aggregator.groupOf t = "Uncategorized").
  { intros t Hin. apply (proj1 (Forall_forall _ _) Hall) in Hin.
    unfold Aggregator.groupOf. by rewrite Hin. }
  assert (Hmembers : groupMembers "Uncategorized" transactions = transactions).
  { unfold groupMembers. clear Hne Hall.
    induction transactions as [|t txs IH]; [done |].
    rewrite filter_cons, decide_True by (apply Hgroup, elem_of_cons; by left).
    f_equal. apply IH. intros t' Hin. apply Hgroup, elem_of_cons. by right. }
  destruct (fold_tally_groups transactions) as (Hnodup & Hrows & Hkeys).
  simpl in *. set (stats := fold_left Aggregator.tally transactions []) in *.
  assert (Hkey : ∀ k v, (k, v) ∈ stats →
            k = "Uncategorized" ∧ v = tallyOf "Uncategorized" transactions).
  { intros k v Hin. destruct (Hrows k v Hin) as (_ & -> & Hsome).
    destruct (groupMembers k transactions) as [|t l] eqn:Hk; [done |].
    assert (Ht : t ∈ groupMembers k transactions).
    { rewrite Hk. apply elem_of_cons. by left. }
    apply list_elem_of_filter in Ht as [<- Ht]. by rewrite (Hgroup t Ht). }
  assert (Hin : "Uncategorized" ∈ keysOf stats).
  { destruct transactions as [|t txs]; [done |].
    rewrite <- (Hgroup t) by (apply elem_of_cons; by left).
    apply Hkeys; [apply elem_of_cons; by left |].
    rewrite (Hgroup t) by (apply elem_of_cons; by left). reflexivity. }
  destruct stats as [|[k v] [|[k' v'] rest]].
  - by apply elem_of_nil in Hin.
  - destruct (Hkey k v) as [-> ->]; [apply elem_of_cons; by left |].
    unfold tallyOf. by rewrite Hmembers.
  - exfalso.
    destruct (Hkey k v) as [-> _]; [apply elem_of_cons; by left |].
    destruct (Hkey k' v') as [-> _].
    { apply elem_of_cons. right. apply elem_of_cons. by left. }
    apply NoDup_cons in Hnodup as [Hfresh _]. apply Hfresh.
    apply elem_of_cons. by left.
Qed.

(** X11: before any categorization, when every transaction still has the empty
    category the mapper gave it, the statistics are the one row
    "Uncategorized" counting all transactions, with the sum of all amounts
    as its total; its percentage is 100 when that sum is finite and not
    zero. *)
Theorem uncategorized_statement_one_row (transactions : list Tx.Transaction) :
  transactions ≠ [] →
  Forall (λ t, Tx.category t = EmptyString) transactions →
  Aggregator.getCategoryStats transactions
  = [ {| Aggregator.category := "Uncategorized";
         Aggregator.count := length transactions;
         Aggregator.total := Aggregator.sumOfAmounts transactions;
         Aggregator.percentage :=
           JsNumber.mul
             (JsNumber.div (Aggregator.sumOfAmounts transactions)
                (Aggregator.sumOfAmounts transactions))
             (JsNumber.ofZ 100) |} ]
  ∧ ∀ q, Aggregator.sumOfAmounts transactions = Fin q → ¬ (q == 0)%Q →
         JsNumber.strictEq
           (JsNumber.mul
              (JsNumber.div (Aggregator.sumOfAmounts transactions)
                 (Aggregator.sumOfAmounts transactions))
              (JsNumber.ofZ 100))
           (JsNumber.ofZ 100) = true.
Proof.
  intros Hne Hall. split.
  - unfold Aggregator.getCategoryStats.
    rewrite (fold_tally_uncategorized transactions Hne Hall).
    unfold Aggregator.entries, Aggregator.isArrayIndex. simpl. reflexivity.
  - intros q -> Hq. unfold JsNumber.div, JsNumber.isZero.
    destruct (Qeq_bool q 0) eqn:Hzero; [by apply Qeq_bool_iff in Hzero |].
    simpl. apply Qeq_bool_iff. unfold inject_Z. field. done.
Qed.

Lemma uncategorized_statement_one_row_witness :
  Aggregator.category
    <$> Aggregator.getCategoryStats
          [categorized EmptyString (JsNumber.ofZ 12);
           categorized EmptyString (JsNumber.ofZ (-4))]
  = ["Uncategorized"].
Proof.
  destruct (uncategorized_statement_one_row
              [categorized EmptyString (JsNumber.ofZ 12);
               categorized EmptyString (JsNumber.ofZ (-4))]) as [-> _].
  - discriminate.
  - by repeat constructor.
  - reflexivity.
Defined.

(** ** Editing and deleting rows *)

Section PageFacts.
Import Page.
Implicit Types (t u : Tx.Transaction) (txs : list Tx.Transaction).

Lemma handleUpdateTransaction_ids u txs :
  Tx.id <$> handleUpdateTransaction u txs = Tx.id <$> txs.
Proof.
  unfold handleUpdateTransaction. rewrite <- list_fmap_compose.
  apply list_fmap_ext. intros i t _. simpl. by case_bool_decide.
Qed.

Lemma handleUpdateTransaction_absent u txs :
  Tx.id u ∉ Tx.id <$> txs → handleUpdateTransaction u txs = txs.
Proof.
  intros Hnot. unfold handleUpdateTransaction.
  rewrite <- (list_fmap_id txs) at 2. apply list_fmap_ext. intros i t Hi. simpl.
  rewrite bool_decide_eq_false_2; [done |]. intros Heq. apply Hnot.
  rewrite <- Heq. apply list_elem_of_fmap. exists t. split; [done |].
  by eapply list_elem_of_lookup_2.
Qed.

Lemma handleUpdateTransaction_insert u txs i t :
  NoDup (Tx.id <$> txs) → txs !! i = Some t → Tx.id t = Tx.id u →
  handleUpdateTransaction u txs = <[i := u]> txs.
Proof.
  intros Hnodup Hi Hid. apply list_eq. intros j.
  unfold handleUpdateTransaction. rewrite list_lookup_fmap.
  destruct (decide (j = i)) as [-> | Hne].
  - rewrite Hi. simpl. rewrite bool_decide_eq_true_2 by done.
    symmetry. apply list_lookup_insert_eq. by eapply lookup_lt_Some.
  - rewrite list_lookup_insert_ne by done.
    destruct (txs !! j) as [t'|] eqn:Hj; [|done]. simpl.
    rewrite bool_decide_eq_false_2; [done |]. intros Heq. apply Hne.
    apply (NoDup_lookup _ j i (Tx.id t') Hnodup); rewrite list_lookup_fmap.
    + by rewrite Hj.
    + rewrite Hi. simpl. congruence.
Qed.

Lemma filter_all {A} (P : A → Prop) `{∀ x, Decision (P x)} (l : list A) :
  (∀ x, x ∈ l → P x) → filter P l = l.
Proof.
  induction l as [|x l IH]; intros Hall; [done |].
  rewrite filter_cons, decide_True by (apply Hall, elem_of_cons; by left).
  f_equal. apply IH. intros y Hy. apply Hall, elem_of_cons. by right.
Qed.

Lemma handleDeleteTransaction_absent id txs :
  id ∉ Tx.id <$> txs → handleDeleteTransaction id txs = txs.
Proof.
  intros Hnot. apply filter_all. intros t Hin Heq. apply Hnot.
  apply list_elem_of_fmap. by exists t.
Qed.

Lemma handleDeleteTransaction_delete txs i t :
  NoDup (Tx.id <$> txs) → txs !! i = Some t →
  handleDeleteTransaction (Tx.id t) txs = delete i txs.
Proof.
  revert i. induction txs as [|t0 txs IH]; intros i; [done |].
  rewrite fmap_cons. intros [Hfresh Hnodup]%NoDup_cons Hi.
  unfold handleDeleteTransaction in *. rewrite filter_cons.
  destruct i as [|i]; simpl in Hi.
  - injection Hi as ->. rewrite decide_False by (intros Hne; by apply Hne).
    simpl. by apply handleDeleteTransaction_absent.
  - rewrite decide_True.
    + simpl. f_equal. by apply IH.
    + intros Heq. apply Hfresh. rewrite Heq. apply list_elem_of_fmap.
      exists t. split; [done |]. by eapply list_elem_of_lookup_2.
Qed.

End PageFacts.

(** X12: saving an edited transaction keeps the identifiers of the list, in
    their order.  It changes nothing when no transaction has the edited
    identifier, and when the identifiers are pairwise distinct it replaces
    the one transaction with that identifier and leaves every other
    position as it was. *)
Theorem update_replaces_one_row
    (updated : Tx.Transaction) (transactions : list Tx.Transaction) :
  Tx.id <$> Page.handleUpdateTransaction updated transactions = Tx.id <$> transactions
  ∧ (Tx.id updated ∉ Tx.id <$> transactions →
     Page.handleUpdateTransaction updated transactions = transactions)
  ∧ (NoDup (Tx.id <$> transactions) →
     ∀ i t, transactions !! i = Some t → Tx.id t = Tx.id updated →
            Page.handleUpdateTransaction updated transactions
            = <[i := updated]> transactions).
Proof.
  split; [apply handleUpdateTransaction_ids |].
  split; [apply handleUpdateTransaction_absent |].
  intros Hnodup i t. by apply handleUpdateTransaction_insert.
Qed.

Lemma update_replaces_one_row_witness :
  NoDup (Tx.id <$> threeRows)
  ∧ Page.handleUpdateTransaction (tableRow "tx-1" "Travel" (JsNumber.ofZ (-31))) threeRows
    = [ tableRow "tx-0" "Shopping" (JsNumber.ofZ 30);
        tableRow "tx-1" "Travel" (JsNumber.ofZ (-31));
        tableRow "tx-2" "Income" (JsNumber.ofZ 2500) ].
Proof.
  assert (Hnodup : NoDup (Tx.id <$> threeRows)).
  { apply (bool_decide_unpack _). vm_compute. exact I. }
  split; [exact Hnodup |].
  destruct (update_replaces_one_row (tableRow "tx-1" "Travel" (JsNumber.ofZ (-31)))
              threeRows) as (_ & _ & Hinsert).
  apply (Hinsert Hnodup 1 (tableRow "tx-1" EmptyString (JsNumber.ofZ (-12))));
    reflexivity.
Defined.

(** X13: deleting by identifier leaves no transaction with that identifier and
    keeps the others in their order.  It changes nothing when no transaction
    has the identifier, and when the identifiers are pairwise distinct it
    removes exactly the one position that has it, and the identifiers stay
    pairwise distinct. *)
Theorem delete_removes_one_row (id : string) (transactions : list Tx.Transaction) :
  (id ∉ Tx.id <$> Page.handleDeleteTransaction id transactions)
  ∧ (Page.handleDeleteTransaction id transactions) `sublist_of` transactions
  ∧ (id ∉ Tx.id <$> transactions →
     Page.handleDeleteTransaction id transactions = transactions)
  ∧ (NoDup (Tx.id <$> transactions) →
     NoDup (Tx.id <$> Page.handleDeleteTransaction id transactions)
     ∧ ∀ i t, transactions !! i = Some t → Tx.id t = id →
              Page.handleDeleteTransaction id transactions = delete i transactions).
Proof.
  split; [|split; [|split]].
  - intros (t & Heq & [Hne _]%list_elem_of_filter)%list_elem_of_fmap. by apply Hne.
  - apply sublist_filter.
  - apply handleDeleteTransaction_absent.
  - intros Hnodup. split.
    + apply (sublist_NoDup _ (Tx.id <$> transactions) Hnodup).
      apply fmap_sublist, sublist_filter.
    + intros i t Hi <-. by apply handleDeleteTransaction_delete.
Qed.

Lemma delete_removes_one_row_witness :
  NoDup (Tx.id <$> threeRows)
  ∧ Page.handleDeleteTransaction "tx-1" threeRows
    = [ tableRow "tx-0" "Shopping" (JsNumber.ofZ 30);
        tableRow "tx-2" "Income" (JsNumber.ofZ 2500) ]
  ∧ NoDup (Tx.id <$> Page.handleDeleteTransaction "tx-1" threeRows).
Proof.
  assert (Hnodup : NoDup (Tx.id <$> threeRows)).
  { apply (bool_decide_unpack _). vm_compute. exact I. }
  destruct (delete_removes_one_row "tx-1" threeRows) as (_ & _ & _ & Hdelete).
  destruct (Hdelete Hnodup) as [Hkept Hat].
  split; [exact Hnodup |]. split; [| exact Hkept].
  apply (Hat 1 (tableRow "tx-1" EmptyString (JsNumber.ofZ (-12)))); reflexivity.
Defined.

Section TableFacts.
Import Table.

Lemma assign_id form change : Tx.id (assign form change) = Tx.id form.
Proof. by destruct change. Qed.

Lemma applyChanges_id changes t : Tx.id (applyChanges changes t) = Tx.id t.
Proof.
  revert t. induction changes as [|change changes IH]; intros t; [done |].
  unfold applyChanges in *. simpl. by rewrite IH, assign_id.
Qed.

(** The form holds the transaction with the changes made so far. *)
Lemma editSession_form t changes :
  editSession t changes
  = {| editingId := Some (Tx.id t); editForm := Some (applyChanges changes t) |}.
Proof.
  unfold editSession, applyChanges, handleEdit.
  generalize (Some (Tx.id t)). revert t.
  induction changes as [|change changes IH]; intros t editing; [done |].
  simpl. unfold handleInputChange at 2. simpl. apply IH.
Qed.

Lemma hash_from (acc : N) (codeUnits : list N) :
  fold_left (λ acc char, acc + char)%N codeUnits acc = (acc + hash codeUnits)%N.
Proof.
  unfold hash. revert acc. induction codeUnits as [|c l IH]; intros acc; simpl.
  - lia.
  - rewrite (IH (acc + c)%N), (IH (0 + c)%N). lia.
Qed.

Lemma hash_cons (c : N) (codeUnits : list N) :
  hash (c :: codeUnits) = (c + hash codeUnits)%N.
Proof. unfold hash at 1. simpl. by rewrite hash_from. Qed.

Lemma hash_perm (l k : list N) : l ≡ₚ k → hash l = hash k.
Proof.
  induction 1 as [|c l k _ IH|c d l|l k m _ IH1 _ IH2]; [done | | |congruence].
  - by rewrite !hash_cons, IH.
  - rewrite !hash_cons. lia.
Qed.

End TableFacts.

(** X14: an edit session on a row of a list whose identifiers are pairwise
    distinct, saved: the row holds the transaction with the changes applied
    in the order they were typed, every other position is as it was, the
    identifiers are unchanged, and the form is closed.  A session without
    changes leaves the list as it was. *)
Theorem edit_session_rewrites_its_row
    (transactions : list Tx.Transaction) (i : nat) (t : Tx.Transaction)
    (changes : list Table.Change) :
  NoDup (Tx.id <$> transactions) →
  transactions !! i = Some t →
  Table.handleSaveEdit (editSession t changes) transactions
    = (Table.notEditing, <[i := applyChanges changes t]> transactions)
  ∧ Tx.id <$> <[i := applyChanges changes t]> transactions = Tx.id <$> transactions
  ∧ Table.handleSaveEdit (editSession t []) transactions
    = (Table.notEditing, transactions).
Proof.
  intros Hnodup Hi.
  assert (Hsave : ∀ changes',
    Table.handleSaveEdit (editSession t changes') transactions
    = (Table.notEditing, <[i := applyChanges changes' t]> transactions)).
  { intros changes'. rewrite editSession_form. unfold Table.handleSaveEdit. simpl.
    f_equal. apply (handleUpdateTransaction_insert _ _ i t); [done | done |].
    by rewrite applyChanges_id. }
  split; [apply Hsave |]. split.
  - rewrite list_fmap_insert, applyChanges_id. apply list_insert_id.
    by rewrite list_lookup_fmap, Hi.
  - rewrite Hsave. f_equal. by apply list_insert_id.
Qed.

Lemma edit_session_rewrites_its_row_witness :
  NoDup (Tx.id <$> threeRows)
  ∧ Table.handleSaveEdit
      (editSession (tableRow "tx-1" EmptyString (JsNumber.ofZ (-12)))
         [Table.ChangeCategory "Travel"; Table.ChangeAmount (JsNumber.ofZ (-31))])
      threeRows
    = (Table.notEditing,
       [ tableRow "tx-0" "Shopping" (JsNumber.ofZ 30);
         tableRow "tx-1" "Travel" (JsNumber.ofZ (-31));
         tableRow "tx-2" "Income" (JsNumber.ofZ 2500) ]).
Proof.
  assert (Hnodup : NoDup (Tx.id <$> threeRows)).
  { apply (bool_decide_unpack _). vm_compute. exact I. }
  split; [exact Hnodup |].
  destruct (edit_session_rewrites_its_row threeRows 1
              (tableRow "tx-1" EmptyString (JsNumber.ofZ (-12)))
              [Table.ChangeCategory "Travel"; Table.ChangeAmount (JsNumber.ofZ (-31))]
              Hnodup eq_refl) as [-> _].
  reflexivity.
Defined.

(** X15: every category gets one of the twelve colours, the empty category the
    first; and two categories whose code units are the same up to their
    order get the same colour. *)
Theorem every_category_gets_a_colour (codeUnits : string → list N) :
  (∀ category,
     ∃ colour, Table.getCategoryColor codeUnits category = Some colour
               ∧ colour ∈ Table.colors)
  ∧ (codeUnits EmptyString = [] →
     Table.getCategoryColor codeUnits EmptyString = Some "bg-blue-500")
  ∧ (∀ a b, codeUnits a ≡ₚ codeUnits b →
            Table.getCategoryColor codeUnits a = Table.getCategoryColor codeUnits b).
Proof.
  split; [|split].
  - intros category. unfold Table.getCategoryColor, Table.colorOf.
    assert (Hlt : N.to_nat (Table.hash (codeUnits category)
                            mod N.of_nat (length Table.colors))%N
                  < length Table.colors).
    { pose proof (N.mod_lt (Table.hash (codeUnits category))
                    (N.of_nat (length Table.colors))) as Hmod.
      simpl in *. lia. }
    apply lookup_lt_is_Some_2 in Hlt as [colour Hcolour].
    exists colour. split; [done |]. by eapply list_elem_of_lookup_2.
  - intros Hempty. unfold Table.getCategoryColor. by rewrite Hempty.
  - intros a b Hperm. unfold Table.getCategoryColor, Table.colorOf.
    by rewrite (hash_perm _ _ Hperm).
Qed.

Lemma every_category_gets_a_colour_witness :
  Table.getCategoryColor Table.codeUnitsAscii "Rent"
  = Table.getCategoryColor Table.codeUnitsAscii "teRn".
Proof.
  destruct (every_category_gets_a_colour Table.codeUnitsAscii) as (_ & _ & Hperm).
  apply Hperm. apply (bool_decide_unpack _). vm_compute. exact I.
Defined.

(** X16: every category the keyword classifier can return, and every category
    the prompt enumerates for the remote classifier, is an option of the
    category selector of the edit form; and the selector lists no option
    twice. *)
Theorem selector_offers_assigned_categories :
  (∀ (toLowerCase : string → string) (description : string),
     Keywords.categorizeWithKeywords toLowerCase description ∈ Table.categories)
  ∧ (∀ category, category ∈ Adapter.promptVocabulary → category ∈ Table.categories)
  ∧ NoDup Table.categories.
Proof.
  assert (Hsub : ∀ l : list string,
    bool_decide (Forall (λ c, c ∈ Table.categories) l) = true →
    ∀ c, c ∈ l → c ∈ Table.categories).
  { intros l Hall%bool_decide_eq_true c Hc.
    by apply (proj1 (Forall_forall _ _) Hall). }
  split; [|split].
  - intros toLowerCase description.
    apply (Hsub keywordResults); [vm_compute; reflexivity |].
    apply keyword_result_cases.
  - apply Hsub. vm_compute. reflexivity.
  - apply (bool_decide_unpack _). vm_compute. exact I.
Qed.

Lemma selector_offers_assigned_categories_witness :
  "Miscellaneous" ∈ Table.categories.
Proof.
  destruct selector_offers_assigned_categories as (_ & Hprompt & _).
  apply Hprompt. apply (bool_decide_unpack _). vm_compute. exact I.
Defined.

(** ** Detection of the columns *)

Lemma find_first {A} (p : A → bool) (l : list A) (x : A) :
  List.find p l = Some x
  ↔ ∃ i, l !! i = Some x ∧ p x = true
         ∧ ∀ j y, j < i → l !! j = Some y → p y = false.
Proof.
  induction l as [|a l IH]; simpl.
  - split; [done |]. by intros (i & Hi & _).
  - destruct (p a) eqn:Ha.
    + split.
      * intros [= <-]. exists 0. split; [done |]. split; [done |]. lia.
      * intros ([|i] & Hi & Hx & Hbefore).
        -- by injection Hi as ->.
        -- assert (p a = false) by (apply (Hbefore 0); [lia | done]). congruence.
    + rewrite IH. split.
      * intros (i & Hi & Hx & Hbefore). exists (S i).
        split; [done |]. split; [done |].
        intros [|j] y Hj Hy; [by injection Hy as <- |].
        apply (Hbefore j); [lia | done].
      * intros ([|i] & Hi & Hx & Hbefore).
        -- injection Hi as ->. congruence.
        -- exists i. split; [done |]. split; [done |].
           intros j y Hj Hy. apply (Hbefore (S j)); [lia | done].
Qed.

Lemma find_none_iff {A} (p : A → bool) (l : list A) :
  List.find p l = None ↔ ∀ x, x ∈ l → p x = false.
Proof.
  induction l as [|a l IH]; simpl.
  - split; [|done]. intros _ x Hx. by apply elem_of_nil in Hx.
  - destruct (p a) eqn:Ha.
    + split; [done |]. intros Hall.
      assert (p a = false) by (apply Hall, elem_of_cons; by left). congruence.
    + rewrite IH. split.
      * intros Hall x [-> | Hx]%elem_of_cons; [done | by apply Hall].
      * intros Hall x Hx. apply Hall, elem_of_cons. by right.
Qed.

(** The detection of one field, for a pattern that does not match the
    empty string. *)
Lemma detect_detects (regex columns : list string) (current : string) :
  ColumnMapper.test regex EmptyString = false →
  detects regex columns current (ColumnMapper.detect regex columns current).
Proof.
  intros Hempty. unfold ColumnMapper.detect.
  destruct (List.find _ columns) as [found|] eqn:Hfind.
  - apply find_first in Hfind. left.
    case_bool_decide as Hfound; [|done].
    destruct Hfind as (i & _ & Htest & _). congruence.
  - right. split; [|done]. unfold noneMatching. by apply find_none_iff.
Qed.

Lemma firstMatching_nonempty (regex columns : list string) (header : string) :
  ColumnMapper.test regex EmptyString = false →
  firstMatching regex columns header → header ≠ EmptyString.
Proof. intros Hempty (i & _ & Htest & _) ->. congruence. Qed.

(** X17: what the detection of the columns selects.  For each of the three
    fields it is the first header that the field's pattern matches, in
    either letter case and anywhere in the header, whichever headers the
    other fields got; a field none of whose headers matches keeps the
    selection it had.  When every pattern matches some header, the
    confirmation that follows does not ask for more columns: it hands the
    rows to the mapper under the detected columns. *)
Theorem columns_detected_by_first_match
    (columns : list string) (selected : Mapper.ColumnMapping) :
  detects ColumnMapper.dateRegex columns (Mapper.dateColumn selected)
    (Mapper.dateColumn (ColumnMapper.autoDetectColumns columns selected))
  ∧ detects ColumnMapper.descRegex columns (Mapper.descriptionColumn selected)
      (Mapper.descriptionColumn (ColumnMapper.autoDetectColumns columns selected))
  ∧ detects ColumnMapper.amountRegex columns (Mapper.amountColumn selected)
      (Mapper.amountColumn (ColumnMapper.autoDetectColumns columns selected))
  ∧ (¬ noneMatching ColumnMapper.dateRegex columns →
     ¬ noneMatching ColumnMapper.descRegex columns →
     ¬ noneMatching ColumnMapper.amountRegex columns →
     ∀ localTZA dateParse rows,
       ColumnMapper.handleConfirm localTZA dateParse
         (ColumnMapper.autoDetectColumns columns selected) rows
       = (processedData ←
            Mapper.processDataWithMapping localTZA dateParse
              (ColumnMapper.autoDetectColumns columns selected) rows;
          Returned (ColumnMapper.Delivered
                      (ColumnMapper.autoDetectColumns columns selected)
                      processedData))).
Proof.
  pose proof (detect_detects ColumnMapper.dateRegex columns
                (Mapper.dateColumn selected) eq_refl) as Hdate.
  pose proof (detect_detects ColumnMapper.descRegex columns
                (Mapper.descriptionColumn selected) eq_refl) as Hdesc.
  pose proof (detect_detects ColumnMapper.amountRegex columns
                (Mapper.amountColumn selected) eq_refl) as Hamount.
  repeat (split; [done |]).
  intros Hd Hs Ha localTZA dateParse rows. unfold ColumnMapper.handleConfirm.
  destruct Hdate as [Hdate | [? _]]; [|done].
  destruct Hdesc as [Hdesc | [? _]]; [|done].
  destruct Hamount as [Hamount | [? _]]; [|done].
  apply firstMatching_nonempty in Hdate; [|done].
  apply firstMatching_nonempty in Hdesc; [|done].
  apply firstMatching_nonempty in Hamount; [|done].
  simpl in *. by rewrite !bool_decide_eq_false_2 by done.
Qed.

Lemma columns_detected_by_first_match_witness :
  ColumnMapper.handleConfirm (λ _, 0%Z) (λ _, None)
    (ColumnMapper.autoDetectColumns exportHeaders ColumnMapper.unselected) []
  = Returned
      (ColumnMapper.Delivered
         {| Mapper.dateColumn := "Transaction Date";
            Mapper.descriptionColumn := "Transaction Date";
            Mapper.amountColumn := "Amount" |}
         []).
Proof.
  destruct (columns_detected_by_first_match exportHeaders ColumnMapper.unselected)
    as (_ & _ & _ & Hconfirm).
  rewrite Hconfirm; [reflexivity | | |];
    intros Hnone.
  - by specialize (Hnone "Transaction Date" ltac:(apply elem_of_cons; by left)).
  - by specialize (Hnone "Transaction Date" ltac:(apply elem_of_cons; by left)).
  - by specialize (Hnone "Amount"
                     ltac:(do 2 (apply elem_of_cons; right); apply elem_of_cons; by left)).
Defined.

(** ** The chat *)

Section ChatFacts.
Import Chat.
Variable toLowerCase : string → string.
Variable trim : string → string.

Local Abbreviation handleSendMessage := (handleSendMessage toLowerCase trim).

(** A send that passes the guard. *)
Lemma handleSendMessage_accepted message reply state :
  trim message ≠ EmptyString → isLoading state = false →
  handleSendMessage message reply state
  = {| messages := messages state ++ exchange toLowerCase trim (message, reply);
       input := input state;
       isLoading := false |}.
Proof.
  intros Hmessage Hidle.
  unfold Chat.handleSendMessage, beginSend, endSend, exchange, answerTo.
  rewrite Hidle, !bool_decide_eq_false_2 by done. simpl.
  unfold setIsLoading, append. simpl. rewrite <- app_assoc.
  by destruct reply as [|[] [| |content]].
Qed.

Lemma handleSendMessage_blank message reply state :
  trim message = EmptyString → handleSendMessage message reply state = state.
Proof.
  intros Hmessage. unfold Chat.handleSendMessage, beginSend.
  by rewrite bool_decide_eq_true_2.
Qed.

Lemma handleSendMessage_loading message reply state :
  isLoading state = true → handleSendMessage message reply state = state.
Proof.
  intros Hloading. unfold Chat.handleSendMessage, beginSend.
  by rewrite Hloading, orb_true_r.
Qed.

Lemma converse_history events state :
  isLoading state = false →
  messages (converse toLowerCase trim events state)
    = messages state ++ concat (exchange toLowerCase trim <$> events)
  ∧ input (converse toLowerCase trim events state) = input state
  ∧ isLoading (converse toLowerCase trim events state) = false.
Proof.
  revert state. induction events as [|[message reply] events IH]; intros state Hidle.
  - simpl. by rewrite app_nil_r.
  - unfold converse in *. simpl.
    destruct (decide (trim message = EmptyString)) as [Hblank | Hmessage].
    + rewrite (handleSendMessage_blank _ _ _ Hblank).
      destruct (IH state Hidle) as (-> & -> & ->).
      unfold exchange at 2. simpl. by rewrite bool_decide_eq_true_2.
    + rewrite (handleSendMessage_accepted _ _ _ Hmessage Hidle).
      destruct (IH {| messages := messages state
                                  ++ exchange toLowerCase trim (message, reply);
                      input := input state; isLoading := false |} eq_refl)
        as (-> & -> & ->).
      simpl. by rewrite <- app_assoc.
Qed.

End ChatFacts.

(** X18: the history of a conversation only grows, and by whole exchanges:
    after any sequence of sends the messages are the earlier messages
    followed, for every message that is not blank, by that message and one
    message of the assistant, in the order of the sends; and the component
    is not left loading.  The assistant's message holds what a successful
    reply carries as content, whatever that is: nothing tests it, so a reply
    whose message has no content, or one that is not a string, leaves a
    message without text in the history and no prepared answer.  The
    prepared answer is given when the request fails, the status is not a
    success, or the body cannot be read up to the content.  A send made
    while the component is loading changes nothing. *)
Theorem chat_history_grows_by_exchanges
    (toLowerCase trim : string → string)
    (events : list (string * Chat.Reply)) (state : Chat.State) :
  (Chat.isLoading state = false →
   Chat.messages (converse toLowerCase trim events state)
     = Chat.messages state ++ concat (exchange toLowerCase trim <$> events)
   ∧ Chat.isLoading (converse toLowerCase trim events state) = false)
  ∧ (Chat.isLoading state = true →
     converse toLowerCase trim events state = state)
  ∧ (∀ message content,
       trim message ≠ EmptyString →
       Chat.isLoading state = false →
       Chat.messages
         (Chat.handleSendMessage toLowerCase trim message
            (Chat.Response true (Chat.BodyContent content)) state)
       = Chat.messages state
         ++ [ {| Chat.role := Chat.User; Chat.content := Chat.Text message |};
              {| Chat.role := Chat.Assistant; Chat.content := content |} ]).
Proof.
  split; [| split].
  - intros Hidle.
    by destruct (converse_history toLowerCase trim events state Hidle) as (? & _ & ?).
  - intros Hloading. unfold converse.
    induction events as [|[message reply] events IH]; [done |]. simpl.
    by rewrite handleSendMessage_loading.
  - intros message content Hmessage Hidle.
    rewrite handleSendMessage_accepted by done. simpl.
    unfold exchange. simpl. by rewrite bool_decide_eq_false_2.
Qed.

Lemma chat_history_grows_by_exchanges_witness :
  Chat.messages
    (converse JsString.toLowerCaseAscii JsString.trimAscii
       [("   ", Chat.FetchRejected);
        ("Explain mutual funds",
         Chat.Response true (Chat.BodyContent (Chat.Text "A pooled investment.")));
        ("And bonds?", Chat.Response true (Chat.BodyContent Chat.Undefined));
        ("And stocks?", Chat.Response false Chat.BodyNotJson)]
       Chat.initial)
  = Chat.messages Chat.initial
    ++ [ {| Chat.role := Chat.User; Chat.content := Chat.Text "Explain mutual funds" |};
         {| Chat.role := Chat.Assistant;
            Chat.content := Chat.Text "A pooled investment." |};
         {| Chat.role := Chat.User; Chat.content := Chat.Text "And bonds?" |};
         {| Chat.role := Chat.Assistant; Chat.content := Chat.Undefined |};
         {| Chat.role := Chat.User; Chat.content := Chat.Text "And stocks?" |};
         {| Chat.role := Chat.Assistant;
            Chat.content := Chat.Text Chat.defaultResponse |} ].
Proof.
  destruct (chat_history_grows_by_exchanges JsString.toLowerCaseAscii
              JsString.trimAscii
              [("   ", Chat.FetchRejected);
               ("Explain mutual funds",
                Chat.Response true
                  (Chat.BodyContent (Chat.Text "A pooled investment.")));
               ("And bonds?", Chat.Response true (Chat.BodyContent Chat.Undefined));
               ("And stocks?", Chat.Response false Chat.BodyNotJson)]
              Chat.initial) as (Hidle & _ & _).
  destruct (Hidle eq_refl) as [-> _]. reflexivity.
Defined.

(** On a question of ASCII characters the host's lower-casing can be
    replaced by the ASCII one in the search for a prepared answer. *)
Lemma getFallbackResponse_ascii (toLowerCase trim : string → string) (question : string) :
  asciiHost toLowerCase trim → isAsciiString question = true →
  Chat.getFallbackResponse toLowerCase question
  = Chat.getFallbackResponse JsString.toLowerCaseAscii question.
Proof.
  intros Hhost Hquestion. unfold Chat.getFallbackResponse, Chat.fallbackResponses.
  simpl. destruct (Hhost question Hquestion) as [-> _].
  by repeat
    match goal with
    | |- context [toLowerCase ?key] => destruct (Hhost key eq_refl) as [-> _]
    end.
Qed.

(** X19: each of the four suggested questions is, in the same position, a key of
    the prepared answers, and no earlier key occurs in it.  So, in a host
    whose [toLowerCase] and [trim] treat ASCII strings as usual, a click on
    a suggested question while the endpoint fails or cannot be read adds the
    question and its own prepared answer to the history, never the default
    text. *)
Theorem suggested_questions_have_answers (toLowerCase trim : string → string) :
  asciiHost toLowerCase trim →
  Chat.suggestedQuestions = fst <$> Chat.fallbackResponses
  ∧ ∀ i question answer reply state,
      Chat.fallbackResponses !! i = Some (question, answer) →
      Chat.assistantMessage reply = Thrown →
      Chat.isLoading state = false →
      answer ≠ Chat.defaultResponse
      ∧ Chat.getFallbackResponse toLowerCase question = answer
      ∧ Chat.messages
          (Chat.handleSuggestedQuestion toLowerCase trim question reply state)
        = Chat.messages state
          ++ [ {| Chat.role := Chat.User; Chat.content := Chat.Text question |};
               {| Chat.role := Chat.Assistant; Chat.content := Chat.Text answer |} ].
Proof.
  intros Hhost. split; [reflexivity |].
  intros i question answer reply state Hi Hreply Hidle.
  assert (Hquestion : isAsciiString question = true
                      ∧ JsString.trimAscii question ≠ EmptyString
                      ∧ answer ≠ Chat.defaultResponse
                      ∧ Chat.getFallbackResponse JsString.toLowerCaseAscii question
                        = answer).
  { do 4 (destruct i as [|i];
          [ injection Hi as <- <-;
            split; [reflexivity |]; split; [by vm_compute |];
            split; [by vm_compute | by vm_compute] |]).
    done. }
  destruct Hquestion as (Hascii & Htrim & Hdefault & Hanswer).
  rewrite (getFallbackResponse_ascii toLowerCase trim question Hhost Hascii).
  split; [done |]. split; [done |].
  unfold Chat.handleSuggestedQuestion.
  rewrite handleSendMessage_accepted.
  - unfold exchange. simpl.
    destruct (Hhost question Hascii) as [_ ->].
    rewrite bool_decide_eq_false_2 by done.
    assert (Hfallback : answerTo toLowerCase question reply
                        = Chat.Text (Chat.getFallbackResponse toLowerCase question)).
    { by destruct reply as [|[] [| |content]]. }
    rewrite Hfallback.
    by rewrite (getFallbackResponse_ascii toLowerCase trim question Hhost Hascii), Hanswer.
  - by destruct (Hhost question Hascii) as [_ ->].
  - done.
Qed.

Lemma suggested_questions_have_answers_witness :
  Chat.messages
    (Chat.handleSuggestedQuestion JsString.toLowerCaseAscii JsString.trimAscii
       "Explain mutual funds" Chat.FetchRejected Chat.initial)
  = Chat.messages Chat.initial
    ++ [ {| Chat.role := Chat.User; Chat.content := Chat.Text "Explain mutual funds" |};
         {| Chat.role := Chat.Assistant;
            Chat.content := Chat.Text "A mutual fund is an investment vehicle that pools money from many investors to purchase a diversified portfolio of stocks, bonds, or other securities. Professional fund managers handle the investments, making decisions on behalf of the investors. Mutual funds offer diversification, professional management, and liquidity, making them accessible to individual investors who might not have the time, expertise, or capital to build diversified portfolios on their own." |} ].
Proof.
  assert (Hhost : asciiHost JsString.toLowerCaseAscii JsString.trimAscii) by done.
  destruct (suggested_questions_have_answers _ _ Hhost) as [_ Hanswers].
  by destruct (Hanswers 2 _ _ Chat.FetchRejected Chat.initial eq_refl eq_refl eq_refl)
    as (_ & _ & ->).
Defined.

(** ** The calendar of [Date] *)

Section CalendarFacts.
Import JsDate.
Local Open Scope Z_scope.

Lemma inLeapYear_true y :
  inLeapYear y = true ↔ (y mod 4 = 0 ∧ y mod 100 ≠ 0) ∨ y mod 400 = 0.
Proof.
  unfold inLeapYear. rewrite orb_true_iff, andb_true_iff, negb_true_iff.
  rewrite !Z.eqb_eq, Z.eqb_neq. tauto.
Qed.

Lemma inLeapYear_false y :
  inLeapYear y = false ↔ (y mod 4 ≠ 0 ∨ y mod 100 = 0) ∧ y mod 400 ≠ 0.
Proof.
  unfold inLeapYear. rewrite orb_false_iff, andb_false_iff, negb_false_iff.
  rewrite !Z.eqb_eq, !Z.eqb_neq. tauto.
Qed.

Lemma month_cases m :
  1 ≤ m ≤ 12 →
  m = 1 ∨ m = 2 ∨ m = 3 ∨ m = 4 ∨ m = 5 ∨ m = 6 ∨ m = 7 ∨ m = 8 ∨ m = 9
  ∨ m = 10 ∨ m = 11 ∨ m = 12.
Proof. lia. Qed.

Ltac closed_values :=
  repeat match goal with
    | |- context [dayWithinYear ?b ?mn] =>
        let v := eval vm_compute in (dayWithinYear b mn) in
        change (dayWithinYear b mn) with v
    | |- context [marchMonth ?m] =>
        let v := eval vm_compute in (marchMonth m) in
        change (marchMonth m) with v
    | |- context [Z.leb ?a ?b] =>
        let v := eval vm_compute in (Z.leb a b) in
        change (Z.leb a b) with v
    end;
  cbv iota.

Ltac each_month Hcases :=
  repeat (destruct Hcases as [-> | Hcases]); try subst.

(** The day number of a date, counted through its March year. *)
Lemma makeDay_march y m d :
  1 ≤ m ≤ 12 →
  makeDay y (m - 1) d + 719468
  = 146097 * ((marchYear y m) / 400)
    + (365 * ((marchYear y m) mod 400) + ((marchYear y m) mod 400) / 4
       - ((marchYear y m) mod 400) / 100 + dayOfMarchYear m d).
Proof.
  intros Hm. unfold makeDay.
  replace ((m - 1) / 12) with 0 by (symmetry; apply Z.div_small; lia).
  replace ((m - 1) mod 12) with (m - 1) by (symmetry; apply Z.mod_small; lia).
  rewrite Z.add_0_r. apply month_cases in Hm as Hcases.
  unfold dayFromYear, dayOfMarchYear, marchYear.
  destruct (inLeapYear y) eqn:Hleap;
    [apply inLeapYear_true in Hleap | apply inLeapYear_false in Hleap];
    each_month Hcases; closed_values; Z.div_mod_to_equations; lia.
Qed.

(** The year of the era is recovered from the day of the era. *)
Lemma yoe_recover yoe doy :
  0 ≤ yoe < 400 → 0 ≤ doy ≤ 365 →
  (doy = 365 → (yoe + 1) mod 4 = 0 ∧ ((yoe + 1) mod 100 ≠ 0 ∨ yoe = 399)) →
  let doe := 365 * yoe + yoe / 4 - yoe / 100 + doy in
  0 ≤ doe < 146097
  ∧ (doe - doe / 1460 + doe / 36524 - doe / 146096) / 365 = yoe.
Proof.
  intros Hy Hd Hleap doe. subst doe. Z.div_mod_to_equations. lia.
Qed.

Lemma civil_of_march era yoe doy :
  0 ≤ yoe < 400 → 0 ≤ doy ≤ 365 →
  (doy = 365 → (yoe + 1) mod 4 = 0 ∧ ((yoe + 1) mod 100 ≠ 0 ∨ yoe = 399)) →
  civilFromDays (146097 * era + (365 * yoe + yoe / 4 - yoe / 100 + doy) - 719468)
  = let mp := (5 * doy + 2) / 153 in
    let d := doy - (153 * mp + 2) / 5 + 1 in
    let m := if mp <? 10 then mp + 3 else mp - 9 in
    ((if m <=? 2 then yoe + era * 400 + 1 else yoe + era * 400), m, d).
Proof.
  intros Hy Hd Hleap.
  destruct (yoe_recover yoe doy Hy Hd Hleap) as [Hdoe Hyoe].
  unfold civilFromDays.
  remember (365 * yoe + yoe / 4 - yoe / 100 + doy) as doe eqn:Hdef.
  replace (146097 * era + doe - 719468 + 719468) with (doe + era * 146097) by lia.
  rewrite Z.div_add, Z.mod_add by lia.
  rewrite (Z.div_small doe 146097), (Z.mod_small doe 146097) by lia.
  rewrite Hyoe, Z.add_0_l.
  replace (doe - (365 * yoe + yoe / 4 - yoe / 100)) with doy by lia.
  reflexivity.
Qed.

(** Month and day are recovered from the day of the March year. *)
Lemma month_recover y m d :
  1 ≤ m ≤ 12 → 1 ≤ d ≤ daysInMonth y m →
  let doy := dayOfMarchYear m d in
  0 ≤ doy ≤ 365
  ∧ (doy = 365 → m = 2 ∧ d = 29)
  ∧ (5 * doy + 2) / 153 = marchMonth m
  ∧ doy - (153 * marchMonth m + 2) / 5 + 1 = d
  ∧ (if marchMonth m <? 10 then marchMonth m + 3 else marchMonth m - 9) = m.
Proof.
  intros Hm Hd doy. subst doy. unfold dayOfMarchYear, daysInMonth in *.
  apply month_cases in Hm as Hcases.
  each_month Hcases; destruct (inLeapYear y); simpl in Hd; closed_values;
    (split; [|split; [|split; [|split; [|reflexivity]]]]);
    Z.div_mod_to_equations; lia.
Qed.

(** The civil date of the day number of a date is the date. *)
Lemma civil_makeDay y m d :
  1 ≤ m ≤ 12 → 1 ≤ d ≤ daysInMonth y m →
  civilFromDays (makeDay y (m - 1) d) = (y, m, d).
Proof.
  intros Hm Hd.
  destruct (month_recover y m d Hm Hd) as (Hdoy & Hlast & Hmp & Hday & Hmonth).
  pose proof (makeDay_march y m d Hm) as Hmake.
  set (era := marchYear y m / 400) in *.
  set (yoe := marchYear y m mod 400) in *.
  assert (Hyoe : 0 ≤ yoe < 400) by (apply Z.mod_pos_bound; lia).
  assert (Hyear : marchYear y m = 400 * era + yoe) by (apply Z.div_mod; lia).
  assert (Hleap : dayOfMarchYear m d = 365 →
            (yoe + 1) mod 4 = 0 ∧ ((yoe + 1) mod 100 ≠ 0 ∨ yoe = 399)).
  { intros [-> ->]%Hlast. unfold daysInMonth in Hd. simpl in Hd.
    destruct (inLeapYear y) eqn:Hy; [|lia]. apply inLeapYear_true in Hy.
    unfold marchYear in Hyear. simpl in Hyear.
    clear Hmake Hdoy Hlast Hmp Hday Hmonth Hd. clearbody era yoe.
    Z.div_mod_to_equations. lia. }
  replace (makeDay y (m - 1) d)
    with (146097 * era + (365 * yoe + yoe / 4 - yoe / 100 + dayOfMarchYear m d)
          - 719468) by lia.
  rewrite (civil_of_march era yoe _ Hyoe Hdoy Hleap). cbv zeta.
  rewrite Hmp, Hday, Hmonth.
  assert (Hy : (if m <=? 2 then yoe + era * 400 + 1 else yoe + era * 400) = y).
  { unfold marchYear in Hyear. destruct (m <=? 2); lia. }
  by rewrite Hy.
Qed.

Lemma makeDay_bounds y m d :
  100 ≤ y ≤ 9999 → 1 ≤ m ≤ 12 → 1 ≤ d ≤ daysInMonth y m →
  -719468 ≤ makeDay y (m - 1) d ≤ 3652425.
Proof.
  intros Hy Hm Hd.
  destruct (month_recover y m d Hm Hd) as (Hdoy & _).
  pose proof (makeDay_march y m d Hm) as Hmake.
  assert (Hmarch : 99 ≤ marchYear y m ≤ 9999).
  { unfold marchYear. destruct (m <=? 2); lia. }
  clear Hd. revert Hmake. generalize (dayOfMarchYear m d) (marchYear y m) Hdoy Hmarch.
  intros doy my ? ? Hmake. Z.div_mod_to_equations. lia.
Qed.

(** The day before a date is the date before it. *)
Lemma makeDay_previous y m d :
  1 ≤ m ≤ 12 → 1 ≤ d ≤ daysInMonth y m →
  ∃ y' m' d',
    previousDate y m d = (y', m', d')
    ∧ y - 1 ≤ y' ≤ y ∧ 1 ≤ m' ≤ 12 ∧ 1 ≤ d' ≤ daysInMonth y' m'
    ∧ makeDay y' (m' - 1) d' = makeDay y (m - 1) d - 1.
Proof.
  intros Hm Hd. unfold previousDate.
  destruct (d =? 1) eqn:Hd1; [apply Z.eqb_eq in Hd1 as -> | apply Z.eqb_neq in Hd1].
  - destruct (m =? 1) eqn:Hm1; [apply Z.eqb_eq in Hm1 as -> | apply Z.eqb_neq in Hm1].
    + exists (y - 1), 12, 31. split; [done |]. split; [lia |]. split; [lia |].
      split; [done |]. unfold makeDay.
      change ((12 - 1) / 12) with 0. change ((12 - 1) mod 12) with 11.
      change ((1 - 1) / 12) with 0. change ((1 - 1) mod 12) with 0.
      rewrite !Z.add_0_r. unfold dayFromYear.
      destruct (inLeapYear (y - 1)) eqn:Hleap;
        [apply inLeapYear_true in Hleap | apply inLeapYear_false in Hleap];
        destruct (inLeapYear y); closed_values; Z.div_mod_to_equations; lia.
    + exists y, (m - 1), (daysInMonth y (m - 1)).
      split; [done |]. split; [lia |]. split; [lia |].
      assert (Hcases : m = 2 ∨ m = 3 ∨ m = 4 ∨ m = 5 ∨ m = 6 ∨ m = 7 ∨ m = 8 ∨ m = 9
                       ∨ m = 10 ∨ m = 11 ∨ m = 12) by lia.
      unfold makeDay, daysInMonth.
      each_month Hcases; destruct (inLeapYear y) eqn:Hleap; simpl;
        (split; [lia |]);
        repeat match goal with
          | |- context [Z.div ?a 12] =>
              let v := eval vm_compute in (Z.div a 12) in change (Z.div a 12) with v
          | |- context [Z.modulo ?a 12] =>
              let v := eval vm_compute in (Z.modulo a 12) in
              change (Z.modulo a 12) with v
          end;
        rewrite !Z.add_0_r, ?Hleap; closed_values; lia.
  - exists y, m, (d - 1). split; [done |]. split; [lia |]. split; [done |].
    split; [lia |]. unfold makeDay. lia.
Qed.

End CalendarFacts.

(** ** Dates in ISO form *)

Lemma length_append (a b : string) :
  String.length (a +:+ b) = String.length a + String.length b.
Proof.
  induction a as [|c a IH]; [done |]. rewrite append_cons. simpl. by rewrite IH.
Qed.

Lemma substring_prefix (a rest : string) :
  String.substring 0 (String.length a) (a +:+ rest) = a.
Proof.
  induction a as [|c a IH]; [by destruct rest |].
  rewrite append_cons. simpl. by rewrite IH.
Qed.

Lemma length_string_of_list_ascii (l : list ascii) :
  String.length (String.string_of_list_ascii l) = length l.
Proof. induction l as [|c l IH]; simpl; [done | by rewrite IH]. Qed.

Lemma pretty_N_go_length (k : nat) (x : N) (s : string) :
  (x < 10 ^ N.of_nat k)%N →
  String.length (pretty_N_go x s) ≤ k + String.length s.
Proof.
  revert x s. induction k as [|k IH]; intros x s Hx.
  - assert (x = 0%N) as -> by (simpl in Hx; lia). by rewrite pretty_N_go_0.
  - destruct (decide (x = 0%N)) as [-> | Hne].
    { rewrite pretty_N_go_0. lia. }
    rewrite pretty_N_go_step by lia.
    etrans; [apply IH |].
    + apply N.Div0.div_lt_upper_bound.
      rewrite Nat2N.inj_succ, N.pow_succ_r' in Hx. lia.
    + simpl. lia.
Qed.

Lemma padded_length (width : nat) (n : Z) :
  0 < width → (Z.to_N n < 10 ^ N.of_nat width)%N →
  String.length (JsDate.padded width n) = width.
Proof.
  intros Hwidth Hn. unfold JsDate.padded.
  assert (Hdigits : String.length (pretty (Z.to_N n)) ≤ width).
  { unfold pretty, pretty_N. destruct (decide (Z.to_N n = 0%N)); [simpl; lia |].
    etrans; [by apply (pretty_N_go_length width) |]. simpl. lia. }
  rewrite length_append, length_string_of_list_ascii, length_replicate. lia.
Qed.

Lemma firstTen_date (year month day rest : string) :
  String.length year = 4 → String.length month = 2 → String.length day = 2 →
  Mapper.firstTen (year +:+ "-" +:+ month +:+ "-" +:+ day +:+ rest)
  = year +:+ "-" +:+ month +:+ "-" +:+ day.
Proof.
  intros Hyear Hmonth Hday. unfold Mapper.firstTen.
  replace (year +:+ "-" +:+ month +:+ "-" +:+ day +:+ rest)
    with ((year +:+ "-" +:+ month +:+ "-" +:+ day) +:+ rest)
    by (by rewrite !string_app_assoc).
  replace 10 with (String.length (year +:+ "-" +:+ month +:+ "-" +:+ day)).
  - apply substring_prefix.
  - rewrite !length_append, Hyear, Hmonth, Hday. done.
Qed.

(** The first ten characters of the ISO string of a time value whose day
    is a date of a year up to 9999. *)
Lemma toISOString_date (t y m d : Z) :
  JsDate.civilFromDays (t / JsDate.msPerDay) = (y, m, d) →
  (0 ≤ y ≤ 9999)%Z → (1 ≤ m ≤ 12)%Z → (1 ≤ d ≤ 31)%Z →
  Mapper.firstTen <$> JsDate.toISOString (Some t) = Returned (isoDate (y, m, d)).
Proof.
  intros Hcivil Hy Hm Hd. unfold JsDate.toISOString. rewrite Hcivil.
  assert (Hyear : (0 <=? y)%Z && (y <=? 9999)%Z = true).
  { apply andb_true_iff. split; apply Z.leb_le; lia. }
  rewrite Hyear. simpl. f_equal. unfold isoDate.
  assert (H4 : (10 ^ N.of_nat 4)%N = 10000%N) by reflexivity.
  assert (H2 : (10 ^ N.of_nat 2)%N = 100%N) by reflexivity.
  apply firstTen_date; apply padded_length; rewrite ?H4, ?H2; lia.
Qed.

Section SlashDates.
Import Mapper.
Variable localTZA : Z → Z.
Variable dateParse : string → option Z.
Local Open Scope Z_scope.

Lemma addCentury_range y : 0 ≤ y ≤ 9999 → 100 ≤ addCentury y ≤ 9999.
Proof.
  intros Hy. unfold addCentury.
  destruct (y <? 100) eqn:H100; [apply Z.ltb_lt in H100 | apply Z.ltb_ge in H100];
    [destruct (y <? 50) |]; lia.
Qed.

(** The three-part branch, up to the ISO string of the date built. *)
Lemma formatDate_parts s p0 p1 p2 m d y :
  matchesPrefix isoPrefix s = false →
  JsString.split isDateSeparator s = [p0; p1; p2] →
  JsParse.parseInt p0 = Some m → JsParse.parseInt p1 = Some d →
  JsParse.parseInt p2 = Some y → 0 ≤ y ≤ 9999 →
  formatDate localTZA dateParse (Some s)
  = firstTen
      <$> JsDate.toISOString
            (JsDate.timeClip
               (JsDate.makeDay (addCentury y) (m - 1) d * JsDate.msPerDay
                - localTZA (JsDate.makeDay (addCentury y) (m - 1) d * JsDate.msPerDay))).
Proof.
  intros Hiso Hsplit Hm Hd Hy Hrange. unfold formatDate.
  destruct s as [|c s]; [done |].
  rewrite Hiso, Hsplit, Hm, Hd, Hy. simpl. unfold JsDate.newDate. simpl.
  pose proof (addCentury_range y Hrange) as Hyear.
  assert (Hcentury : (0 <=? addCentury y) && (addCentury y <=? 99) = false).
  { apply andb_false_iff. right. apply Z.leb_gt. lia. }
  by rewrite Hcentury.
Qed.

(** A time value within the range of [Date]. *)
Lemma timeClip_day day offset :
  -800000 ≤ day ≤ 4000000 → - JsDate.msPerDay ≤ offset ≤ JsDate.msPerDay →
  JsDate.timeClip (day * JsDate.msPerDay + offset)
  = Some (day * JsDate.msPerDay + offset).
Proof.
  intros Hday Hoffset. unfold JsDate.timeClip, JsDate.msPerDay in *.
  assert (Hle : (Z.abs (day * 86400000 + offset) <=? 8640000000000000) = true)
    by (apply Z.leb_le; lia).
  by rewrite Hle.
Qed.

Lemma day_of_time day offset :
  0 ≤ offset < JsDate.msPerDay →
  (day * JsDate.msPerDay + offset) / JsDate.msPerDay = day.
Proof.
  intros Hoffset. symmetry. apply (Z.div_unique _ _ _ offset); [lia |].
  unfold JsDate.msPerDay. lia.
Qed.

(** The three-part branch in a host at or west of UTC, for a date that
    has the day number of the existing date [(y', m', d')]. *)
Lemma formatDate_west_day s p0 p1 p2 m d y y' m' d' :
  (∀ t, - JsDate.msPerDay < localTZA t ≤ 0) →
  matchesPrefix isoPrefix s = false →
  JsString.split isDateSeparator s = [p0; p1; p2] →
  JsParse.parseInt p0 = Some m → JsParse.parseInt p1 = Some d →
  JsParse.parseInt p2 = Some y → 0 ≤ y ≤ 9999 →
  JsDate.makeDay (addCentury y) (m - 1) d = JsDate.makeDay y' (m' - 1) d' →
  100 ≤ y' ≤ 9999 → 1 ≤ m' ≤ 12 → 1 ≤ d' ≤ daysInMonth y' m' →
  formatDate localTZA dateParse (Some s) = Returned (isoDate (y', m', d')).
Proof.
  intros Hwest Hiso Hsplit Hm Hd Hy Hyear Hsame Hyear' Hmonth' Hday'.
  rewrite (formatDate_parts s p0 p1 p2 m d y) by done. rewrite Hsame.
  pose proof (makeDay_bounds y' m' d' Hyear' Hmonth' Hday') as Hbounds.
  set (day := JsDate.makeDay y' (m' - 1) d') in *.
  specialize (Hwest (day * JsDate.msPerDay)).
  replace (day * JsDate.msPerDay - localTZA (day * JsDate.msPerDay))
    with (day * JsDate.msPerDay + - localTZA (day * JsDate.msPerDay)) by lia.
  rewrite timeClip_day by lia.
  apply toISOString_date; [| lia | done |].
  - rewrite day_of_time by lia. by apply civil_makeDay.
  - assert (daysInMonth y' m' ≤ 31); [|lia].
    unfold daysInMonth. repeat case_match; lia.
Qed.

(** A month index from 12 to 23 is the month twelve below it in the next
    year. *)
Lemma makeDay_carry y mn d :
  0 ≤ mn ≤ 11 → JsDate.makeDay y (mn + 12) d = JsDate.makeDay (y + 1) mn d.
Proof.
  intros Hmn. unfold JsDate.makeDay.
  replace (mn + 12) with (mn + 1 * 12) by lia.
  rewrite Z.div_add, Z.mod_add by lia.
  by rewrite (Z.div_small mn 12), Z.add_0_l, Z.add_0_r by lia.
Qed.

End SlashDates.

(** X20: in a host at or west of UTC (a local offset of zero or less, and of
    less than a day) a date written as month, day and year, separated by
    [/], [.] or [-], comes out as that calendar date in the form
    [YYYY-MM-DD]: for every date that exists, with a year from 0 to 9999
    and the two-digit years moved into 1950 to 2049. *)
Theorem slash_dates_west_of_utc
    (localTZA : Z → Z) (dateParse : string → option Z)
    (s p0 p1 p2 : string) (m d y : Z) :
  (∀ t, - JsDate.msPerDay < localTZA t ≤ 0)%Z →
  Mapper.matchesPrefix Mapper.isoPrefix s = false →
  JsString.split Mapper.isDateSeparator s = [p0; p1; p2] →
  JsParse.parseInt p0 = Some m →
  JsParse.parseInt p1 = Some d →
  JsParse.parseInt p2 = Some y →
  (0 ≤ y ≤ 9999)%Z → (1 ≤ m ≤ 12)%Z →
  (1 ≤ d ≤ daysInMonth (Mapper.addCentury y) m)%Z →
  Mapper.formatDate localTZA dateParse (Some s)
  = Returned (isoDate (Mapper.addCentury y, m, d)).
Proof.
  intros Hwest Hiso Hsplit Hm Hd Hy Hyear Hmonth Hday.
  apply (formatDate_west_day localTZA dateParse s p0 p1 p2 m d y); try done.
  by apply addCentury_range.
Qed.

Lemma slash_dates_west_of_utc_witness :
  Mapper.formatDate (λ _, (-18000000)%Z) (λ _, None) (Some "2/29/24")
  = Returned "2024-02-29".
Proof.
  assert (Hwest : ∀ t : Z, (- JsDate.msPerDay < (λ _ : Z, -18000000) t ≤ 0)%Z).
  { intros _. unfold JsDate.msPerDay. lia. }
  assert (Hday : (1 ≤ 29 ≤ daysInMonth (Mapper.addCentury 24) 2)%Z).
  { vm_compute. split; discriminate. }
  rewrite (slash_dates_west_of_utc (λ _, (-18000000)%Z) (λ _, None)
             "2/29/24" "2" "29" "24" 2 29 24 Hwest eq_refl eq_refl
             eq_refl eq_refl eq_refl ltac:(lia) ltac:(lia) Hday).
  reflexivity.
Defined.

(** X21: in a host east of UTC (a local offset above zero, and of a day at
    most) the same dates come out one calendar day early: as the day before
    the date written. *)
Theorem slash_dates_east_of_utc
    (localTZA : Z → Z) (dateParse : string → option Z)
    (s p0 p1 p2 : string) (m d y : Z) :
  (∀ t, 0 < localTZA t ≤ JsDate.msPerDay)%Z →
  Mapper.matchesPrefix Mapper.isoPrefix s = false →
  JsString.split Mapper.isDateSeparator s = [p0; p1; p2] →
  JsParse.parseInt p0 = Some m →
  JsParse.parseInt p1 = Some d →
  JsParse.parseInt p2 = Some y →
  (0 ≤ y ≤ 9999)%Z → (1 ≤ m ≤ 12)%Z →
  (1 ≤ d ≤ daysInMonth (Mapper.addCentury y) m)%Z →
  Mapper.formatDate localTZA dateParse (Some s)
    = Returned (isoDate (previousDate (Mapper.addCentury y) m d))
  ∧ previousDate (Mapper.addCentury y) m d ≠ (Mapper.addCentury y, m, d).
Proof.
  intros Heast Hiso Hsplit Hm Hd Hy Hyear Hmonth Hday.
  rewrite (formatDate_parts localTZA dateParse s p0 p1 p2 m d y) by done.
  pose proof (addCentury_range y Hyear) as Hcentury.
  set (year := Mapper.addCentury y) in *.
  pose proof (makeDay_bounds year m d Hcentury Hmonth Hday) as Hbounds.
  destruct (makeDay_previous year m d Hmonth Hday)
    as (y' & m' & d' & Hprevious & Hy' & Hm' & Hd' & Hmake).
  rewrite Hprevious. split.
  - set (day := JsDate.makeDay year (m - 1) d) in *.
    specialize (Heast (day * JsDate.msPerDay)%Z).
    replace (day * JsDate.msPerDay - localTZA (day * JsDate.msPerDay))%Z
      with ((day - 1) * JsDate.msPerDay
            + (JsDate.msPerDay - localTZA (day * JsDate.msPerDay)))%Z by lia.
    assert (Hms : (0 < JsDate.msPerDay)%Z) by done.
    rewrite timeClip_day by lia.
    apply toISOString_date; [| lia | done |].
    + rewrite day_of_time by lia. rewrite <- Hmake. by apply civil_makeDay.
    + assert (daysInMonth y' m' ≤ 31)%Z; [|lia].
      unfold daysInMonth. repeat case_match; lia.
  - unfold previousDate in Hprevious. intros [= -> -> ->].
    repeat case_match; simplify_eq; lia.
Qed.

Lemma slash_dates_east_of_utc_witness :
  Mapper.formatDate (λ _, 19800000%Z) (λ _, None) (Some "03/01/2024")
  = Returned "2024-02-29".
Proof.
  assert (Heast : ∀ t : Z, (0 < (λ _ : Z, 19800000) t ≤ JsDate.msPerDay)%Z).
  { intros _. unfold JsDate.msPerDay. lia. }
  assert (Hday : (1 ≤ 1 ≤ daysInMonth (Mapper.addCentury 2024) 3)%Z).
  { vm_compute. split; discriminate. }
  destruct (slash_dates_east_of_utc (λ _, 19800000%Z) (λ _, None)
              "03/01/2024" "03" "01" "2024" 3 1 2024 Heast eq_refl eq_refl
              eq_refl eq_refl eq_refl ltac:(lia) ltac:(lia) Hday) as [Hformat _].
  rewrite Hformat. reflexivity.
Defined.

(** X22: a first part from 13 to 24 is not refused as a month: in a host
    at or west of UTC a date written day first, as 15/03/2024 for the
    fifteenth of March, comes out as the date whose month is the first part
    less twelve and whose day is the second part, in the following year. *)
Theorem day_first_dates_land_in_next_year
    (localTZA : Z → Z) (dateParse : string → option Z)
    (s p0 p1 p2 : string) (m d y : Z) :
  (∀ t, - JsDate.msPerDay < localTZA t ≤ 0)%Z →
  Mapper.matchesPrefix Mapper.isoPrefix s = false →
  JsString.split Mapper.isDateSeparator s = [p0; p1; p2] →
  JsParse.parseInt p0 = Some m →
  JsParse.parseInt p1 = Some d →
  JsParse.parseInt p2 = Some y →
  (0 ≤ y ≤ 9998)%Z → (13 ≤ m ≤ 24)%Z →
  (1 ≤ d ≤ daysInMonth (Mapper.addCentury y + 1) (m - 12))%Z →
  Mapper.formatDate localTZA dateParse (Some s)
  = Returned (isoDate (Mapper.addCentury y + 1, m - 12, d)%Z).
Proof.
  intros Hwest Hiso Hsplit Hm Hd Hy Hyear Hmonth Hday.
  apply (formatDate_west_day localTZA dateParse s p0 p1 p2 m d y);
    try done; try lia.
  - replace (m - 1)%Z with (m - 12 - 1 + 12)%Z by lia.
    apply makeDay_carry. lia.
  - assert (100 ≤ Mapper.addCentury y ≤ 9999)%Z by (apply addCentury_range; lia).
    unfold Mapper.addCentury in *.
    destruct (y <? 100)%Z eqn:H100; [apply Z.ltb_lt in H100 | apply Z.ltb_ge in H100];
      [destruct (y <? 50)%Z |]; lia.
Qed.

Lemma day_first_dates_land_in_next_year_witness :
  Mapper.formatDate (λ _, 0%Z) (λ _, None) (Some "15/03/2024")
  = Returned "2025-03-03".
Proof.
  assert (Hwest : ∀ t : Z, (- JsDate.msPerDay < (λ _ : Z, 0) t ≤ 0)%Z).
  { intros _. unfold JsDate.msPerDay. lia. }
  assert (Hday : (1 ≤ 3 ≤ daysInMonth (Mapper.addCentury 2024 + 1) (15 - 12))%Z).
  { vm_compute. split; discriminate. }
  rewrite (day_first_dates_land_in_next_year (λ _, 0%Z) (λ _, None)
             "15/03/2024" "15" "03" "2024" 15 3 2024 Hwest eq_refl eq_refl
             eq_refl eq_refl eq_refl ltac:(lia) ltac:(lia) Hday).
  reflexivity.
Defined.

(** ** What the classifiers read *)

Lemma Forall2_fmap_eq {A B} (f : A → B) (l k : list A) :
  Forall2 (λ x y, f x = f y) l k → f <$> l = f <$> k.
Proof. induction 1 as [|x y l k Hxy _ IH]; [done |]. rewrite !fmap_cons. by f_equal. Qed.

Lemma makeBatches_Forall2 {A} (R : A → A → Prop) (l k : list A) :
  Forall2 R l k → Forall2 (Forall2 R) (Adapter.makeBatches l) (Adapter.makeBatches k).
Proof.
  intros Hrel. pose proof (Forall2_length _ _ _ Hrel) as Hlen.
  apply Forall2_same_length_lookup. split.
  - by rewrite !makeBatches_length, Hlen.
  - intros i batch batch' [_ ->]%makeBatches_lookup [_ ->]%makeBatches_lookup.
    by apply Forall2_take, Forall2_drop.
Qed.

(** X23: what is sent to the remote classifier depends on the descriptions
    and on the magnitudes of the amounts only: two lists that agree on these,
    position by position, give the same prompts, batch by batch, whatever
    their identifiers, dates, categories and the signs of their amounts. *)
Theorem remote_reads_description_and_magnitude
    (toFixed2 : number → string) (transactions transactions' : list Adapter.Transaction) :
  Forall2 sameRequestData transactions transactions' →
  requests toFixed2 transactions = requests toFixed2 transactions'.
Proof.
  intros Hrel%(makeBatches_Forall2 sameRequestData). unfold requests.
  apply Forall2_fmap_eq. eapply Forall2_impl; [exact Hrel |].
  intros batch batch' Hbatch. simpl. f_equal. unfold Adapter.transactionsText.
  f_equal. apply Forall2_fmap_eq. eapply Forall2_impl; [exact Hbatch |].
  intros t t' [Hdescription Hamount]. simpl. by rewrite Hdescription, Hamount.
Qed.

Lemma remote_reads_description_and_magnitude_witness :
  requests (λ _, "12.00") [uberTrip]
  = requests (λ _, "12.00")
      [ {| Adapter.id := "tx-9"; Adapter.date := "2023-01-01";
           Adapter.description := Some "Uber Trip";
           Adapter.amount := JsNumber.ofZ 12; Adapter.category := "Travel" |} ].
Proof.
  apply (remote_reads_description_and_magnitude (λ _, "12.00")).
  by repeat constructor.
Defined.

(** X24: the naive mode reads nothing but the descriptions and overwrites
    every category: two lists that differ in their categories at most get
    the same answer, so a category set by hand does not survive, and
    categorizing the answer again changes nothing. *)
Theorem naive_mode_overwrites_categories
    (toLowerCase : string → string)
    (transactions categorized : list Adapter.Transaction) :
  Route.categorizeNaive toLowerCase (Adapter.Object <$> transactions)
    = Returned categorized →
  (∀ transactions',
     Forall2 sameButCategory transactions transactions' →
     Route.categorizeNaive toLowerCase (Adapter.Object <$> transactions')
       = Returned categorized)
  ∧ Route.categorizeNaive toLowerCase (Adapter.Object <$> categorized)
    = Returned categorized.
Proof.
  intros Hout.
  assert (Hsame : ∀ transactions',
    Forall2 sameButCategory transactions transactions' →
    Route.categorizeNaive toLowerCase (Adapter.Object <$> transactions')
      = Returned categorized).
  { intros transactions' Hrel. apply categorizeNaive_Returned.
    apply categorizeNaive_Returned in Hout.
    revert transactions' Hrel.
    induction Hout as [|t out txs outs (Hmembers & d & Hd & Hcategory) _ IH];
      intros transactions' Hrel.
    - apply Forall2_nil_inv_l in Hrel as ->. constructor.
    - apply Forall2_cons_inv_l in Hrel as (t' & txs' & [c ->] & Hrel & ->).
      constructor; [|by apply IH]. split; [exact Hmembers | by exists d]. }
  split; [exact Hsame |]. apply Hsame.
  apply categorizeNaive_Returned in Hout.
  eapply Forall2_impl; [exact Hout |].
  intros t t' (Hmembers & _). exists (Adapter.category t').
  by apply sameMembers_category.
Qed.

Lemma naive_mode_overwrites_categories_witness :
  Route.categorizeNaive JsString.toLowerCaseAscii
    (Adapter.Object
       <$> [Adapter.withCategory uberTrip "Travel"; Adapter.withCategory paycheck "Gift"])
  = Returned [Adapter.withCategory uberTrip "Transportation";
              Adapter.withCategory paycheck "Income"].
Proof.
  destruct (naive_mode_overwrites_categories JsString.toLowerCaseAscii
              [uberTrip; paycheck]
              [Adapter.withCategory uberTrip "Transportation";
               Adapter.withCategory paycheck "Income"] eq_refl) as [Hsame _].
  apply Hsame. repeat constructor; by eexists.
Defined.
